(** * SvgNamespaceNormalizer: the namespace-normalization transform

    A shallow embedding of [SvgNamespaceNormalizer.hasIssue],
    [SvgNamespaceNormalizer.normalize] and
    [SvgNamespaceNormalizer.toDataUrl] of src/hummm.js (the file holds two
    versions of the module, 1.2.0 first and 1.1.0 second), followed by the
    properties of the transform.

    JavaScript strings are sequences of UTF-16 code units; a code unit is
    modelled as a number of type [N] and a string as a list of code units.
    The regular expressions of the source are written in a small regular
    expression syntax whose matcher backtracks in the order the ECMAScript
    matcher does (alternatives left to right, greedy and lazy repetition). *)

From Stdlib Require Import Ascii String DecimalString DecimalNat DecimalFacts.
From Stdlib Require Decimal.
From Stdlib Require Import List NArith ZArith Zify Arith Lia Bool.
Import ListNotations.
Open Scope list_scope.

Set Implicit Arguments.

(** ** Code units and strings *)

Definition char := N.
Definition str := list char.

Definition js (s : string) : str :=
  List.map N_of_ascii (list_ascii_of_string s).

Definition ch (a : ascii) : char := N_of_ascii a.

Arguments js s%_string.
Arguments ch a%_char.

(** The double quote, and strings that hold it: [jsq] reads a backquote
    in its argument as a double quote. *)
Definition dq : ascii := ascii_of_N 34.

Definition jsq (s : string) : str :=
  List.map (fun c => if N.eqb c 96 then 34%N else c) (js s).

Arguments jsq s%_string.

Fixpoint str_eqb (a b : str) : bool :=
  match a, b with
  | [], [] => true
  | x :: a', y :: b' => N.eqb x y && str_eqb a' b'
  | _, _ => false
  end.

(** ** Character classes *)

Module Cls.

Definition eq (a : ascii) (c : char) : bool := N.eqb c (ch a).

Definition between (lo hi : ascii) (c : char) : bool :=
  N.leb (ch lo) c && N.leb c (ch hi).

Arguments eq a%_char c.
Arguments between (lo hi)%_char c.

Definition digit : char -> bool := between "0" "9".
Definition lower : char -> bool := between "a" "z".
Definition upper : char -> bool := between "A" "Z".
Definition alpha (c : char) : bool := lower c || upper c.

(** [\s]: WhiteSpace and LineTerminator code units of ECMAScript. *)
Definition space (c : char) : bool :=
  (N.leb 9 c && N.leb c 13) || N.eqb c 32 || N.eqb c 160 ||
  N.eqb c 5760 || (N.leb 8192 c && N.leb c 8202) ||
  N.eqb c 8232 || N.eqb c 8233 || N.eqb c 8239 || N.eqb c 8287 ||
  N.eqb c 12288 || N.eqb c 65279.

(** [[\s\S]] *)
Definition any (c : char) : bool := true.

Definition toUpper (c : char) : char :=
  if lower c then (c - 32)%N else c.

(** A pattern character under the [i] flag.  Canonicalize never maps a
    code unit above 127 to one below 128, so an ASCII pattern character
    matches its two cases only. *)
Definition ci (a : ascii) (c : char) : bool :=
  N.eqb (toUpper c) (toUpper (ch a)).

Arguments ci a%_char c.

Definition neg (p : char -> bool) (c : char) : bool := negb (p c).

(** The class of the two quote characters. *)
Definition quote (c : char) : bool := eq dq c || eq "'" c.

(** [[a-zA-Z0-9-]] *)
Definition nameChar (c : char) : bool := alpha c || digit c || eq "-" c.

End Cls.

(** ** Regular expressions *)

Inductive re : Type :=
| Eps
| Chr (p : char -> bool)
| Cat (a b : re)
| Alt (a b : re)
| Star (p : char -> bool)       (* greedy repetition of a class *)
| StarLazy (p : char -> bool)   (* lazy repetition of a class *)
| Grp (i : nat) (a : re).       (* capturing group number i *)

Definition caps := list (nat * str).

Fixpoint group (i : nat) (cs : caps) : str :=
  match cs with
  | [] => []
  | (j, v) :: cs' => if Nat.eqb i j then v else group i cs'
  end.

Definition Plus (p : char -> bool) : re := Cat (Chr p) (Star p).
Definition Opt (p : char -> bool) : re := Alt (Chr p) Eps.

Fixpoint lit (f : ascii -> char -> bool) (s : string) : re :=
  match s with
  | EmptyString => Eps
  | String a s' => Cat (Chr (f a)) (lit f s')
  end.

Arguments lit f s%_string.

(** A string spliced into a pattern compiled with the [i] flag. *)
Fixpoint litsCi (s : str) : re :=
  match s with
  | [] => Eps
  | c :: s' =>
      Cat (Chr (fun x => N.eqb (Cls.toUpper x) (Cls.toUpper c))) (litsCi s')
  end.

Fixpoint cat (rs : list re) : re :=
  match rs with
  | [] => Eps
  | r :: rs' => Cat r (cat rs')
  end.

Section Matcher.

Variable X : Type.

(** The continuation receives the rest of the input, the code units
    consumed so far (most recent first) and the captures. *)
Definition cont := str -> str -> caps -> option X.

Fixpoint star_greedy (p : char -> bool) (s acc : str) (cs : caps)
         (k : cont) : option X :=
  match s with
  | c :: s' =>
      if p c then
        match star_greedy p s' (c :: acc) cs k with
        | Some r => Some r
        | None => k s acc cs
        end
      else k s acc cs
  | [] => k s acc cs
  end.

Fixpoint star_lazy (p : char -> bool) (s acc : str) (cs : caps)
         (k : cont) : option X :=
  match k s acc cs with
  | Some r => Some r
  | None =>
      match s with
      | c :: s' => if p c then star_lazy p s' (c :: acc) cs k else None
      | [] => None
      end
  end.

Fixpoint rmatch (r : re) (s acc : str) (cs : caps) (k : cont) : option X :=
  match r with
  | Eps => k s acc cs
  | Chr p =>
      match s with
      | c :: s' => if p c then k s' (c :: acc) cs else None
      | [] => None
      end
  | Cat a b => rmatch a s acc cs (fun s' acc' cs' => rmatch b s' acc' cs' k)
  | Alt a b =>
      match rmatch a s acc cs k with
      | Some r => Some r
      | None => rmatch b s acc cs k
      end
  | Star p => star_greedy p s acc cs k
  | StarLazy p => star_lazy p s acc cs k
  | Grp i a =>
      rmatch a s acc cs
        (fun s' acc' cs' =>
           k s' acc'
             ((i, rev (firstn (length acc' - length acc) acc')) :: cs'))
  end.

End Matcher.

(** A match of [r] at the start of [s]: the matched text and the captures. *)
Definition exec (r : re) (s : str) : option (str * caps) :=
  rmatch r s [] [] (fun _ acc cs => Some (rev acc, cs)).

(** [RegExp.prototype.test]: a match at some position. *)
Fixpoint test (r : re) (s : str) : bool :=
  match exec r s with
  | Some _ => true
  | None =>
      match s with
      | [] => false
      | _ :: s' => test r s'
      end
  end.

(** ** String.prototype.replace and friends *)

(** A global scan cuts the input into the code units it keeps and the
    matches it found, in order.  RegExp.prototype[Symbol.replace] first
    collects all matches and then calls the replacer on each, in order. *)
Inductive piece : Type :=
| Keep (c : char)
| Hit (m : str) (cs : caps).

(** [skip] counts the code units of the last match still to be passed
    over; after an empty match the scan moves on by one code unit, as
    [lastIndex] does. *)
Fixpoint pieces (r : re) (s : str) (skip : nat) : list piece :=
  match s with
  | [] =>
      match skip with
      | O =>
          match exec r [] with
          | Some (m, cs) => [Hit m cs]
          | None => []
          end
      | S _ => []
      end
  | c :: s' =>
      match skip with
      | S n => pieces r s' n
      | O =>
          match exec r s with
          | Some (m, cs) =>
              match length m with
              | O => Hit m cs :: Keep c :: pieces r s' 0
              | S n => Hit m cs :: pieces r s' n
              end
          | None => Keep c :: pieces r s' 0
          end
      end
  end.

(** [s.replace(/r/g, template)] *)
Definition replace_all (r : re) (tpl : str -> caps -> str) (s : str) : str :=
  flat_map (fun p => match p with Keep c => [c] | Hit m cs => tpl m cs end)
           (pieces r s 0).

(** [s.replace(/r/g, function (match) { ... })] with a replacer that
    reads and updates a state. *)
Fixpoint replace_fn (St : Type) (f : St -> str -> caps -> str * St)
         (ps : list piece) (st : St) : str * St :=
  match ps with
  | [] => ([], st)
  | Keep c :: ps' => let (t, st') := replace_fn f ps' st in (c :: t, st')
  | Hit m cs :: ps' =>
      let (out, st1) := f st m cs in
      let (t, st2) := replace_fn f ps' st1 in (out ++ t, st2)
  end.

(** The loop [while ((m = re.exec(s)) !== null) out.push(m[1])]. *)
Definition exec_all (r : re) (s : str) : list str :=
  flat_map (fun p => match p with Keep _ => [] | Hit _ cs => [group 1 cs] end)
           (pieces r s 0).

(** [s.replace(/r/, template)]: the first match only. *)
Fixpoint replace_first (r : re) (tpl : str -> caps -> str) (s : str) : str :=
  match exec r s with
  | Some (m, cs) => tpl m cs ++ skipn (length m) s
  | None =>
      match s with
      | [] => []
      | c :: s' => c :: replace_first r tpl s'
      end
  end.

Fixpoint prefixb (p s : str) : bool :=
  match p, s with
  | [], _ => true
  | x :: p', y :: s' => N.eqb x y && prefixb p' s'
  | _ :: _, [] => false
  end.

(** [s.indexOf(p) !== -1] *)
Fixpoint contains (p s : str) : bool :=
  prefixb p s ||
  match s with
  | [] => false
  | _ :: s' => contains p s'
  end.

(** [s.split(sep).join(rep)] for a separator that is not empty. *)
Fixpoint split_join_go (sep rep s : str) (skip : nat) : str :=
  match s with
  | [] => []
  | c :: s' =>
      match skip with
      | S n => split_join_go sep rep s' n
      | O =>
          if prefixb sep s
          then rep ++ split_join_go sep rep s' (length sep - 1)
          else c :: split_join_go sep rep s' 0
      end
  end.

(** With the empty separator [split] cuts between all code units. *)
Fixpoint intersperse (rep s : str) : str :=
  match s with
  | [] => []
  | [c] => [c]
  | c :: s' => c :: rep ++ intersperse rep s'
  end.

Definition split_join (sep rep s : str) : str :=
  match sep with
  | [] => intersperse rep s
  | _ :: _ => split_join_go sep rep s 0
  end.

(** [s.replace(pattern, replacement)] with a string pattern: the first
    occurrence only, with the dollar patterns of GetSubstitution that
    apply when there are no captures. *)
Fixpoint substitute (tpl matched before after : str) : str :=
  match tpl with
  | [] => []
  | c :: t =>
      if N.eqb c 36 then
        match t with
        | [] => [c]
        | d :: t' =>
            if N.eqb d 36 then 36%N :: substitute t' matched before after
            else if N.eqb d 38 then matched ++ substitute t' matched before after
            else if N.eqb d 96 then before ++ substitute t' matched before after
            else if N.eqb d 39 then after ++ substitute t' matched before after
            else c :: substitute t matched before after
        end
      else c :: substitute t matched before after
  end.

Fixpoint replace_str_go (pat tpl before_rev s : str) : str :=
  if prefixb pat s then
    substitute tpl pat (rev before_rev) (skipn (length pat) s)
      ++ skipn (length pat) s
  else
    match s with
    | [] => []
    | c :: s' => c :: replace_str_go pat tpl (c :: before_rev) s'
    end.

Definition replace_str (pat tpl s : str) : str := replace_str_go pat tpl [] s.

(** Number to string, for an array index. *)
Definition numToString (n : nat) : str :=
  js (NilZero.string_of_uint (Nat.to_uint n)).

(** ** JavaScript values, as far as the guards of the two functions tell
    them apart *)

Inductive value : Type :=
| VUndefined
| VNull
| VBoolean (b : bool)
| VNumber (n : N)
| VObject
| VString (s : str).

(** [!v || typeof v !== 'string'] *)
Definition notNonEmptyString (v : value) : bool :=
  match v with
  | VString (_ :: _) => false
  | _ => true
  end.

(** ** Version 1.2.0 (the first module of src/hummm.js)

    In the comments that quote a pattern of the source, [d] stands for the
    double quote, [a] for the apostrophe and [q] for the class of both. *)

Module V120.

Definition xlinkUri : string := "http://www.w3.org/1999/xlink".

(** [/xmlns:ns(\d+)\s*=\s*[q]http:\/\/www\.w3\.org\/1999\/xlink[q]/gi];
    [hasIssue] uses the same pattern without the group. *)
Definition xlinkNsPattern : re :=
  cat [lit Cls.ci "xmlns:ns"; Grp 1 (Plus Cls.digit); Star Cls.space;
       Chr (Cls.ci "="); Star Cls.space; Chr Cls.quote;
       lit Cls.ci xlinkUri; Chr Cls.quote].

Definition hasIssue (svgString : value) : bool :=
  if notNonEmptyString svgString then false
  else
    match svgString with
    | VString s => test xlinkNsPattern s
    | _ => false
    end.

Definition placeholderPrefix : str := js "___BASE64_PLACEHOLDER_".
Definition placeholderSuffix : str := js "___".
Definition idRefPlaceholderPrefix : str := js "___IDREF_PLACEHOLDER_".
Definition idRefPlaceholderSuffix : str := js "___".

(** The replacer of the four protecting scans: the match is pushed on
    the array and the placeholder with its index is returned. *)
Definition protector (prefix suffix : str)
           (arr : list str) (m : str) (_ : caps) : str * list str :=
  (prefix ++ numToString (length arr) ++ suffix, arr ++ [m]).

(** [/d data:image\/[^;]+;base64,[\s\S]*? d/g] *)
Definition base64Dq : re :=
  cat [Chr (Cls.eq dq); lit Cls.eq "data:image/";
       Plus (Cls.neg (Cls.eq ";")); lit Cls.eq ";base64,";
       StarLazy Cls.any; Chr (Cls.eq dq)].

(** [/a data:image\/[^;]+;base64,[\s\S]*? a/g] *)
Definition base64Sq : re :=
  cat [Chr (Cls.eq "'"); lit Cls.eq "data:image/";
       Plus (Cls.neg (Cls.eq ";")); lit Cls.eq ";base64,";
       StarLazy Cls.any; Chr (Cls.eq "'")].

(** [[^)q]] *)
Definition notParenQuote (c : char) : bool :=
  negb (Cls.eq ")" c || Cls.quote c).

(** [/url\(\s*[q]?#[^)q]*[q]?\s*\)/gi] *)
Definition urlRef : re :=
  cat [lit Cls.ci "url("; Star Cls.space; Opt Cls.quote; Chr (Cls.ci "#");
       Star notParenQuote; Opt Cls.quote; Star Cls.space; Chr (Cls.ci ")")].

(** [/(xlink:href|ns\d+:href|href)\s*=\s*[q]#[^q]*[q]/gi] *)
Definition hrefRef : re :=
  cat [Grp 1 (Alt (lit Cls.ci "xlink:href")
               (Alt (cat [lit Cls.ci "ns"; Plus Cls.digit;
                          lit Cls.ci ":href"])
                    (lit Cls.ci "href")));
       Star Cls.space; Chr (Cls.ci "="); Star Cls.space; Chr Cls.quote;
       Chr (Cls.ci "#"); Star (Cls.neg Cls.quote); Chr Cls.quote].

(** [new RegExp(P, 'gi')] where [P] is [\s+ns], then [nsNum], then a
    colon, the group [[a-zA-Z][a-zA-Z0-9-]*], and [\s*=]. *)
Definition nsToXlinkPattern (nsNum : str) : re :=
  cat [Plus Cls.space; lit Cls.ci "ns"; litsCi nsNum; Chr (Cls.ci ":");
       Grp 1 (Cat (Chr Cls.alpha) (Star Cls.nameChar));
       Star Cls.space; Chr (Cls.ci "=")].

(** [new RegExp('xmlns:ns' + nsNum +
      '(\\s*=\\s*[q]http://www\\.w3\\.org/1999/xlink[q])', 'gi')] *)
Definition xmlnsPattern (nsNum : str) : re :=
  cat [lit Cls.ci "xmlns:ns"; litsCi nsNum;
       Grp 1 (cat [Star Cls.space; Chr (Cls.ci "="); Star Cls.space;
                   Chr Cls.quote; lit Cls.ci xlinkUri; Chr Cls.quote])].

(** [/<svg(G)>/i] where the group [G] is [[^>]*]. *)
Definition svgOpen : re :=
  cat [lit Cls.ci "<svg"; Grp 1 (Star (Cls.neg (Cls.eq ">")));
       Chr (Cls.ci ">")].

(** Steps 1 and 2 of [normalize]: the text with its protected spans
    replaced, and the two arrays. *)
Definition protectBase64 (s : str) : str * list str :=
  let (r1, a1) :=
    replace_fn (protector placeholderPrefix placeholderSuffix)
               (pieces base64Dq s 0) [] in
  replace_fn (protector placeholderPrefix placeholderSuffix)
             (pieces base64Sq r1 0) a1.

Definition protectIdRefs (s : str) : str * list str :=
  let (r1, a1) :=
    replace_fn (protector idRefPlaceholderPrefix idRefPlaceholderSuffix)
               (pieces urlRef s 0) [] in
  replace_fn (protector idRefPlaceholderPrefix idRefPlaceholderSuffix)
             (pieces hrefRef r1 0) a1.

(** The restoring loops: placeholder [n] is replaced by entry [n] of
    the array, for [n] from [n0] upwards. *)
Fixpoint restore (prefix suffix : str) (n : nat) (arr : list str)
         (result : str) : str :=
  match arr with
  | [] => result
  | m :: arr' =>
      restore prefix suffix (S n) arr'
              (split_join (prefix ++ numToString n ++ suffix) m result)
  end.

Definition restoreAll (idRefPlaceholders base64Placeholders : list str)
           (result : str) : str :=
  restore placeholderPrefix placeholderSuffix 0 base64Placeholders
    (restore idRefPlaceholderPrefix idRefPlaceholderSuffix 0
             idRefPlaceholders result).

(** Step 4: [' xlink:$1='] for each collected prefix. *)
Definition rewriteAttrs (xlinkNsPrefixes : list str) (result : str) : str :=
  fold_left
    (fun res nsNum =>
       replace_all (nsToXlinkPattern nsNum)
                   (fun _ cs => js " xlink:" ++ group 1 cs ++ js "=") res)
    xlinkNsPrefixes result.

(** Step 5: ['xmlns:xlink$1'] for each collected prefix. *)
Definition rewriteDecls (xlinkNsPrefixes : list str) (result : str) : str :=
  fold_left
    (fun res nsNum =>
       replace_all (xmlnsPattern nsNum)
                   (fun _ cs => js "xmlns:xlink" ++ group 1 cs) res)
    xlinkNsPrefixes result.

(** Step 6: the declaration is added to the first svg tag. *)
Definition ensureDecl (result : str) : str :=
  if contains (js "xlink:href") result
     && negb (contains (js "xmlns:xlink") result)
  then
    replace_first svgOpen
      (fun _ cs =>
         js "<svg" ++ group 1 cs ++ jsq " xmlns:xlink=`" ++ js xlinkUri
            ++ jsq "`>")
      result
  else result.

Definition normalizeStr (svgString : str) : str :=
  let (r1, base64Placeholders) := protectBase64 svgString in
  let (r2, idRefPlaceholders) := protectIdRefs r1 in
  let xlinkNsPrefixes := exec_all xlinkNsPattern r2 in
  match xlinkNsPrefixes with
  | [] => restoreAll idRefPlaceholders base64Placeholders r2
  | _ :: _ =>
      restoreAll idRefPlaceholders base64Placeholders
        (ensureDecl
           (rewriteDecls xlinkNsPrefixes
              (rewriteAttrs xlinkNsPrefixes r2)))
  end.

Definition normalize (svgString : value) : value :=
  if notNonEmptyString svgString then svgString
  else
    match svgString with
    | VString s => VString (normalizeStr s)
    | _ => svgString
    end.

End V120.

(** ** Version 1.1.0 (the second module of src/hummm.js) *)

Module V110.

Definition svgUri : string := "http://www.w3.org/2000/svg".

(** [/ns\d+:/i] *)
Definition anyNsPattern : re :=
  cat [lit Cls.ci "ns"; Plus Cls.digit; Chr (Cls.ci ":")].

Definition hasIssue (svgString : value) : bool :=
  if notNonEmptyString svgString then false
  else
    match svgString with
    | VString s => test anyNsPattern s
    | _ => false
    end.

(** [/d data:image\/[^;]+;base64,[^d]* d/g] *)
Definition base64Dq : re :=
  cat [Chr (Cls.eq dq); lit Cls.eq "data:image/";
       Plus (Cls.neg (Cls.eq ";")); lit Cls.eq ";base64,";
       Star (Cls.neg (Cls.eq dq)); Chr (Cls.eq dq)].

(** [/a data:image\/[^;]+;base64,[^a]* a/g] *)
Definition base64Sq : re :=
  cat [Chr (Cls.eq "'"); lit Cls.eq "data:image/";
       Plus (Cls.neg (Cls.eq ";")); lit Cls.eq ";base64,";
       Star (Cls.neg (Cls.eq "'")); Chr (Cls.eq "'")].

Definition protectBase64 (s : str) : str * list str :=
  let (r1, a1) :=
    replace_fn (V120.protector V120.placeholderPrefix V120.placeholderSuffix)
               (pieces base64Dq s 0) [] in
  replace_fn (V120.protector V120.placeholderPrefix V120.placeholderSuffix)
             (pieces base64Sq r1 0) a1.

(** [/\s*xmlns:ns\d+\s*=\s*[q][^q]*[q]/gi] *)
Definition xmlnsNsDecl : re :=
  cat [Star Cls.space; lit Cls.ci "xmlns:ns"; Plus Cls.digit;
       Star Cls.space; Chr (Cls.ci "="); Star Cls.space; Chr Cls.quote;
       Star (Cls.neg Cls.quote); Chr Cls.quote].

(** [/<(\/?)\s*ns\d+:/gi] *)
Definition nsTag : re :=
  cat [Chr (Cls.ci "<"); Grp 1 (Opt (Cls.ci "/")); Star Cls.space;
       lit Cls.ci "ns"; Plus Cls.digit; Chr (Cls.ci ":")].

(** [/\s+ns\d+:(G)\s*=/gi] where the group [G] is
    [[a-zA-Z][a-zA-Z0-9-]*]. *)
Definition nsAttr : re :=
  cat [Plus Cls.space; lit Cls.ci "ns"; Plus Cls.digit; Chr (Cls.ci ":");
       Grp 1 (Cat (Chr Cls.alpha) (Star Cls.nameChar));
       Star Cls.space; Chr (Cls.ci "=")].

(** [\s{2,}] *)
Definition spaces2 : re :=
  Cat (Chr Cls.space) (Cat (Chr Cls.space) (Star Cls.space)).

(** [/(<[^>]*?)\s{2,}([^>]*>)/g] *)
Definition tagSpaces : re :=
  cat [Grp 1 (Cat (Chr (Cls.eq "<")) (StarLazy (Cls.neg (Cls.eq ">"))));
       spaces2;
       Grp 2 (Cat (Star (Cls.neg (Cls.eq ">"))) (Chr (Cls.eq ">")))].

(** [/\s+>/g] and [/<\s+/g] *)
Definition spacesGt : re := Cat (Plus Cls.space) (Chr (Cls.eq ">")).
Definition ltSpaces : re := Cat (Chr (Cls.eq "<")) (Plus Cls.space).

(** Step 6: the default namespace is added to the first svg tag. *)
Definition ensureSvgNs (result : str) : str :=
  if negb (contains (jsq "xmlns=`" ++ js svgUri ++ jsq "`") result)
     && negb (contains (js "xmlns='" ++ js svgUri ++ js "'") result)
  then
    replace_first V120.svgOpen
      (fun _ cs =>
         js "<svg" ++ group 1 cs ++ jsq " xmlns=`" ++ js svgUri ++ jsq "`>")
      result
  else result.

(** Step 7 *)
Definition tidySpaces (result : str) : str :=
  let r1 :=
    replace_all tagSpaces
      (fun m _ => replace_all spaces2 (fun _ _ => js " ") m) result in
  let r2 := replace_all spacesGt (fun _ _ => js ">") r1 in
  replace_all ltSpaces (fun _ _ => js "<") r2.

(** Step 8: [result.replace(placeholder, base64Placeholders[i])]. *)
Fixpoint restore (n : nat) (arr : list str) (result : str) : str :=
  match arr with
  | [] => result
  | m :: arr' =>
      restore (S n) arr'
        (replace_str
           (V120.placeholderPrefix ++ numToString n
              ++ V120.placeholderSuffix) m result)
  end.

Definition normalizeStr (svgString : str) : str :=
  let (r0, base64Placeholders) := protectBase64 svgString in
  let xlinkNsPrefixes := exec_all V120.xlinkNsPattern r0 in
  let r1 := replace_all xmlnsNsDecl (fun _ _ => []) r0 in
  let r2 := replace_all nsTag (fun _ cs => js "<" ++ group 1 cs) r1 in
  let r3 := V120.rewriteAttrs xlinkNsPrefixes r2 in
  let r4 :=
    replace_all nsAttr (fun _ cs => js " " ++ group 1 cs ++ js "=") r3 in
  let r5 := V120.ensureDecl r4 in
  let r6 := ensureSvgNs r5 in
  let r7 := tidySpaces r6 in
  restore 0 base64Placeholders r7.

Definition normalize (svgString : value) : value :=
  if notNonEmptyString svgString then svgString
  else
    match svgString with
    | VString s => VString (normalizeStr s)
    | _ => svgString
    end.

End V110.

(** ** encodeURIComponent

    The abstract operation Encode of ECMAScript with the unescaped set of
    [encodeURIComponent]: a code unit of the set is copied; any other
    code point is written as the percent escapes of its UTF-8 octets; a
    surrogate that is not half of a pair throws a URIError ([None]). *)

Module Uri.

Local Open Scope N_scope.

(** uriMark: [- _ . ! ~ * ' ( )] *)
Definition mark (c : char) : bool := existsb (N.eqb c) (js "-_.!~*'()").

(** uriUnreserved: letters, digits and marks. *)
Definition unreserved (c : char) : bool :=
  Cls.alpha c || Cls.digit c || mark c.

Definition isLead (c : char) : bool := N.leb 55296 c && N.leb c 56319.
Definition isTrail (c : char) : bool := N.leb 56320 c && N.leb c 57343.

(** UTF16SurrogatePairToCodePoint *)
Definition codePoint (lead trail : char) : N :=
  (lead - 55296) * 1024 + (trail - 56320) + 65536.

(** The UTF-8 octets of a code point. *)
Definition utf8 (cp : N) : list N :=
  if N.ltb cp 128 then [cp]
  else if N.ltb cp 2048 then [192 + cp / 64; 128 + cp mod 64]
  else if N.ltb cp 65536 then
    [224 + cp / 4096; 128 + (cp / 64) mod 64; 128 + cp mod 64]
  else
    [240 + cp / 262144; 128 + (cp / 4096) mod 64;
     128 + (cp / 64) mod 64; 128 + cp mod 64].

(** An uppercase hexadecimal digit. *)
Definition hexDigit (n : N) : char :=
  if N.ltb n 10 then 48 + n else 55 + n.

(** The escape of an octet: a percent sign and two hexadecimal digits. *)
Definition percent (octet : N) : str :=
  [37; hexDigit (octet / 16); hexDigit (octet mod 16)].

Fixpoint encode (unescaped : char -> bool) (s : str) : option str :=
  match s with
  | [] => Some []
  | c :: s' =>
      if unescaped c then
        match encode unescaped s' with
        | Some r => Some (c :: r)
        | None => None
        end
      else if isTrail c then None
      else if isLead c then
        match s' with
        | d :: s'' =>
            if isTrail d then
              match encode unescaped s'' with
              | Some r => Some (flat_map percent (utf8 (codePoint c d)) ++ r)
              | None => None
              end
            else None
        | [] => None
        end
      else
        match encode unescaped s' with
        | Some r => Some (flat_map percent (utf8 c) ++ r)
        | None => None
        end
  end.

Definition encodeURIComponent (s : str) : option str := encode unreserved s.

End Uri.

(** ** toDataUrl (both modules)

    [normalize] returns a string on a string, the text [normalizeStr]
    computes; [toDataUrl] encodes it, replaces the apostrophes and the
    double quotes of the encoded text, and puts the media type in
    front.  [None] stands for the URIError of [encodeURIComponent]. *)

Section Converters.

Variable normalizeStr : str -> str.

Definition toDataUrl (svgString : str) : option str :=
  let normalized := normalizeStr svgString in
  match Uri.encodeURIComponent normalized with
  | None => None
  | Some e =>
      let encoded :=
        replace_all (Chr (Cls.eq dq)) (fun _ _ => js "%22")
          (replace_all (Chr (Cls.eq "'")) (fun _ _ => js "%27") e) in
      Some (js "data:image/svg+xml," ++ encoded)
  end.

End Converters.

Module V120x.
Definition toDataUrl : str -> option str := toDataUrl V120.normalizeStr.
End V120x.

Module V110x.
Definition toDataUrl : str -> option str := toDataUrl V110.normalizeStr.
End V110x.

(** * Specification-level definitions

    ** The language of a pattern *)

Inductive Lang : re -> str -> Prop :=
| LEps : Lang Eps []
| LChr p c : p c = true -> Lang (Chr p) [c]
| LCat a b u v : Lang a u -> Lang b v -> Lang (Cat a b) (u ++ v)
| LAltL a b u : Lang a u -> Lang (Alt a b) u
| LAltR a b u : Lang b u -> Lang (Alt a b) u
| LStar p u : forallb p u = true -> Lang (Star p) u
| LStarLazy p u : forallb p u = true -> Lang (StarLazy p) u
| LGrp i a u : Lang a u -> Lang (Grp i a) u.

#[export] Hint Constructors Lang : core.

(** The same with the captures of a match, the most recent first. *)
Inductive LangC : re -> str -> caps -> Prop :=
| CEps : LangC Eps [] []
| CChr p c : p c = true -> LangC (Chr p) [c] []
| CCat a b u v n1 n2 :
    LangC a u n1 -> LangC b v n2 -> LangC (Cat a b) (u ++ v) (n2 ++ n1)
| CAltL a b u n : LangC a u n -> LangC (Alt a b) u n
| CAltR a b u n : LangC b u n -> LangC (Alt a b) u n
| CStar p u : forallb p u = true -> LangC (Star p) u []
| CStarLazy p u : forallb p u = true -> LangC (StarLazy p) u []
| CGrp i a u n : LangC a u n -> LangC (Grp i a) u ((i, u) :: n).

#[export] Hint Constructors LangC : core.

(** Equality up to the case of ASCII letters. *)
Definition eq_ci (a b : str) : Prop :=
  List.map Cls.toUpper a = List.map Cls.toUpper b.

(** ** The shape the detector looks for

    [xmlns:ns], digits, optional white space, the equals sign, optional
    white space, a quote of either kind, the XLink URI, a quote of either
    kind; letters in either case. *)
Definition DeclShape (u : str) : Prop :=
  exists x ds w1 w2 q1 uri q2,
    u = x ++ ds ++ w1 ++ ch "=" :: w2 ++ q1 :: uri ++ [q2] /\
    eq_ci x (js "xmlns:ns") /\
    ds <> [] /\ forallb Cls.digit ds = true /\
    forallb Cls.space w1 = true /\ forallb Cls.space w2 = true /\
    Cls.quote q1 = true /\ eq_ci uri (js V120.xlinkUri) /\
    Cls.quote q2 = true.

Definition ContainsDecl (s : str) : Prop :=
  exists pre u post, s = pre ++ u ++ post /\ DeclShape u.

(** The shape as the specification words it: no white space, and the
    same quote on both sides of the URI. *)
Definition StrictDeclShape (u : str) : Prop :=
  exists x ds q uri,
    u = x ++ ds ++ ch "=" :: q :: uri ++ [q] /\
    eq_ci x (js "xmlns:ns") /\
    ds <> [] /\ forallb Cls.digit ds = true /\
    Cls.quote q = true /\ eq_ci uri (js V120.xlinkUri).

Definition ContainsStrictDecl (s : str) : Prop :=
  exists pre u post, s = pre ++ u ++ post /\ StrictDeclShape u.

(** A pattern for the strict shape, used to decide it. *)
Definition strictDeclPattern : re :=
  cat [lit Cls.ci "xmlns:ns"; Plus Cls.digit; Chr (Cls.ci "=");
       Alt (cat [Chr (Cls.eq dq); lit Cls.ci V120.xlinkUri; Chr (Cls.eq dq)])
           (cat [Chr (Cls.eq "'"); lit Cls.ci V120.xlinkUri;
                 Chr (Cls.eq "'")])].

(** ** What a pattern can match, read off its syntax *)

(** The pattern matches the empty string. *)
Fixpoint nullable (r : re) : bool :=
  match r with
  | Eps | Star _ | StarLazy _ => true
  | Chr _ => false
  | Cat a b => nullable a && nullable b
  | Alt a b => nullable a || nullable b
  | Grp _ a => nullable a
  end.

(** A match can start with [c]. *)
Fixpoint first (r : re) (c : char) : bool :=
  match r with
  | Eps => false
  | Chr p | Star p | StarLazy p => p c
  | Cat a b => first a c || (nullable a && first b c)
  | Alt a b => first a c || first b c
  | Grp _ a => first a c
  end.

(** A match can hold [c]. *)
Fixpoint accepts (r : re) (c : char) : bool :=
  match r with
  | Eps => false
  | Chr p | Star p | StarLazy p => p c
  | Cat a b | Alt a b => accepts a c || accepts b c
  | Grp _ a => accepts a c
  end.

(** ** Texts with placeholders

    The protecting scans leave a text made of code units of the document
    and of placeholders of the two pools. *)

Inductive pool : Type := Base64 | IdRef.

Definition pool_eqb (a b : pool) : bool :=
  match a, b with
  | Base64, Base64 | IdRef, IdRef => true
  | _, _ => false
  end.

Definition poolPrefix (q : pool) : str :=
  match q with
  | Base64 => V120.placeholderPrefix
  | IdRef => V120.idRefPlaceholderPrefix
  end.

Definition placeholder (q : pool) (n : nat) : str :=
  poolPrefix q ++ numToString n ++ js "___".

Inductive item : Type :=
| Lit (c : char)
| Ph (q : pool) (n : nat).

Definition render1 (i : item) : str :=
  match i with
  | Lit c => [c]
  | Ph q n => placeholder q n
  end.

Definition render (its : list item) : str := flat_map render1 its.

(** No underscore. *)
Definition nous (s : str) : bool := forallb (fun c => negb (N.eqb c 95)) s.

Definition lit_ok (i : item) : Prop :=
  match i with
  | Lit c => c <> 95%N
  | Ph _ _ => True
  end.

(** The number of code units before the first placeholder. *)
Fixpoint run (its : list item) : nat :=
  match its with
  | Lit _ :: its' => S (run its')
  | _ => O
  end.

Definition lits_ok (its : list item) : Prop := Forall lit_ok its.

(** No match of [r] starts inside a placeholder. *)
Definition inert (r : re) : Prop :=
  forall q n u c v t,
    placeholder q n = u ++ c :: v -> exec r (c :: v ++ t) = None.

Definition hit_nous (p : piece) : Prop :=
  match p with
  | Keep _ => True
  | Hit m _ => nous m = true
  end.

(** The code units placeholders are made of. *)
Definition phChar (c : char) : bool :=
  existsb (N.eqb c) (js "_0123456789ABCDEFHILOPRS").

(** Every H of the text is followed by an O. *)
Fixpoint hfollow (s : str) : bool :=
  match s with
  | [] => true
  | c :: s' =>
      (if N.eqb c 72
       then match s' with d :: _ => N.eqb d 79 | [] => false end
       else true) && hfollow s'
  end.

(** A scan of a text with placeholders, item by item. *)
Inductive ipiece : Type :=
| IKeep (i : item)
| IHit (m : str) (cs : caps).

Definition lower1 (x : ipiece) : list piece :=
  match x with
  | IKeep (Lit c) => [Keep c]
  | IKeep (Ph q n) => List.map Keep (placeholder q n)
  | IHit m cs => [Hit m cs]
  end.

Definition lift1 (x : ipiece) : list item :=
  match x with
  | IKeep i => [i]
  | IHit m _ => List.map Lit m
  end.

Definition hit1 (x : ipiece) : list str :=
  match x with
  | IKeep _ => []
  | IHit m _ => [m]
  end.

(** The text a protecting scan of pool [q] leaves, the next free index
    being [n]. *)
Fixpoint assign (q : pool) (n : nat) (ips : list ipiece) : list item :=
  match ips with
  | [] => []
  | IKeep i :: ips' => i :: assign q n ips'
  | IHit _ _ :: ips' => Ph q n :: assign q (S n) ips'
  end.

(** The text a rewriting scan leaves. *)
Definition rewrite1 (tpl : str -> caps -> str) (x : ipiece) : list item :=
  match x with
  | IKeep i => [i]
  | IHit m cs => List.map Lit (tpl m cs)
  end.

(** Placeholders [n], [n+1], ... of pool [q] replaced by the entries of
    [arr]. *)
Definition expandPool (q : pool) (n : nat) (arr : list str) (i : item)
  : list item :=
  match i with
  | Lit c => [i]
  | Ph q' k =>
      if pool_eqb q q' && Nat.leb n k && Nat.ltb k (n + length arr)
      then List.map Lit (nth (k - n) arr [])
      else [i]
  end.

Definition isPh (i : item) : bool :=
  match i with
  | Lit _ => false
  | Ph _ _ => true
  end.

(** The two arrays of [normalize], base64 first. *)
Definition arrays : Type := (list str * list str)%type.

Definition get (q : pool) (A : arrays) : list str :=
  match q with
  | Base64 => fst A
  | IdRef => snd A
  end.

Definition addTo (q : pool) (A : arrays) (hs : list str) : arrays :=
  match q with
  | Base64 => (fst A ++ hs, snd A)
  | IdRef => (fst A, snd A ++ hs)
  end.

(** The text with every placeholder replaced by its entry. *)
Definition expand1 (A : arrays) (i : item) : str :=
  match i with
  | Lit c => [c]
  | Ph q n => nth n (get q A) []
  end.

Definition expand (A : arrays) (its : list item) : str :=
  flat_map (expand1 A) its.

Definition bounded1 (A : arrays) (i : item) : Prop :=
  match i with
  | Lit _ => True
  | Ph q n => n < length (get q A)
  end.

(** Every placeholder of the text has an entry, and every entry has its
    placeholder in the text. *)
Definition bounded (A : arrays) (its : list item) : Prop :=
  Forall (bounded1 A) its.

Definition covered (A : arrays) (its : list item) : Prop :=
  forall q k, k < length (get q A) -> In (Ph q k) its.

Definition hit_text (p : piece) : list str :=
  match p with
  | Keep _ => []
  | Hit m _ => [m]
  end.

(** The state of [normalize] between two of its steps: the text [its]
    with the arrays [A] stands for the document [s]. *)
Record Inv (A : arrays) (its : list item) (s : str) : Prop := {
  inv_ok : lits_ok its;
  inv_bounded : bounded A its;
  inv_expand : expand A its = s;
  inv_covered : covered A its;
  inv_nous : forall q, forallb nous (get q A) = true
}.

(** [its'] has the placeholders of [its], and its code units hold no
    underscore. *)
Definition keeps (its its' : list item) : Prop :=
  lits_ok its' /\ forall i, isPh i = true -> (In i its <-> In i its').

(** ** Occurrences of a token *)

(** The number of positions of [s] at which [t] starts. *)
Fixpoint count (t s : str) : nat :=
  (if prefixb t s then 1 else 0) +
  match s with
  | [] => 0
  | _ :: s' => count t s'
  end.

(** The token [ns<digits>:] of a numeric prefix. *)
Definition nsToken (N : str) : str := js "ns" ++ N ++ js ":".

(** A stretch of text that no occurrence of [t] overlaps, wherever it
    stands: its first and last code units are not in [t], and [t] does
    not occur between them. *)
Definition quiet (t x : str) : Prop :=
  exists c1 x' c2,
    x = c1 :: x' ++ [c2] /\ ~ In c1 t /\ ~ In c2 t /\ count t x' = 0.

(** The two texts stand for documents with equally many [t]. *)
Definition same_count (t : str) (its its' : list item) : Prop :=
  forall A u, count t (u ++ expand A its) = count t (u ++ expand A its').

(** ** Documents on which protecting and restoring are inverse

    The spans the four scans record, and the documents that hold no
    underscore and whose recorded spans hold none (so that no span holds a
    placeholder and no text of the document reads as one). *)
Definition protectedSpans (s : str) : list str :=
  snd (V120.protectBase64 s)
    ++ snd (V120.protectIdRefs (fst (V120.protectBase64 s))).

Definition clean (s : str) : bool :=
  nous s && forallb nous (protectedSpans s).

(** The digit groups step 3 of [normalize] collects. *)
Definition collectedPrefixes (s : str) : list str :=
  exec_all V120.xlinkNsPattern
           (fst (V120.protectIdRefs (fst (V120.protectBase64 s)))).

(** ** The prefixed names the detector of version 1.1.0 looks for

    [ns], digits, a colon; letters in either case. *)
Definition NsTokenShape (u : str) : Prop :=
  exists x ds,
    u = x ++ ds ++ [ch ":"] /\ eq_ci x (js "ns") /\
    ds <> [] /\ forallb Cls.digit ds = true.

Definition ContainsNsToken (s : str) : Prop :=
  exists pre u post, s = pre ++ u ++ post /\ NsTokenShape u.

(** ** Code units, surrogates and the characters of a URL *)

(** A string of 16-bit code units. *)
Definition codeUnits (s : str) : bool := forallb (fun c => N.ltb c 65536) s.

Definition surrogate (c : char) : bool := Uri.isLead c || Uri.isTrail c.

(** No surrogate in the text. *)
Definition plain (s : str) : bool := forallb (fun c => negb (surrogate c)) s.

(** String.prototype.isWellFormed: every surrogate is half of a pair. *)
Fixpoint wellFormed (s : str) : bool :=
  match s with
  | [] => true
  | c :: s' =>
      if Uri.isLead c then
        match s' with
        | d :: s'' => Uri.isTrail d && wellFormed s''
        | [] => false
        end
      else negb (Uri.isTrail c) && wellFormed s'
  end.

(** The unescaped set of [encodeURIComponent] without the apostrophe. *)
Definition unreservedNoApos (c : char) : bool :=
  Uri.unreserved c && negb (Cls.eq "'" c).

(** Letters, digits, the marks other than the apostrophe, and the percent
    sign. *)
Definition urlSafe (c : char) : bool :=
  Cls.alpha c || Cls.digit c || existsb (N.eqb c) (js "-_.!~*()%").

(** The two texts stand for documents that are both well formed or both
    not. *)
Definition same_wf (its its' : list item) : Prop :=
  forall A u,
    wellFormed (u ++ expand A its) = wellFormed (u ++ expand A its').

(** ** The code units the two transforms write

    The literal texts of the two [normalize] functions: the placeholder
    prefixes and suffix, the digits of an index, and the replacement
    texts of the rewriting steps. *)
Definition emitted : str :=
  V120.placeholderPrefix ++ V120.idRefPlaceholderPrefix
    ++ V120.placeholderSuffix ++ js "0123456789"
    ++ js " xlink:" ++ js "=" ++ js "xmlns:xlink" ++ js "<svg"
    ++ jsq " xmlns:xlink=`" ++ js V120.xlinkUri ++ jsq "`>"
    ++ jsq " xmlns=`" ++ js V110.svgUri ++ jsq "`>"
    ++ js "<" ++ js " " ++ js ">".

(** The captures of a match hold code units of [P] only. *)
Definition caps_in (P : char -> bool) (cs : caps) : Prop :=
  Forall (fun iv => forallb P (snd iv) = true) cs.

Definition piece_in (P : char -> bool) (p : piece) : Prop :=
  match p with
  | Keep c => P c = true
  | Hit m cs => forallb P m = true /\ caps_in P cs
  end.

(** ** The code units the rewriting steps leave alone

    Everything but white space, ASCII letters and digits, the hyphen and
    the characters [: = . /] and the two quotes. *)
Definition stable (c : char) : bool :=
  negb (Cls.space c) && negb (Cls.nameChar c)
  && negb (existsb (N.eqb c) (jsq ":=`'./")).

(** ** The stages of [normalize] (version 1.2.0)

    The text the protecting scans leave, the text after step 5, and the
    text the restoring loops receive (the protected text after the early
    exit, the text after step 6 otherwise). *)
Definition protectedText (s : str) : str :=
  fst (V120.protectIdRefs (fst (V120.protectBase64 s))).

Definition rewrittenText (s : str) : str :=
  V120.rewriteDecls (collectedPrefixes s)
    (V120.rewriteAttrs (collectedPrefixes s) (protectedText s)).

Definition rewriteStage (s : str) : str :=
  match collectedPrefixes s with
  | [] => protectedText s
  | _ :: _ => V120.ensureDecl (rewrittenText s)
  end.


(** ** A part of a text that a scan cannot touch

    No match of [r] starts inside [w], whatever follows [w]; and a match
    of [r] that starts before [w] ends before [w]. *)
Definition no_start (r : re) (w : str) : Prop :=
  forall t x c v, w = x ++ c :: v -> exec r (c :: v ++ t) = None.

Definition no_entry (r : re) (w : str) : Prop :=
  forall c a b m cs,
    exec r (c :: a ++ w ++ b) = Some (m, cs) -> length m <= S (length a).

(** Every x of the text is followed by an l (letters in either case). *)
Fixpoint xfollow (s : str) : bool :=
  match s with
  | [] => true
  | c :: s' =>
      (if N.eqb (Cls.toUpper c) 88
       then match s' with d :: _ => N.eqb (Cls.toUpper d) 76 | [] => false end
       else true) && xfollow s'
  end.

(** * Properties *)

(** ** The matcher against the language of its pattern *)

Lemma LangC_Lang r u n : LangC r u n -> Lang r u.
Proof. induction 1; eauto. Qed.

Section MatcherFacts.

Variable X : Type.
Implicit Types k : cont X.

Lemma star_greedy_sound p : forall s acc cs k x,
  star_greedy p s acc cs k = Some x ->
  exists u s', s = u ++ s' /\ forallb p u = true /\
               k s' (rev u ++ acc) cs = Some x.
Proof.
  induction s as [| c s IH]; intros acc cs k x H; simpl in H.
  - exists [], []. auto.
  - destruct (p c) eqn:Hp.
    + destruct (star_greedy p s (c :: acc) cs k) eqn:E.
      * inversion H; subst. apply IH in E. destruct E as (u & s' & -> & Hu & Hk).
        exists (c :: u), s'. simpl. rewrite Hp, Hu. repeat split.
        now rewrite <- app_assoc.
      * exists [], (c :: s). auto.
    + exists [], (c :: s). auto.
Qed.

Lemma star_lazy_sound p : forall s acc cs k x,
  star_lazy p s acc cs k = Some x ->
  exists u s', s = u ++ s' /\ forallb p u = true /\
               k s' (rev u ++ acc) cs = Some x.
Proof.
  induction s as [| c s IH]; intros acc cs k x H; simpl in H.
  - destruct (k [] acc cs) eqn:E; [| discriminate].
    exists [], []. inversion H; subst. auto.
  - destruct (k (c :: s) acc cs) eqn:E.
    + inversion H; subst. exists [], (c :: s). auto.
    + destruct (p c) eqn:Hp; [| discriminate].
      apply IH in H. destruct H as (u & s' & -> & Hu & Hk).
      exists (c :: u), s'. simpl. rewrite Hp, Hu. repeat split.
      now rewrite <- app_assoc.
Qed.

Lemma rmatch_sound r : forall s acc cs (k : cont X) x,
  rmatch r s acc cs k = Some x ->
  exists u s' new, s = u ++ s' /\ LangC r u new /\
                   k s' (rev u ++ acc) (new ++ cs) = Some x.
Proof.
  induction r as [| p | a IHa b IHb | a IHa b IHb | p | p | i a IHa];
    intros s acc cs k x H; simpl in H.
  - exists [], s, []. repeat split; auto.
  - destruct s as [| c s]; [discriminate |].
    destruct (p c) eqn:Hp; [| discriminate].
    exists [c], s, []. repeat split; auto.
  - apply IHa in H. destruct H as (u & s1 & n1 & -> & Lu & H).
    apply IHb in H. destruct H as (v & s2 & n2 & -> & Lv & H).
    exists (u ++ v), s2, (n2 ++ n1). repeat split; auto.
    + now rewrite app_assoc.
    + now rewrite rev_app_distr, <- !app_assoc.
  - destruct (rmatch a s acc cs k) eqn:E.
    + inversion H; subst. apply IHa in E.
      destruct E as (u & s' & n & ? & ? & ?). exists u, s', n. auto.
    + apply IHb in H.
      destruct H as (u & s' & n & ? & ? & ?). exists u, s', n. auto.
  - apply star_greedy_sound in H. destruct H as (u & s' & ? & ? & ?).
    exists u, s', []. repeat split; auto.
  - apply star_lazy_sound in H. destruct H as (u & s' & ? & ? & ?).
    exists u, s', []. repeat split; auto.
  - apply IHa in H. destruct H as (u & s' & n & -> & Lu & H).
    exists u, s', ((i, u) :: n). repeat split; auto.
    rewrite <- H. simpl. repeat f_equal.
    rewrite length_app, length_rev.
    replace (length u + length acc - length acc) with (length (rev u))
      by (rewrite length_rev; lia).
    now rewrite firstn_app, Nat.sub_diag, firstn_all, firstn_O,
      app_nil_r, rev_involutive.
Qed.

Lemma star_greedy_fallback p s acc cs k :
  k s acc cs <> None -> star_greedy p s acc cs k <> None.
Proof.
  intros H. destruct s as [| c s]; simpl; auto.
  destruct (p c); auto.
  destruct (star_greedy p s (c :: acc) cs k); auto. discriminate.
Qed.

Lemma star_greedy_complete p : forall u s' acc cs k,
  forallb p u = true ->
  k s' (rev u ++ acc) cs <> None ->
  star_greedy p (u ++ s') acc cs k <> None.
Proof.
  induction u as [| c u IH]; intros s' acc cs k Hu Hk; simpl in *.
  - now apply star_greedy_fallback.
  - apply andb_true_iff in Hu. destruct Hu as [Hc Hu]. rewrite Hc.
    rewrite <- app_assoc in Hk. specialize (IH s' (c :: acc) cs k Hu Hk).
    destruct (star_greedy p (u ++ s') (c :: acc) cs k);
      [discriminate | contradiction].
Qed.

Lemma star_lazy_complete p : forall u s' acc cs k,
  forallb p u = true ->
  k s' (rev u ++ acc) cs <> None ->
  star_lazy p (u ++ s') acc cs k <> None.
Proof.
  induction u as [| c u IH]; intros s' acc cs k Hu Hk; simpl in *.
  - destruct s'; simpl; destruct (k _ acc cs); try discriminate;
      contradiction.
  - apply andb_true_iff in Hu. destruct Hu as [Hc Hu]. rewrite Hc.
    rewrite <- app_assoc in Hk.
    destruct (k (c :: u ++ s') acc cs); [discriminate |].
    now apply IH.
Qed.

Lemma rmatch_complete r u : Lang r u ->
  forall s' acc cs (k : cont X),
    (forall cs', k s' (rev u ++ acc) cs' <> None) ->
    rmatch r (u ++ s') acc cs k <> None.
Proof.
  induction 1 as [| p c Hp | a b u v _ IHa _ IHb | a b u _ IHa
                  | a b u _ IHb | p u Hu | p u Hu | i a u _ IHa];
    intros s' acc cs k Hk; simpl.
  - apply Hk.
  - rewrite Hp. apply Hk.
  - rewrite <- app_assoc. apply IHa. intros cs'. apply IHb.
    intros cs''. rewrite app_assoc, <- rev_app_distr. apply Hk.
  - specialize (IHa s' acc cs k Hk).
    destruct (rmatch a (u ++ s') acc cs k); [discriminate | contradiction].
  - destruct (rmatch a (u ++ s') acc cs k); [discriminate |].
    now apply IHb.
  - apply star_greedy_complete; auto.
  - apply star_lazy_complete; auto.
  - apply IHa. intros cs'. apply Hk.
Qed.

End MatcherFacts.

Lemma exec_sound r s m cs :
  exec r s = Some (m, cs) ->
  exists rest, s = m ++ rest /\ Lang r m /\ LangC r m cs.
Proof.
  unfold exec. intros H. apply rmatch_sound in H.
  destruct H as (u & s' & n & -> & L & H).
  rewrite !app_nil_r, rev_involutive in H. inversion H; subst.
  eauto using LangC_Lang.
Qed.

Lemma exec_complete r u rest : Lang r u -> exec r (u ++ rest) <> None.
Proof.
  intros L. unfold exec. apply rmatch_complete; auto. discriminate.
Qed.

Lemma test_true r s :
  test r s = true <-> exists pre u post, s = pre ++ u ++ post /\ Lang r u.
Proof.
  split.
  - induction s as [| c s IH]; simpl.
    + destruct (exec r []) as [[m cs] |] eqn:E; [| discriminate].
      intros _. apply exec_sound in E. destruct E as (rest & -> & L & _).
      exists [], m, rest. auto.
    + destruct (exec r (c :: s)) as [[m cs] |] eqn:E.
      * intros _. apply exec_sound in E. destruct E as (rest & E & L & _).
        exists [], m, rest. auto.
      * intros H. apply IH in H. destruct H as (pre & u & post & -> & L).
        exists (c :: pre), u, post. auto.
  - intros (pre & u & post & -> & L).
    induction pre as [| c pre IH]; simpl.
    + pose proof (exec_complete post L) as H.
      destruct (u ++ post); simpl; destruct (exec r _); congruence.
    + destruct (exec r (c :: pre ++ u ++ post)); auto.
Qed.
(** ** Inversion of the language *)

Lemma Lang_Eps u : Lang Eps u <-> u = [].
Proof. split; [now inversion 1 | intros ->; constructor]. Qed.

Lemma Lang_Chr p u : Lang (Chr p) u <-> exists c, u = [c] /\ p c = true.
Proof.
  split; [inversion 1; eauto | intros (c & -> & H); now constructor].
Qed.

Lemma Lang_Cat a b u :
  Lang (Cat a b) u <-> exists u1 u2, u = u1 ++ u2 /\ Lang a u1 /\ Lang b u2.
Proof.
  split; [inversion 1; eauto | intros (u1 & u2 & -> & ? & ?); now constructor].
Qed.

Lemma Lang_Alt a b u : Lang (Alt a b) u <-> Lang a u \/ Lang b u.
Proof.
  split; [inversion 1; auto | intros [H | H]; [apply LAltL | apply LAltR]; auto].
Qed.

Lemma Lang_Star p u : Lang (Star p) u <-> forallb p u = true.
Proof. split; [now inversion 1 | now constructor]. Qed.

Lemma Lang_StarLazy p u : Lang (StarLazy p) u <-> forallb p u = true.
Proof. split; [now inversion 1 | now constructor]. Qed.

Lemma Lang_Grp i a u : Lang (Grp i a) u <-> Lang a u.
Proof. split; [now inversion 1 | now constructor]. Qed.

Lemma Lang_Plus p u : Lang (Plus p) u <-> u <> [] /\ forallb p u = true.
Proof.
  unfold Plus. rewrite Lang_Cat. split.
  - intros (u1 & u2 & -> & H1 & H2). apply Lang_Chr in H1.
    destruct H1 as (c & -> & Hc). apply Lang_Star in H2. simpl.
    rewrite Hc, H2. split; [discriminate | reflexivity].
  - intros [Hne Hall]. destruct u as [| c u]; [contradiction |].
    simpl in Hall. apply andb_true_iff in Hall. destruct Hall as [Hc Hu].
    exists [c], u. repeat split; [apply Lang_Chr; eauto | now apply Lang_Star].
Qed.

Lemma Lang_Opt p u :
  Lang (Opt p) u <-> u = [] \/ exists c, u = [c] /\ p c = true.
Proof.
  unfold Opt. rewrite Lang_Alt, Lang_Chr, Lang_Eps. tauto.
Qed.

Lemma Lang_cat_nil u : Lang (cat []) u <-> u = [].
Proof. apply Lang_Eps. Qed.

Lemma Lang_cat_cons r rs u :
  Lang (cat (r :: rs)) u <->
  exists u1 u2, u = u1 ++ u2 /\ Lang r u1 /\ Lang (cat rs) u2.
Proof. apply Lang_Cat. Qed.

Lemma Lang_lit_ci w : forall u, Lang (lit Cls.ci w) u <-> eq_ci u (js w).
Proof.
  unfold eq_ci. induction w as [| a w IH]; intros u; simpl.
  - rewrite Lang_Eps. split; [intros ->; reflexivity |].
    destruct u; [reflexivity | discriminate].
  - rewrite Lang_Cat. split.
    + intros (u1 & u2 & -> & H1 & H2). apply Lang_Chr in H1.
      destruct H1 as (c & -> & Hc). apply IH in H2. simpl.
      unfold Cls.ci in Hc. apply N.eqb_eq in Hc. unfold js in H2.
      now rewrite Hc, H2.
    + destruct u as [| c u]; [discriminate |]. simpl. intros H.
      inversion H as [[Hc Hu]]. exists [c], u. repeat split.
      * apply Lang_Chr. exists c. split; auto. unfold Cls.ci.
        now apply N.eqb_eq.
      * now apply IH.
Qed.

(** ** Arithmetic of the character classes *)

Create HintDb cls_db.
#[export] Hint Unfold Cls.quote Cls.nameChar Cls.alpha Cls.digit Cls.lower
  Cls.upper Cls.ci Cls.eq Cls.neg Cls.any Cls.between Cls.toUpper Cls.space
  V120.notParenQuote ch dq : cls_db.

Ltac cls_unfold :=
  repeat autounfold with cls_db in *;
  repeat match goal with
    | |- context [N_of_ascii ?a] =>
        let v := eval vm_compute in (N_of_ascii a) in
        change (N_of_ascii a) with v
    | H : context [N_of_ascii ?a] |- _ =>
        let v := eval vm_compute in (N_of_ascii a) in
        change (N_of_ascii a) with v in H
    end.

Ltac cls_cases :=
  repeat match goal with
    | |- context [N.leb ?a ?b] => destruct (N.leb_spec0 a b)
    | |- context [N.eqb ?a ?b] => destruct (N.eqb_spec a b)
    | H : context [N.leb ?a ?b] |- _ => destruct (N.leb_spec0 a b)
    | H : context [N.eqb ?a ?b] |- _ => destruct (N.eqb_spec a b)
    end.

Ltac cls :=
  intros; cls_unfold; cls_cases; simpl in *; intros;
  try discriminate; try lia; try congruence.

Lemma ci_eq_sign c : Cls.ci "=" c = true -> c = ch "=".
Proof. cls. Qed.

Lemma ci_eq_sign_refl : Cls.ci "=" (ch "=") = true.
Proof. reflexivity. Qed.

(** ** The detector's pattern and the shape it stands for *)

Lemma xlinkNsPattern_shape u : Lang V120.xlinkNsPattern u <-> DeclShape u.
Proof.
  unfold V120.xlinkNsPattern, DeclShape.
  repeat setoid_rewrite Lang_cat_cons. setoid_rewrite Lang_cat_nil.
  setoid_rewrite Lang_Grp. setoid_rewrite Lang_Plus.
  repeat setoid_rewrite Lang_Star. repeat setoid_rewrite Lang_Chr.
  repeat setoid_rewrite Lang_lit_ci.
  split.
  - intros (x & ? & -> & Hx & ds & ? & -> & [Hd1 Hd2] & w1 & ? & -> & Hw1 &
            ? & ? & -> & (e & -> & He) & w2 & ? & -> & Hw2 &
            ? & ? & -> & (q1 & -> & Hq1) & uri & ? & -> & Huri &
            ? & ? & -> & (q2 & -> & Hq2) & ->).
    apply ci_eq_sign in He. subst e.
    exists x, ds, w1, w2, q1, uri, q2. simpl. repeat split; auto.
  - intros (x & ds & w1 & w2 & q1 & uri & q2 & -> & Hx & Hd1 & Hd2 & Hw1 &
            Hw2 & Hq1 & Huri & Hq2).
    exists x, (ds ++ w1 ++ ch "=" :: w2 ++ q1 :: uri ++ [q2]).
    repeat split; auto.
    exists ds, (w1 ++ ch "=" :: w2 ++ q1 :: uri ++ [q2]). repeat split; auto.
    exists w1, (ch "=" :: w2 ++ q1 :: uri ++ [q2]). repeat split; auto.
    exists [ch "="], (w2 ++ q1 :: uri ++ [q2]). repeat split; eauto.
    exists w2, (q1 :: uri ++ [q2]). repeat split; auto.
    exists [q1], (uri ++ [q2]). repeat split; eauto.
    exists uri, [q2]. repeat split; auto.
    exists [q2], []. repeat split; eauto.
Qed.

Lemma strictDeclPattern_shape u :
  StrictDeclShape u -> Lang strictDeclPattern u.
Proof.
  unfold strictDeclPattern, StrictDeclShape.
  intros (x & ds & q & uri & -> & Hx & Hd1 & Hd2 & Hq & Huri).
  apply Lang_cat_cons. exists x, (ds ++ ch "=" :: q :: uri ++ [q]).
  repeat split; [now apply Lang_lit_ci |].
  apply Lang_cat_cons. exists ds, (ch "=" :: q :: uri ++ [q]).
  repeat split; [now apply Lang_Plus |].
  apply Lang_cat_cons. exists [ch "="], (q :: uri ++ [q]).
  repeat split; [apply Lang_Chr; eauto |].
  apply Lang_cat_cons. exists (q :: uri ++ [q]), [].
  repeat split; [now rewrite app_nil_r | | now apply Lang_cat_nil].
  assert (Hcat : forall c, Lang (cat [Chr (Cls.eq c); lit Cls.ci V120.xlinkUri;
                                     Chr (Cls.eq c)]) (ch c :: uri ++ [ch c])).
  { intros c. apply Lang_cat_cons. exists [ch c], (uri ++ [ch c]).
    repeat split; [apply Lang_Chr; exists (ch c); split; auto; apply N.eqb_refl |].
    apply Lang_cat_cons. exists uri, [ch c].
    repeat split; [now apply Lang_lit_ci |].
    apply Lang_cat_cons. exists [ch c], [].
    repeat split; [apply Lang_Chr; exists (ch c); split; auto; apply N.eqb_refl |].
    now apply Lang_cat_nil. }
  apply Lang_Alt. unfold Cls.quote in Hq. apply orb_true_iff in Hq.
  destruct Hq as [Hq | Hq]; apply N.eqb_eq in Hq; subst q; [left | right];
    apply Hcat.
Qed.

(** ** The detector *)

Lemma hasIssue_test s :
  V120.hasIssue (VString s) = test V120.xlinkNsPattern s.
Proof. destruct s; reflexivity. Qed.

(** C5, as amended.  [hasIssue] answers true exactly on the strings that
    contain the declaration shape [xmlns:ns], digits, optional white
    space, [=], optional white space, a quote, the XLink URI, a quote
    (the two quotes of either kind, letters in either case); on a value
    that is not a string, and on the empty string, it answers false. *)
Theorem hasIssue_iff_contains_decl :
  (forall v, V120.hasIssue v = true <->
             exists s, v = VString s /\ ContainsDecl s) /\
  (forall v, notNonEmptyString v = true -> V120.hasIssue v = false).
Proof.
  split.
  - intros v. split.
    + destruct v as [| | b | n | | s]; try discriminate.
      rewrite hasIssue_test, test_true.
      intros (pre & u & post & -> & L). exists (pre ++ u ++ post).
      split; auto. exists pre, u, post. split; auto.
      now apply xlinkNsPattern_shape.
    + intros (s & -> & pre & u & post & -> & D).
      rewrite hasIssue_test, test_true. exists pre, u, post. split; auto.
      now apply xlinkNsPattern_shape.
  - intros v H. unfold V120.hasIssue. now rewrite H.
Qed.

Lemma hasIssue_iff_contains_decl_witness :
  ContainsDecl (jsq "<a xmlns:NS12 = 'HTTP://www.w3.org/1999/xlink`/>") /\
  V120.hasIssue VNull = false.
Proof.
  split.
  - destruct (proj1 (proj1 hasIssue_iff_contains_decl
       (VString (jsq "<a xmlns:NS12 = 'HTTP://www.w3.org/1999/xlink`/>")))
       eq_refl) as (s & E & H).
    inversion E; subst. exact H.
  - apply (proj2 hasIssue_iff_contains_decl). reflexivity.
Defined.

(** C5, as stated, fails: a declaration with white space around the
    equals sign, whose URI opens with an apostrophe and closes with a
    double quote, is not of the shape the claim gives, and [hasIssue]
    answers true on it. *)
Lemma hasIssue_strict_shape_counterexample :
  V120.hasIssue
    (VString (jsq "<a xmlns:ns1 = 'http://www.w3.org/1999/xlink`/>")) = true /\
  ~ ContainsStrictDecl (jsq "<a xmlns:ns1 = 'http://www.w3.org/1999/xlink`/>").
Proof.
  split; [reflexivity |].
  intros (pre & u & post & E & S). apply strictDeclPattern_shape in S.
  assert (T : test strictDeclPattern
                (jsq "<a xmlns:ns1 = 'http://www.w3.org/1999/xlink`/>") = true).
  { apply test_true. eauto. }
  vm_compute in T. discriminate.
Qed.

(** ** The transform on given documents *)

(** C2.  On the document of the claim the output holds the rewritten
    attribute and the rewritten declaration, and no [ns1:]. *)
Theorem prefix_rewrite_example :
  exists out,
    V120.normalize
      (VString (jsq "<image xmlns:ns1=`http://www.w3.org/1999/xlink` ns1:href=`data:image/png;base64,AAAA`/>"))
      = VString out /\
    contains (jsq "xlink:href=`data:image/png;base64,AAAA`") out = true /\
    contains (jsq "xmlns:xlink=`http://www.w3.org/1999/xlink`") out = true /\
    contains (js "ns1:") out = false /\
    out = jsq "<image xmlns:xlink=`http://www.w3.org/1999/xlink` xlink:href=`data:image/png;base64,AAAA`/>".
Proof. eexists. repeat split; vm_compute; reflexivity. Qed.

(** C10.  The two versions differ on a document whose numeric prefix is
    bound to another namespace: version 1.2.0 returns it as it is, version
    1.1.0 removes the declaration and the prefix of the attribute. *)
Theorem variants_disagree :
  exists s,
    V120.normalize (VString s) <> V110.normalize (VString s) /\
    V120.normalize (VString s) = VString s /\
    contains (js " ns2:foo=") s = true /\
    V110.normalize (VString s)
      = VString (jsq "<svg xmlns=`http://www.w3.org/2000/svg`><g foo=`1`/></svg>").
Proof.
  exists (jsq "<svg xmlns=`http://www.w3.org/2000/svg` xmlns:ns2=`urn:a`><g ns2:foo=`1`/></svg>").
  repeat split; vm_compute; try reflexivity. discriminate.
Qed.

(** ** What a match can be, from the syntax of the pattern *)

Lemma Lang_nullable r u : Lang r u -> u = [] -> nullable r = true.
Proof.
  induction 1 as [| p c Hp | a b u v _ IHa _ IHb | a b u _ IHa
                  | a b u _ IHb | p u Hu | p u Hu | i a u _ IHa];
    intros E; simpl; auto.
  - discriminate.
  - apply app_eq_nil in E. destruct E. now rewrite IHa, IHb.
  - now rewrite IHa.
  - rewrite IHb; auto. now rewrite orb_true_r.
Qed.

Lemma Lang_nonempty r u : nullable r = false -> Lang r u -> u <> [].
Proof.
  intros N L E. apply (Lang_nullable L) in E. congruence.
Qed.

Lemma Lang_first r u : Lang r u -> forall c v, u = c :: v -> first r c = true.
Proof.
  induction 1 as [| p c0 Hp | a b u v La IHa Lb IHb | a b u _ IHa
                  | a b u _ IHb | p u Hu | p u Hu | i a u _ IHa];
    intros c w E; simpl.
  - discriminate.
  - now inversion E; subst.
  - destruct u as [| c1 u].
    + simpl in E. rewrite (IHb _ _ E).
      assert (N : nullable a = true).
      { eapply Lang_nullable; [eassumption | reflexivity]. }
      rewrite N. apply orb_true_r.
    + inversion E; subst. now rewrite (IHa _ _ eq_refl).
  - now rewrite (IHa _ _ E).
  - rewrite (IHb _ _ E). apply orb_true_r.
  - subst. simpl in Hu. now apply andb_true_iff in Hu.
  - subst. simpl in Hu. now apply andb_true_iff in Hu.
  - eauto.
Qed.

Lemma Lang_accepts r u : Lang r u -> forallb (accepts r) u = true.
Proof.
  induction 1 as [| p c0 Hp | a b u v _ IHa _ IHb | a b u _ IHa
                  | a b u _ IHb | p u Hu | p u Hu | i a u _ IHa];
    simpl; auto.
  - now rewrite Hp.
  - rewrite forallb_app. apply andb_true_iff. split.
    + eapply forallb_forall. intros x Hx.
      rewrite forallb_forall in IHa. now rewrite IHa.
    + eapply forallb_forall. intros x Hx.
      rewrite forallb_forall in IHb. rewrite IHb; auto. apply orb_true_r.
  - eapply forallb_forall. intros x Hx.
    rewrite forallb_forall in IHa. now rewrite IHa.
  - eapply forallb_forall. intros x Hx.
    rewrite forallb_forall in IHb. rewrite IHb; auto. apply orb_true_r.
Qed.

(** Every capture is a part of the match. *)
Lemma LangC_captures (P : char -> bool) r u n :
  LangC r u n -> forallb P u = true ->
  Forall (fun iv => forallb P (snd iv) = true) n.
Proof.
  induction 1 as [| p c0 Hp | a b u v n1 n2 _ IHa _ IHb | a b u n _ IHa
                  | a b u n _ IHb | p u Hu | p u Hu | i a u n _ IHa];
    intros H; auto.
  - rewrite forallb_app in H. apply andb_true_iff in H. destruct H.
    apply Forall_app. auto.
Qed.

Lemma group_forallb (P : char -> bool) i cs :
  Forall (fun iv => forallb P (snd iv) = true) cs ->
  forallb P (group i cs) = true.
Proof.
  induction 1 as [| [j v] cs H _ IH]; simpl; auto.
  destruct (Nat.eqb i j); auto.
Qed.

Lemma exec_first r c s :
  nullable r = false -> first r c = false -> exec r (c :: s) = None.
Proof.
  intros N F. destruct (exec r (c :: s)) as [[m cs] |] eqn:E; auto.
  apply exec_sound in E. destruct E as (rest & E & L & _).
  destruct m as [| c' m].
  - now apply (Lang_nonempty N) in L.
  - simpl in E. inversion E; subst c'.
    rewrite (Lang_first L eq_refl) in F. discriminate.
Qed.

Lemma exec_nil r : nullable r = false -> exec r [] = None.
Proof.
  intros N. destruct (exec r []) as [[m cs] |] eqn:E; auto.
  apply exec_sound in E. destruct E as (rest & E & L & _).
  symmetry in E. apply app_eq_nil in E. destruct E as [-> _].
  now apply (Lang_nonempty N) in L.
Qed.

(** ** The pieces of a scan *)

Definition hit_ok (r : re) (p : piece) : Prop :=
  match p with
  | Keep _ => True
  | Hit m cs => LangC r m cs
  end.

Lemma pieces_hits r : forall s k, Forall (hit_ok r) (pieces r s k).
Proof.
  induction s as [| c s IH]; intros k; simpl.
  - destruct k; [| constructor].
    destruct (exec r []) as [[m cs] |] eqn:E; constructor; auto.
    apply exec_sound in E. now destruct E as (? & ? & ? & ?).
  - destruct k; auto.
    destruct (exec r (c :: s)) as [[m cs] |] eqn:E.
    + apply exec_sound in E. destruct E as (? & ? & ? & ?).
      destruct (length m); repeat constructor; auto.
    + constructor; simpl; auto.
Qed.

(** Where no match starts, the scan keeps the code units. *)
Lemma pieces_keep r : forall w t,
  (forall u c v, w = u ++ c :: v -> exec r (c :: v ++ t) = None) ->
  pieces r (w ++ t) 0 = List.map Keep w ++ pieces r t 0.
Proof.
  induction w as [| c w IH]; intros t H; simpl; auto.
  rewrite (H [] c w eq_refl). f_equal. apply IH.
  intros u c' v E. apply (H (c :: u) c' v). now rewrite E.
Qed.

(** ** Array indices as strings *)

Lemma js_inj a b : js a = js b -> a = b.
Proof.
  unfold js. revert b. induction a as [| x a IH]; intros [| y b] E;
    simpl in E; try discriminate; auto.
  inversion E as [[E1 E2]]. f_equal; auto.
  rewrite <- (ascii_N_embedding x), <- (ascii_N_embedding y). now rewrite E1.
Qed.

Lemma to_uint_nonnil n : Nat.to_uint n <> Decimal.Nil.
Proof.
  assert (E : Nat.to_uint n = Decimal.unorm (Nat.to_uint n)).
  { rewrite <- DecimalNat.Unsigned.to_of.
    now rewrite DecimalNat.Unsigned.of_to. }
  rewrite E. unfold Decimal.unorm.
  destruct (Decimal.nzhead (Nat.to_uint n)); discriminate.
Qed.

Lemma numToString_inj n m : numToString n = numToString m -> n = m.
Proof.
  unfold numToString. intros E. apply js_inj in E.
  apply DecimalNat.Unsigned.to_uint_inj.
  assert (U : forall k, NilZero.uint_of_string
                          (NilZero.string_of_uint (Nat.to_uint k))
                        = Some (Nat.to_uint k)).
  { intros k. apply NilZero.usu. apply to_uint_nonnil. }
  pose proof (U n) as Un. rewrite E, U in Un. now inversion Un.
Qed.

Lemma digits_of_uint d :
  forallb Cls.digit (js (NilEmpty.string_of_uint d)) = true.
Proof. induction d; simpl; auto. Qed.

Lemma numToString_digits n : forallb Cls.digit (numToString n) = true.
Proof.
  unfold numToString, NilZero.string_of_uint.
  destruct (Nat.to_uint n); auto; apply (digits_of_uint (_ _)).
Qed.

Lemma numToString_cons n :
  exists d ds, numToString n = d :: ds /\ Cls.digit d = true.
Proof.
  pose proof (numToString_digits n) as H.
  destruct (numToString n) as [| d ds] eqn:E.
  - exfalso. unfold numToString, NilZero.string_of_uint in E.
    pose proof (to_uint_nonnil n) as NN.
    destruct (Nat.to_uint n); try discriminate; contradiction.
  - simpl in H. apply andb_true_iff in H. destruct H. eauto.
Qed.

Lemma digit_nous c : Cls.digit c = true -> c <> 95%N.
Proof. cls. Qed.

(** ** Texts with placeholders *)

Lemma render_app a b : render (a ++ b) = render a ++ render b.
Proof. apply flat_map_app. Qed.

Lemma render_lits u : render (List.map Lit u) = u.
Proof. induction u as [| c u IH]; simpl; congruence. Qed.

Lemma nous_cons c u : nous (c :: u) = true <-> c <> 95%N /\ nous u = true.
Proof.
  unfold nous. simpl. rewrite andb_true_iff, negb_true_iff, N.eqb_neq.
  tauto.
Qed.

Lemma nous_app u v : nous (u ++ v) = nous u && nous v.
Proof. apply forallb_app. Qed.

Lemma lits_ok_lits u : nous u = true -> lits_ok (List.map Lit u).
Proof.
  induction u as [| c u IH]; intros H; constructor.
  - now apply nous_cons in H.
  - apply IH. now apply nous_cons in H.
Qed.

Lemma lits_ok_app a b : lits_ok (a ++ b) <-> lits_ok a /\ lits_ok b.
Proof. apply Forall_app. Qed.

Lemma placeholder_head q n :
  exists x y, placeholder q n = 95%N :: 95%N :: 95%N :: x :: y /\ x <> 95%N.
Proof.
  destruct q; [exists 66%N | exists 73%N]; eexists; split;
    try reflexivity; discriminate.
Qed.

(** The first underscore of a text is the start of a placeholder. *)
Lemma first_underscore : forall its w z,
  lits_ok its -> nous w = true -> render its = w ++ 95%N :: z ->
  exists q n its', its = List.map Lit w ++ Ph q n :: its' /\
                   placeholder q n ++ render its' = 95%N :: z.
Proof.
  induction its as [| i its IH]; intros w z Hok Hw E.
  - destruct w; discriminate.
  - inversion Hok as [| ? ? Hi Hok']; subst.
    destruct i as [c | q n]; simpl in E.
    + destruct w as [| c' w]; simpl in E; inversion E; subst.
      * now simpl in Hi.
      * apply nous_cons in Hw. destruct Hw as [_ Hw].
        destruct (IH _ _ Hok' Hw H1) as (q & n & its' & -> & E').
        exists q, n, its'. auto.
    + destruct (placeholder_head q n) as (x & y & Eh & _).
      destruct w as [| c' w].
      * exists q, n, its. auto.
      * rewrite Eh in E. simpl in E. inversion E; subst.
        apply nous_cons in Hw. now destruct Hw.
Qed.

(** A stretch without underscore at the start of a text is made of code
    units of the document. *)
Lemma run_prefix : forall m its rest,
  lits_ok its -> nous m = true -> render its = m ++ rest ->
  exists its', its = List.map Lit m ++ its' /\ render its' = rest.
Proof.
  induction m as [| c m IH]; intros its rest Hok Hm E.
  - exists its. auto.
  - apply nous_cons in Hm. destruct Hm as [Hc Hm].
    destruct its as [| i its]; [discriminate |].
    inversion Hok as [| ? ? Hi Hok']; subst.
    destruct i as [c0 | q n]; simpl in E.
    + inversion E; subst.
      destruct (IH _ _ Hok' Hm H1) as (its' & -> & E').
      exists its'. auto.
    + destruct (placeholder_head q n) as (x & y & Eh & _).
      rewrite Eh in E. simpl in E. inversion E; subst. contradiction.
Qed.

Lemma run_lits m its : length m <= run (List.map Lit m ++ its).
Proof. induction m; simpl; lia. Qed.

Lemma run_skipn : forall k its,
  k <= run its -> exists m, its = List.map Lit m ++ skipn k its /\ length m = k.
Proof.
  induction k as [| k IH]; intros its H.
  - exists []. auto.
  - destruct its as [| [c | q n] its]; simpl in H; try lia.
    destruct (IH its) as (m & E & L); [lia |].
    exists (c :: m). simpl. split; congruence.
Qed.

(** ** A scan of a text with placeholders *)

Lemma Forall_hit_nous_app a b :
  Forall hit_nous (a ++ b) -> Forall hit_nous b.
Proof. intros H. now apply Forall_app in H. Qed.

Lemma Forall_hit_nous_keep w : Forall hit_nous (List.map Keep w).
Proof. induction w; constructor; simpl; auto. Qed.

(** If no match starts inside a placeholder and no match holds an
    underscore, the scan keeps the placeholders and finds its matches in
    the code units of the document. *)
Lemma pieces_items r :
  nullable r = false -> inert r ->
  forall its skip,
    lits_ok its -> skip <= run its ->
    Forall hit_nous (pieces r (render its) skip) ->
    exists ips,
      pieces r (render its) skip = flat_map lower1 ips /\
      flat_map lift1 ips = skipn skip its.
Proof.
  intros Hn Hin. induction its as [| i its IH]; intros skip Hok Hskip Hh.
  - simpl. destruct skip.
    + rewrite (exec_nil _ Hn). exists []. auto.
    + exists []. auto.
  - inversion Hok as [| ? ? Hi Hok']; subst.
    destruct i as [c | q n].
    + change (render (Lit c :: its)) with (c :: render its) in *.
      simpl in Hh |- *. destruct skip as [| k].
      * destruct (exec r (c :: render its)) as [[m cs] |] eqn:E.
        -- pose proof E as E0. apply exec_sound in E0.
           destruct E0 as (rest & Es & L & _).
           destruct m as [| c' m]; [now apply (Lang_nonempty Hn) in L |].
           simpl in Es. inversion Es; subst c'. simpl in Hh |- *.
           inversion Hh as [| ? ? Hm Hh']; subst. simpl in Hm.
           apply nous_cons in Hm. destruct Hm as [_ Hm].
           destruct (@run_prefix m its rest Hok' Hm H1) as (its' & Ei & Er).
           destruct (IH (length m) Hok') as (ips & E1 & E2); auto.
           { rewrite Ei. apply run_lits. }
           exists (IHit (c :: m) cs :: ips). simpl. rewrite E1, E2. split; auto.
           f_equal. rewrite Ei at 2. f_equal.
           rewrite Ei, skipn_app, length_map, Nat.sub_diag.
           now rewrite skipn_all2 by (rewrite length_map; lia).
        -- inversion Hh as [| ? ? _ Hh']; subst.
           destruct (IH 0 Hok') as (ips & E1 & E2); auto; [lia |].
           exists (IKeep (Lit c) :: ips). simpl. rewrite E1, E2. auto.
      * simpl in Hskip. destruct (IH k Hok') as (ips & E1 & E2); auto; [lia |].
        exists ips. auto.
    + simpl in Hskip. assert (skip = 0) by lia. subst skip.
      change (render (Ph q n :: its)) with (placeholder q n ++ render its) in *.
      rewrite pieces_keep in Hh |- * by (intros; eapply Hin; eauto).
      apply Forall_hit_nous_app in Hh.
      destruct (IH 0 Hok') as (ips & E1 & E2); auto; [lia |].
      exists (IKeep (Ph q n) :: ips). simpl. rewrite E1, E2. auto.
Qed.

(** ** What the replacers make of a scan *)

Lemma replace_fn_keep (St : Type) (f : St -> str -> caps -> str * St) w :
  forall ps st,
    replace_fn f (List.map Keep w ++ ps) st
    = (w ++ fst (replace_fn f ps st), snd (replace_fn f ps st)).
Proof.
  induction w as [| c w IH]; intros ps st; simpl.
  - now destruct (replace_fn f ps st).
  - rewrite IH. reflexivity.
Qed.

Lemma replace_fn_hits prefix suffix : forall ps arr,
  snd (replace_fn (V120.protector prefix suffix) ps arr)
  = arr ++ flat_map hit_text ps.
Proof.
  induction ps as [| [c | m cs] ps IH]; intros arr; simpl.
  - now rewrite app_nil_r.
  - specialize (IH arr).
    destruct (replace_fn (V120.protector prefix suffix) ps arr). auto.
  - specialize (IH (arr ++ [m])).
    destruct (replace_fn (V120.protector prefix suffix) ps (arr ++ [m])).
    simpl in *. now rewrite IH, <- app_assoc.
Qed.

Lemma hit_text_lower ips :
  flat_map hit_text (flat_map lower1 ips) = flat_map hit1 ips.
Proof.
  induction ips as [| [[c | q n] | m cs] ips IH]; simpl; auto.
  - rewrite flat_map_app, IH.
    assert (E : forall w, flat_map hit_text (List.map Keep w) = []).
    { induction w; simpl; auto. }
    now rewrite E.
  - now rewrite IH.
Qed.

Lemma replace_fn_protect q : forall ips arr,
  replace_fn (V120.protector (poolPrefix q) (js "___"))
             (flat_map lower1 ips) arr
  = (render (assign q (length arr) ips), arr ++ flat_map hit1 ips).
Proof.
  induction ips as [| [[c | q' n] | m cs] ips IH]; intros arr; simpl.
  - now rewrite app_nil_r.
  - now rewrite IH.
  - rewrite replace_fn_keep, IH. reflexivity.
  - rewrite IH, length_app. simpl. rewrite Nat.add_1_r.
    unfold placeholder. now rewrite <- !app_assoc.
Qed.

Lemma replace_all_items r tpl its ips :
  pieces r (render its) 0 = flat_map lower1 ips ->
  replace_all r tpl (render its) = render (flat_map (rewrite1 tpl) ips).
Proof.
  unfold replace_all. intros ->. clear.
  induction ips as [| [[c | q n] | m cs] ips IH]; simpl; auto.
  - now rewrite IH.
  - rewrite flat_map_app, IH. f_equal.
    induction (placeholder q n); simpl; congruence.
  - rewrite IH, render_app, render_lits. reflexivity.
Qed.

Lemma exec_all_items r its ips :
  pieces r (render its) 0 = flat_map lower1 ips ->
  (forall m cs, ~ In (IHit m cs) ips) ->
  exec_all r (render its) = [].
Proof.
  unfold exec_all. intros -> H.
  induction ips as [| [[c | q n] | m cs] ips IH]; simpl; auto.
  - apply IH. intros m cs Hin. apply (H m cs). now right.
  - rewrite flat_map_app, IH.
    + rewrite app_nil_r. induction (placeholder q n); simpl; auto.
    + intros m cs Hin. apply (H m cs). now right.
  - exfalso. apply (H m cs). now left.
Qed.

(** ** The text a protecting scan leaves *)

Lemma get_addTo_same q A hs : get q (addTo q A hs) = get q A ++ hs.
Proof. now destruct q. Qed.

Lemma get_addTo_other q q' A hs : q <> q' -> get q' (addTo q A hs) = get q' A.
Proof. destruct q, q'; simpl; congruence. Qed.

Lemma get_addTo_prefix q q' A hs :
  exists tl, get q' (addTo q A hs) = get q' A ++ tl.
Proof.
  destruct q, q'; simpl; eauto; exists []; now rewrite app_nil_r.
Qed.

Lemma expand1_addTo q A hs i :
  bounded1 A i -> expand1 (addTo q A hs) i = expand1 A i.
Proof.
  destruct i as [c | q' k]; simpl; auto. intros H.
  destruct (get_addTo_prefix q q' A hs) as (tl & ->).
  now rewrite app_nth1.
Qed.

Lemma bounded1_addTo q A hs i : bounded1 A i -> bounded1 (addTo q A hs) i.
Proof.
  destruct i as [c | q' k]; simpl; auto. intros H.
  destruct (get_addTo_prefix q q' A hs) as (tl & ->).
  rewrite length_app. lia.
Qed.

Lemma addTo_app q A h1 h2 : addTo q (addTo q A h1) h2 = addTo q A (h1 ++ h2).
Proof. destruct q; simpl; now rewrite app_assoc. Qed.

Lemma expand_lits A m : expand A (List.map Lit m) = m.
Proof. induction m; simpl; congruence. Qed.

Lemma expand_app A a b : expand A (a ++ b) = expand A a ++ expand A b.
Proof. apply flat_map_app. Qed.

Lemma expand_assign q A : forall ips pre,
  bounded A (flat_map lift1 ips) ->
  expand (addTo q A (pre ++ flat_map hit1 ips))
         (assign q (length (get q A) + length pre) ips)
  = expand A (flat_map lift1 ips).
Proof.
  induction ips as [| [i | m cs] ips IH]; intros pre Hb; simpl; auto.
  - simpl in Hb. inversion Hb as [| ? ? Hi Hb']; subst.
    rewrite IH by auto. f_equal. now apply expand1_addTo.
  - simpl in Hb. apply Forall_app in Hb. destruct Hb as [_ Hb].
    rewrite expand_app, expand_lits. f_equal.
    + rewrite get_addTo_same, app_assoc, app_nth2; rewrite length_app; [| lia].
      now rewrite Nat.sub_diag.
    + replace (S (length (get q A) + length pre))
        with (length (get q A) + length (pre ++ [m]))
        by (rewrite length_app; simpl; lia).
      replace (pre ++ m :: flat_map hit1 ips)
        with ((pre ++ [m]) ++ flat_map hit1 ips)
        by (now rewrite <- app_assoc).
      now apply IH.
Qed.

Lemma lits_ok_assign q : forall ips n,
  lits_ok (flat_map lift1 ips) -> lits_ok (assign q n ips).
Proof.
  induction ips as [| [i | m cs] ips IH]; intros n H; simpl in *.
  - constructor.
  - inversion H; subst. constructor; auto. now apply IH.
  - apply Forall_app in H. destruct H as [_ H].
    constructor; simpl; auto. now apply IH.
Qed.

Lemma bounded_assign q A : forall ips pre,
  bounded A (flat_map lift1 ips) ->
  bounded (addTo q A (pre ++ flat_map hit1 ips))
          (assign q (length (get q A) + length pre) ips).
Proof.
  induction ips as [| [i | m cs] ips IH]; intros pre Hb; simpl in *.
  - constructor.
  - inversion Hb; subst. constructor; [now apply bounded1_addTo | now apply IH].
  - apply Forall_app in Hb. destruct Hb as [_ Hb]. constructor.
    + simpl. rewrite get_addTo_same, !length_app. simpl. lia.
    + replace (S (length (get q A) + length pre))
        with (length (get q A) + length (pre ++ [m]))
        by (rewrite length_app; simpl; lia).
      replace (pre ++ m :: flat_map hit1 ips)
        with ((pre ++ [m]) ++ flat_map hit1 ips)
        by (now rewrite <- app_assoc).
      now apply IH.
Qed.

Lemma In_assign_old q i : isPh i = true -> forall ips n,
  In i (flat_map lift1 ips) -> In i (assign q n ips).
Proof.
  intros Hi. induction ips as [| [i' | m cs] ips IH]; intros n H; simpl in *.
  - contradiction.
  - destruct H as [-> | H]; [now left | right; now apply IH].
  - apply in_app_or in H. destruct H as [H | H].
    + apply in_map_iff in H. destruct H as (c & <- & _). discriminate.
    + right. now apply IH.
Qed.

Lemma In_assign_new q : forall ips n j,
  j < length (flat_map hit1 ips) -> In (Ph q (n + j)) (assign q n ips).
Proof.
  induction ips as [| [i | m cs] ips IH]; intros n j H; simpl in *.
  - lia.
  - right. now apply IH.
  - destruct j as [| j].
    + left. f_equal. lia.
    + right. replace (n + S j) with (S n + j) by lia. apply IH. lia.
Qed.

Lemma hits_nous : forall ps,
  forallb nous (flat_map hit_text ps) = true -> Forall hit_nous ps.
Proof.
  induction ps as [| [c | m cs] ps IH]; intros H; simpl in *; constructor;
    simpl; auto.
  - now apply andb_true_iff in H.
  - apply IH. now apply andb_true_iff in H.
Qed.

(** One protecting scan keeps the invariant, as long as the spans it
    records hold no underscore. *)
Lemma pass_Inv q r A its s :
  nullable r = false -> inert r -> Inv A its s ->
  forallb nous (flat_map hit_text (pieces r (render its) 0)) = true ->
  exists its',
    replace_fn (V120.protector (poolPrefix q) (js "___"))
               (pieces r (render its) 0) (get q A)
    = (render its',
       get q (addTo q A (flat_map hit_text (pieces r (render its) 0)))) /\
    Inv (addTo q A (flat_map hit_text (pieces r (render its) 0))) its' s.
Proof.
  intros Hn Hin [Hok Hb He Hc Hnous] Hh.
  destruct (@pieces_items r Hn Hin its 0 Hok) as (ips & E1 & E2);
    [lia | now apply hits_nous |].
  simpl in E2. rewrite E1 in *. rewrite hit_text_lower in *.
  exists (assign q (length (get q A)) ips). split.
  - now rewrite replace_fn_protect, get_addTo_same.
  - pose proof (@expand_assign q A ips [] ) as X. simpl in X.
    pose proof (@bounded_assign q A ips []) as Y. simpl in Y.
    rewrite Nat.add_0_r in X, Y. rewrite E2 in X, Y.
    constructor.
    + apply lits_ok_assign. now rewrite E2.
    + now apply Y.
    + now rewrite X.
    + intros q' k Hk. destruct (Nat.lt_ge_cases k (length (get q' A))) as [L | L].
      * apply In_assign_old; auto. rewrite E2. now apply Hc.
      * assert (Eq : q' = q).
        { destruct q, q'; auto; simpl in *; lia. }
        subst q'. rewrite get_addTo_same, length_app in Hk.
        replace k with (length (get q A) + (k - length (get q A))) by lia.
        apply In_assign_new. lia.
    + intros q'. pose proof (Hnous Base64) as N1.
      pose proof (Hnous IdRef) as N2. simpl in N1, N2.
      destruct q, q'; simpl; auto; rewrite forallb_app, Hh, andb_true_r; auto.
Qed.

(** ** No match of the patterns starts inside a placeholder *)

Lemma digit_cases c :
  Cls.digit c = true ->
  In c [48; 49; 50; 51; 52; 53; 54; 55; 56; 57]%N.
Proof.
  intros H.
  assert (R : (48 <= c <= 57)%N) by cls.
  simpl. lia.
Qed.

Lemma digit_phChar c : Cls.digit c = true -> phChar c = true.
Proof.
  intros H. apply digit_cases in H. simpl in H.
  repeat (destruct H as [<- | H]; [reflexivity |]). contradiction.
Qed.

Lemma placeholder_chars q n : forallb phChar (placeholder q n) = true.
Proof.
  unfold placeholder. rewrite !forallb_app.
  assert (D : forallb phChar (numToString n) = true).
  { pose proof (numToString_digits n) as H.
    rewrite forallb_forall in H. apply forallb_forall.
    intros x Hx. apply digit_phChar. auto. }
  rewrite D. now destruct q.
Qed.

Ltac phChar_cases H :=
  unfold phChar in H; apply existsb_exists in H;
  let x := fresh "x" in
  let Hin := fresh "Hin" in
  let Heq := fresh "Heq" in
  destruct H as (x & Hin & Heq); apply N.eqb_eq in Heq; subst x;
  simpl in Hin;
  repeat (destruct Hin as [Hin | Hin]; [subst |]); try contradiction.

Lemma inert_of_first r :
  nullable r = false ->
  (forall c, phChar c = true -> first r c = false) ->
  inert r.
Proof.
  intros Hn Hf q n u c v t E. apply exec_first; auto. apply Hf.
  pose proof (placeholder_chars q n) as H. rewrite E, forallb_app in H.
  apply andb_true_iff in H. destruct H as [_ H]. simpl in H.
  now apply andb_true_iff in H.
Qed.

Lemma inert_base64Dq : inert V120.base64Dq.
Proof.
  apply inert_of_first; [reflexivity |]. intros c H.
  phChar_cases H; reflexivity.
Qed.

Lemma inert_base64Sq : inert V120.base64Sq.
Proof.
  apply inert_of_first; [reflexivity |]. intros c H.
  phChar_cases H; reflexivity.
Qed.

Lemma inert_urlRef : inert V120.urlRef.
Proof.
  apply inert_of_first; [reflexivity |]. intros c H.
  phChar_cases H; reflexivity.
Qed.

Lemma inert_xlinkNsPattern : inert V120.xlinkNsPattern.
Proof.
  apply inert_of_first; [reflexivity |]. intros c H.
  phChar_cases H; reflexivity.
Qed.

Lemma inert_nsToXlinkPattern N : inert (V120.nsToXlinkPattern N).
Proof.
  apply inert_of_first; [reflexivity |]. intros c H.
  phChar_cases H; reflexivity.
Qed.

Lemma inert_xmlnsPattern N : inert (V120.xmlnsPattern N).
Proof.
  apply inert_of_first; [reflexivity |]. intros c H.
  phChar_cases H; reflexivity.
Qed.

Lemma inert_svgOpen : inert V120.svgOpen.
Proof.
  apply inert_of_first; [reflexivity |]. intros c H.
  phChar_cases H; reflexivity.
Qed.

Lemma hfollow_app_no72 : forall a b,
  forallb (fun c => negb (N.eqb c 72)) a = true ->
  hfollow b = true -> hfollow (a ++ b) = true.
Proof.
  induction a as [| c a IH]; intros b Ha Hb; simpl in *; auto.
  apply andb_true_iff in Ha. destruct Ha as [Hc Ha].
  apply negb_true_iff in Hc. rewrite Hc. simpl. now apply IH.
Qed.

Lemma hfollow_placeholder q n : hfollow (placeholder q n) = true.
Proof.
  assert (T : hfollow (numToString n ++ js "___") = true).
  { apply hfollow_app_no72; [| reflexivity].
    pose proof (numToString_digits n) as H. rewrite forallb_forall in H.
    apply forallb_forall. intros x Hx. specialize (H x Hx).
    apply digit_cases in H. simpl in H.
    repeat (destruct H as [<- | H]; [reflexivity |]). contradiction. }
  unfold placeholder.
  destruct (numToString_cons n) as (d & ds & E & Hd).
  rewrite E in *. apply digit_cases in Hd. simpl in Hd.
  destruct q; simpl in *; rewrite T;
    repeat (destruct Hd as [<- | Hd]; [reflexivity |]); contradiction.
Qed.

Lemma hfollow_split : forall u v,
  hfollow (u ++ 72%N :: v) = true -> exists v', v = 79%N :: v'.
Proof.
  induction u as [| c u IH]; intros v H; simpl in H.
  - destruct v as [| d v]; [discriminate |].
    apply andb_true_iff in H. destruct H as [H _].
    apply N.eqb_eq in H. subst. eauto.
  - apply andb_true_iff in H. destruct H as [_ H]. now apply IH.
Qed.

Lemma inert_hrefRef : inert V120.hrefRef.
Proof.
  intros q n u c v t E.
  destruct (N.eqb_spec c 72) as [-> | Hc].
  - pose proof (hfollow_placeholder q n) as H. rewrite E in H.
    apply hfollow_split in H. destruct H as (v' & ->). reflexivity.
  - apply exec_first; [reflexivity |].
    pose proof (placeholder_chars q n) as H. rewrite E, forallb_app in H.
    apply andb_true_iff in H. destruct H as [_ H]. simpl in H.
    apply andb_true_iff in H. destruct H as [H _].
    phChar_cases H; reflexivity.
Qed.

(** ** Occurrences of a placeholder in a text with placeholders *)

Lemma prefixb_true : forall p s,
  prefixb p s = true <-> exists z, s = p ++ z.
Proof.
  induction p as [| x p IH]; intros s; simpl.
  - split; eauto.
  - destruct s as [| y s].
    + split; [discriminate | intros (z & E); discriminate].
    + rewrite andb_true_iff, N.eqb_eq, IH. split.
      * intros (-> & z & ->). eauto.
      * intros (z & E). inversion E; subst. eauto.
Qed.

Lemma prefixb_app_same : forall a x y, prefixb (a ++ x) (a ++ y) = prefixb x y.
Proof.
  induction a as [| c a IH]; intros x y; simpl; auto.
  now rewrite N.eqb_refl, IH.
Qed.

Lemma prefixb_head_neq c d p s : c <> d -> prefixb (c :: p) (d :: s) = false.
Proof.
  intros H. simpl. destruct (N.eqb_spec c d); auto. contradiction.
Qed.

Lemma split_join_go_skip sep rep : forall u t,
  split_join_go sep rep (u ++ t) (length u) = split_join_go sep rep t 0.
Proof. induction u as [| c u IH]; intros t; simpl; auto. Qed.

Lemma split_join_go_keep sep rep : forall w t,
  (forall u c v, w = u ++ c :: v -> prefixb sep (c :: v ++ t) = false) ->
  split_join_go sep rep (w ++ t) 0 = w ++ split_join_go sep rep t 0.
Proof.
  induction w as [| c w IH]; intros t H; simpl; auto.
  rewrite (H [] c w eq_refl). f_equal. apply IH.
  intros u c' v E. apply (H (c :: u) c' v). now rewrite E.
Qed.

Lemma digits_sep : forall a b x y,
  forallb Cls.digit a = true -> forallb Cls.digit b = true ->
  a ++ 95%N :: x = b ++ 95%N :: y -> a = b.
Proof.
  induction a as [| c a IH]; intros [| d b] x y Ha Hb E; simpl in *; auto.
  - inversion E; subst. apply andb_true_iff in Hb. destruct Hb as [Hb _].
    discriminate.
  - inversion E; subst. apply andb_true_iff in Ha. destruct Ha as [Ha _].
    discriminate.
  - inversion E; subst.
    apply andb_true_iff in Ha. apply andb_true_iff in Hb.
    f_equal. eapply IH; try eassumption; tauto.
Qed.

(** Another placeholder does not start with this one. *)
Lemma no_occ_head q n q' k t :
  (q, n) <> (q', k) ->
  prefixb (placeholder q n) (placeholder q' k ++ t) = false.
Proof.
  intros Hne. destruct (prefixb _ _) eqn:E; auto. exfalso. apply Hne.
  apply prefixb_true in E. destruct E as (z & E). unfold placeholder in E.
  rewrite <- !app_assoc in E.
  assert (Q : q = q').
  { destruct q, q'; simpl in E; auto; discriminate. }
  subst q'. f_equal. apply app_inv_head in E. simpl in E.
  apply numToString_inj. symmetry.
  eapply digits_sep; eauto using numToString_digits.
Qed.

Lemma placeholder_shape q n :
  exists name y,
    placeholder q n = 95%N :: 95%N :: 95%N :: name ++ 95%N :: 80%N :: y /\
    nous name = true /\ exists x name', name = x :: name'.
Proof.
  destruct q; [exists (js "BASE64") | exists (js "IDREF")]; eexists;
    (split; [reflexivity | split; [reflexivity | do 2 eexists; reflexivity]]).
Qed.

Lemma render_starts_underscore its z :
  lits_ok its -> render its = 95%N :: z -> exists z', z = 95%N :: 95%N :: z'.
Proof.
  intros Hok E. destruct (@first_underscore its [] z Hok eq_refl E)
    as (q & n & its' & _ & E').
  destruct (placeholder_head q n) as (x & y & Eh & _). rewrite Eh in E'.
  simpl in E'. inversion E'. eauto.
Qed.

(** Inside a placeholder, or at its end and reaching into the text that
    follows, no placeholder starts. *)
Lemma no_occ_tail q n its : lits_ok its -> forall l,
  In l [[95; 95; 95]; [95; 95]; [95]]%N ->
  prefixb (placeholder q n) (l ++ render its) = false.
Proof.
  intros Hok l Hl. destruct (prefixb _ _) eqn:E; auto. exfalso.
  apply prefixb_true in E. destruct E as (z & E).
  destruct (placeholder_shape q n) as (name & y & Es & Hname & x & name' & En).
  rewrite Es in E. subst name. apply nous_cons in Hname.
  destruct Hname as [Hx Hname]. simpl in Hl.
  destruct Hl as [<- | [<- | [<- | []]]]; simpl in E; inversion E as [E'];
    clear E.
  - assert (W : nous (x :: name') = true) by (apply nous_cons; auto).
    rewrite <- app_assoc in E'. simpl in E'.
    change (x :: name' ++ 95%N :: 80%N :: y ++ z)
      with ((x :: name') ++ 95%N :: 80%N :: y ++ z) in E'.
    destruct (@first_underscore _ _ _ Hok W E') as (q1 & n1 & its1 & _ & E1).
    destruct (placeholder_head q1 n1) as (x1 & y1 & Eh & _). rewrite Eh in E1.
    simpl in E1. inversion E1.
  - apply render_starts_underscore in E'; auto. destruct E' as (z' & E').
    inversion E'. contradiction.
  - apply render_starts_underscore in E'; auto. destruct E' as (z' & E').
    inversion E'. contradiction.
Qed.

Lemma prefixb_head4 q n s :
  prefixb (placeholder q n) s = true ->
  exists x s', s = 95%N :: 95%N :: 95%N :: x :: s' /\ (x = 66%N \/ x = 73%N).
Proof.
  intros H. apply prefixb_true in H. destruct H as (z & ->).
  destruct q; [exists 66%N | exists 73%N]; eexists; split; auto; reflexivity.
Qed.

Lemma prefixb_digit q n c s :
  Cls.digit c = true -> prefixb (placeholder q n) (c :: s) = false.
Proof.
  intros H. destruct (placeholder_head q n) as (x & y & -> & _).
  apply prefixb_head_neq. apply digit_nous in H. congruence.
Qed.

(** The cuts of a list that is given in full. *)
Ltac cuts E :=
  match type of E with
  | ?u ++ ?c :: ?l = [] => destruct u; discriminate E
  | ?u ++ ?c :: ?l = _ :: _ =>
      destruct u as [| ? u]; simpl in E;
      [ injection E as ? ?; subst
      | injection E as ? E; subst; cuts E ]
  end.

Lemma no_occ_prefix q n q' u c l d t :
  u <> [] -> poolPrefix q' = u ++ c :: l -> Cls.digit d = true ->
  prefixb (placeholder q n) (c :: l ++ d :: t) = false.
Proof.
  intros Hu E Hd. apply digit_nous in Hd.
  destruct (prefixb _ _) eqn:P; auto. exfalso.
  apply prefixb_head4 in P. destruct P as (x & s' & P & Hx).
  symmetry in E.
  destruct q';
    match type of E with
    | _ = ?p => let v := eval vm_compute in p in change p with v in E
    end;
    cuts E; try contradiction; simpl in P;
    inversion P; subst; try discriminate; try contradiction;
    destruct Hx; discriminate.
Qed.

Lemma no_occ_inside q n q' k its u c v :
  lits_ok its -> u <> [] -> placeholder q' k = u ++ c :: v ->
  prefixb (placeholder q n) (c :: v ++ render its) = false.
Proof.
  intros Hok Hu E. unfold placeholder in E.
  pose proof (numToString_digits k) as HD.
  destruct (numToString_cons k) as (d & ds & Ed & Hd). rewrite Ed in *.
  symmetry in E. apply app_eq_app in E.
  assert (Tl : forall l, In l [[95; 95; 95]; [95; 95]; [95]]%N ->
                         prefixb (placeholder q n) (l ++ render its) = false)
    by (now apply no_occ_tail).
  destruct E as (l & [[E1 E2] | [E1 E2]]).
  - (* the cut lies in the digits or in the closing underscores *)
    apply app_eq_app in E2.
    destruct E2 as (l2 & [[E3 E4] | [E3 E4]]).
    + (* in the digits, or at the first closing underscore *)
      destruct l2 as [| c2 l2].
      * simpl in E4.
        change (c :: v ++ render its) with ((c :: v) ++ render its).
        rewrite E4. apply Tl. simpl. auto.
      * simpl in E4. injection E4 as -> ->.
        rewrite E3, forallb_app in HD.
        apply andb_true_iff in HD. destruct HD as [_ HD]. simpl in HD.
        apply andb_true_iff in HD. destruct HD as [HD _].
        now apply prefixb_digit.
    + (* in the closing underscores *)
      change (c :: v ++ render its) with ((c :: v) ++ render its).
      destruct l2 as [| c2 l2]; simpl in E4.
      { rewrite <- E4. apply Tl. simpl. auto. }
      injection E4 as _ E4. destruct l2 as [| c3 l2]; simpl in E4.
      { rewrite <- E4. apply Tl. simpl. auto. }
      injection E4 as _ E4. destruct l2 as [| c4 l2]; simpl in E4.
      { rewrite <- E4. apply Tl. simpl. auto. }
      injection E4 as _ E4. destruct l2; discriminate.
  - (* the cut lies in the fixed prefix *)
    destruct l as [| c' l].
    + simpl in E2. injection E2 as -> ->. now apply prefixb_digit.
    + simpl in E2. injection E2 as <- ->.
      rewrite <- app_assoc. simpl.
      eapply no_occ_prefix; eauto.
Qed.

(** ** Restoring *)

Lemma pool_eqb_eq q q' : pool_eqb q q' = true <-> q = q'.
Proof. destruct q, q'; simpl; split; congruence. Qed.

Lemma split_join_placeholder q n rep s :
  split_join (placeholder q n) rep s
  = split_join_go (placeholder q n) rep s 0.
Proof.
  destruct (placeholder_head q n) as (x & y & E & _).
  unfold split_join. now rewrite E.
Qed.

Lemma lits_ok_expandPool q n arr its :
  lits_ok its -> forallb nous arr = true ->
  lits_ok (flat_map (expandPool q n arr) its).
Proof.
  intros Hok Harr. induction Hok as [| i its Hi _ IH]; simpl.
  - constructor.
  - apply lits_ok_app. split; auto.
    destruct i as [c | q' k]; simpl.
    + now constructor.
    + destruct (pool_eqb q q' && (n <=? k) && (k <? n + length arr)) eqn:B.
      * apply lits_ok_lits. rewrite forallb_forall in Harr.
        destruct (nth_in_or_default (k - n) arr []) as [H | ->]; auto.
      * now constructor.
Qed.

(** One turn of a restoring loop. *)
Lemma split_join_render q n rep : forall its,
  lits_ok its ->
  split_join (placeholder q n) rep (render its)
  = render (flat_map (expandPool q n [rep]) its).
Proof.
  intros its Hok. rewrite split_join_placeholder.
  induction Hok as [| i its Hi Hok IH]; auto.
  destruct i as [c | q' k].
  - change (render (Lit c :: its)) with (c :: render its).
    destruct (placeholder_head q n) as (x & y & E & _).
    simpl. rewrite E at 1. rewrite prefixb_head_neq by (simpl in Hi; congruence).
    now rewrite IH.
  - change (render (Ph q' k :: its)) with (placeholder q' k ++ render its).
    simpl flat_map. rewrite render_app.
    match goal with
    | |- context [if ?b then _ else _] => destruct b eqn:B
    end.
    + apply andb_true_iff in B. destruct B as [B B3].
      apply andb_true_iff in B. destruct B as [B1 B2].
      apply pool_eqb_eq in B1. apply Nat.leb_le in B2. apply Nat.ltb_lt in B3.
      assert (k = n) by lia. subst q' k.
      rewrite Nat.sub_diag. simpl nth. rewrite render_lits.
      destruct (placeholder q n) as [| c0 sep] eqn:E.
      { destruct (placeholder_head q n) as (x & y & E' & _). congruence. }
      simpl. rewrite N.eqb_refl.
      replace (prefixb sep (sep ++ render its)) with true.
      * simpl. rewrite Nat.sub_0_r, split_join_go_skip. now rewrite IH.
      * symmetry. apply prefixb_true. eauto.
    + simpl render at 2. rewrite app_nil_r.
      rewrite split_join_go_keep; [now rewrite IH |].
      intros u c v E. destruct u as [| c0 u].
      * simpl in E.
        change (c :: v ++ render its) with ((c :: v) ++ render its).
        rewrite <- E. apply no_occ_head. intros X. inversion X; subst.
        rewrite (proj2 (pool_eqb_eq q' q') eq_refl) in B. simpl in B.
        rewrite Nat.leb_refl in B. simpl in B.
        apply Nat.ltb_ge in B. lia.
      * eapply no_occ_inside; eauto. discriminate.
Qed.

Lemma expandPool_nil q n its : flat_map (expandPool q n []) its = its.
Proof.
  induction its as [| [c | q' k] its IH]; simpl; try congruence.
  rewrite Nat.add_0_r.
  destruct (pool_eqb q q'); simpl; try congruence.
  destruct (Nat.leb_spec n k); simpl; try congruence.
  destruct (Nat.ltb_spec k n); simpl; try congruence. lia.
Qed.

Lemma expandPool_lits q n arr m :
  flat_map (expandPool q n arr) (List.map Lit m) = List.map Lit m.
Proof. induction m; simpl; congruence. Qed.

Lemma expandPool_step q n m arr its :
  flat_map (expandPool q (S n) arr) (flat_map (expandPool q n [m]) its)
  = flat_map (expandPool q n (m :: arr)) its.
Proof.
  induction its as [| i its IH]; auto.
  simpl flat_map. rewrite flat_map_app, IH. f_equal.
  destruct i as [c | q' k]; auto.
  unfold expandPool at 2 3. cbn [length].
  destruct (pool_eqb q q') eqn:Q; cbn [andb].
  - destruct (Nat.leb_spec n k) as [L1 | L1]; cbn [andb].
    + destruct (Nat.ltb_spec k (n + 1)) as [L2 | L2].
      * assert (k = n) by lia. subst k. rewrite Nat.sub_diag. cbn [nth].
        destruct (Nat.ltb_spec n (n + S (length arr))); [| lia].
        apply expandPool_lits.
      * cbn [flat_map expandPool]. rewrite Q. cbn [andb].
        destruct (Nat.leb_spec (S n) k); [| lia]. cbn [andb].
        replace (n + S (length arr)) with (S n + length arr) by lia.
        destruct (Nat.ltb_spec k (S n + length arr)); rewrite app_nil_r; auto.
        replace (k - n) with (S (k - S n)) by lia. reflexivity.
    + cbn [flat_map expandPool]. rewrite Q. cbn [andb].
      destruct (Nat.leb_spec (S n) k); [lia |]. now rewrite app_nil_r.
  - cbn [flat_map expandPool]. rewrite Q. now rewrite app_nil_r.
Qed.

Lemma restore_render q : forall arr n its,
  lits_ok its -> forallb nous arr = true ->
  V120.restore (poolPrefix q) (js "___") n arr (render its)
  = render (flat_map (expandPool q n arr) its).
Proof.
  induction arr as [| m arr IH]; intros n its Hok Harr.
  - now rewrite expandPool_nil.
  - simpl in Harr. apply andb_true_iff in Harr. destruct Harr as [Hm Harr].
    simpl V120.restore.
    change (poolPrefix q ++ numToString n ++ js "___")
      with (placeholder q n).
    rewrite split_join_render by auto.
    rewrite IH; auto.
    + now rewrite expandPool_step.
    + apply lits_ok_expandPool; auto. simpl. now rewrite Hm.
Qed.

Lemma expand_both A : forall its,
  bounded A its ->
  render (flat_map (expandPool Base64 0 (fst A))
            (flat_map (expandPool IdRef 0 (snd A)) its))
  = expand A its.
Proof.
  induction 1 as [| i its Hi _ IH]; auto.
  simpl flat_map. rewrite flat_map_app, render_app, IH.
  unfold expand. simpl flat_map. f_equal.
  destruct i as [c | [|] k]; simpl in *; auto.
  - destruct (Nat.ltb_spec k (length (fst A))); [| lia].
    now rewrite app_nil_r, render_lits, Nat.sub_0_r.
  - destruct (Nat.ltb_spec k (length (snd A))); [| lia].
    now rewrite expandPool_lits, render_lits, Nat.sub_0_r.
Qed.

(** The two restoring loops undo the four protecting scans. *)
Lemma restoreAll_Inv A its s :
  Inv A its s -> V120.restoreAll (snd A) (fst A) (render its) = s.
Proof.
  intros [Hok Hb He Hc Hn]. unfold V120.restoreAll.
  change V120.idRefPlaceholderPrefix with (poolPrefix IdRef).
  change V120.placeholderPrefix with (poolPrefix Base64).
  change V120.idRefPlaceholderSuffix with (js "___").
  change V120.placeholderSuffix with (js "___").
  rewrite restore_render; auto; [| apply (Hn IdRef)].
  rewrite restore_render; [| | apply (Hn Base64)].
  - now rewrite expand_both.
  - apply lits_ok_expandPool; auto. apply (Hn IdRef).
Qed.

(** ** The protecting scans *)

Lemma forallb_nous_app_l a b :
  forallb nous (a ++ b) = true -> forallb nous a = true.
Proof. rewrite forallb_app. intros H. now apply andb_true_iff in H. Qed.

Lemma forallb_nous_app_r a b :
  forallb nous (a ++ b) = true -> forallb nous b = true.
Proof. rewrite forallb_app. intros H. now apply andb_true_iff in H. Qed.

(** The two scans of one pool. *)
Lemma protect2_Inv q r1 r2 A its s :
  nullable r1 = false -> inert r1 -> nullable r2 = false -> inert r2 ->
  Inv A its s ->
  forall res,
    res = (let (t1, a1) :=
             replace_fn (V120.protector (poolPrefix q) (js "___"))
                        (pieces r1 (render its) 0) (get q A) in
           replace_fn (V120.protector (poolPrefix q) (js "___"))
                      (pieces r2 t1 0) a1) ->
    forallb nous (snd res) = true ->
    exists its' A',
      res = (render its', get q A') /\ Inv A' its' s /\
      (forall q', q' <> q -> get q' A' = get q' A).
Proof.
  intros N1 I1 N2 I2 HInv res -> Hres.
  pose proof (replace_fn_hits (poolPrefix q) (js "___")
                (pieces r1 (render its) 0) (get q A)) as S1.
  destruct (replace_fn (V120.protector (poolPrefix q) (js "___"))
              (pieces r1 (render its) 0) (get q A)) as [t1 a1] eqn:R1.
  simpl in S1.
  pose proof (replace_fn_hits (poolPrefix q) (js "___")
                (pieces r2 t1 0) a1) as S2.
  rewrite S2 in Hres.
  assert (H1 : forallb nous (flat_map hit_text (pieces r1 (render its) 0))
               = true).
  { apply forallb_nous_app_l in Hres. rewrite S1 in Hres.
    now apply forallb_nous_app_r in Hres. }
  destruct (@pass_Inv q r1 A its s N1 I1 HInv H1) as (its1 & E1 & Inv1).
  rewrite R1 in E1. injection E1 as -> ->.
  assert (H2 : forallb nous (flat_map hit_text (pieces r2 (render its1) 0))
               = true).
  { now apply forallb_nous_app_r in Hres. }
  destruct (@pass_Inv q r2 _ its1 s N2 I2 Inv1 H2) as (its2 & E2 & Inv2).
  eexists its2, _. split; [exact E2 | split; [exact Inv2 |]].
  intros q' Hq. rewrite !get_addTo_other; auto.
Qed.

Lemma Inv_start s : nous s = true -> Inv ([], []) (List.map Lit s) s.
Proof.
  intros H. constructor.
  - now apply lits_ok_lits.
  - apply Forall_forall. intros i Hi. apply in_map_iff in Hi.
    destruct Hi as (c & <- & _). exact I.
  - apply expand_lits.
  - intros [|] k Hk; simpl in Hk; lia.
  - now intros [|].
Qed.

(** The text and the arrays after the four scans. *)
Lemma protect_Inv s :
  clean s = true ->
  exists its A,
    V120.protectBase64 s = (fst (V120.protectBase64 s), fst A) /\
    V120.protectIdRefs (fst (V120.protectBase64 s)) = (render its, snd A) /\
    Inv A its s.
Proof.
  unfold clean, protectedSpans. intros C.
  apply andb_true_iff in C. destruct C as [Cs C].
  pose proof (forallb_nous_app_l _ _ C) as C1.
  pose proof (forallb_nous_app_r _ _ C) as C2.
  pose proof (@Inv_start s Cs) as I0.
  destruct (@protect2_Inv Base64 V120.base64Dq V120.base64Sq _ _ _
              eq_refl inert_base64Dq eq_refl inert_base64Sq I0
              (V120.protectBase64 s)) as (its1 & A1 & E1 & I1 & O1); auto.
  { unfold V120.protectBase64. now rewrite render_lits. }
  rewrite E1 in *. simpl fst in *. simpl snd in C1.
  destruct (@protect2_Inv IdRef V120.urlRef V120.hrefRef _ _ _
              eq_refl inert_urlRef eq_refl inert_hrefRef I1
              (V120.protectIdRefs (render its1))) as (its2 & A2 & E2 & I2 & O2);
    auto.
  { unfold V120.protectIdRefs.
    rewrite (O1 IdRef) by discriminate. reflexivity. }
  exists its2, A2. split; [| split]; auto.
  f_equal. symmetry. specialize (O2 Base64). simpl in O2. apply O2.
  discriminate.
Qed.

(** ** The early exit *)

Lemma accepts_nous r m :
  accepts r 95%N = false -> Lang r m -> nous m = true.
Proof.
  intros H L. apply Lang_accepts in L. rewrite forallb_forall in L.
  apply forallb_forall. intros c Hc. specialize (L c Hc).
  apply negb_true_iff. destruct (N.eqb_spec c 95); auto. congruence.
Qed.

Lemma pieces_hit_nous r s k :
  accepts r 95%N = false -> Forall hit_nous (pieces r s k).
Proof.
  intros H. eapply Forall_impl; [| apply pieces_hits].
  intros [c | m cs]; simpl; auto. intros L.
  eapply accepts_nous; eauto using LangC_Lang.
Qed.

Lemma In_lower_hit m cs ips :
  In (IHit m cs) ips -> In (Hit m cs) (flat_map lower1 ips).
Proof.
  intros H. apply in_flat_map. exists (IHit m cs). split; auto. now left.
Qed.

Lemma In_lift_split m cs : forall ips,
  In (IHit m cs) ips ->
  exists a b, flat_map lift1 ips = a ++ List.map Lit m ++ b.
Proof.
  induction ips as [| x ips IH]; intros H; [contradiction |].
  destruct H as [-> | H].
  - exists [], (flat_map lift1 ips). reflexivity.
  - destruct (IH H) as (a & b & E). exists (lift1 x ++ a), b.
    simpl. now rewrite E, <- app_assoc.
Qed.

(** A declaration found in the text with placeholders is a declaration of
    the document. *)
Lemma collect_nil A its s :
  Inv A its s -> test V120.xlinkNsPattern s = false ->
  exec_all V120.xlinkNsPattern (render its) = [].
Proof.
  intros [Hok Hb He Hc Hn] T.
  destruct (@pieces_items V120.xlinkNsPattern eq_refl inert_xlinkNsPattern
              its 0 Hok) as (ips & E1 & E2); [lia | |].
  { now apply pieces_hit_nous. }
  apply (@exec_all_items _ _ _ E1). intros m cs Hin.
  assert (L : Lang V120.xlinkNsPattern m).
  { pose proof (pieces_hits V120.xlinkNsPattern (render its) 0) as F.
    rewrite E1 in F. rewrite Forall_forall in F.
    specialize (F _ (@In_lower_hit m cs ips Hin)). simpl in F.
    eauto using LangC_Lang. }
  destruct (@In_lift_split m cs ips Hin) as (a & b & E).
  simpl in E2. rewrite E2 in E.
  assert (T' : test V120.xlinkNsPattern s = true).
  { apply test_true. exists (expand A a), m, (expand A b). split; auto.
    rewrite <- He, E, !expand_app, expand_lits. reflexivity. }
  congruence.
Qed.

(** On a clean document the two restoring loops return the document. *)
Lemma roundtrip s :
  clean s = true ->
  V120.restoreAll
    (snd (V120.protectIdRefs (fst (V120.protectBase64 s))))
    (snd (V120.protectBase64 s))
    (fst (V120.protectIdRefs (fst (V120.protectBase64 s))))
  = s.
Proof.
  intros C. destruct (@protect_Inv s C) as (its & A & E1 & E2 & I).
  rewrite E2. rewrite E1. simpl. now apply restoreAll_Inv.
Qed.

Lemma normalizeStr_early s :
  clean s = true -> test V120.xlinkNsPattern s = false ->
  V120.normalizeStr s = s.
Proof.
  intros C T. pose proof (@roundtrip s C) as R.
  destruct (@protect_Inv s C) as (its & A & E1 & E2 & I).
  unfold V120.normalizeStr.
  destruct (V120.protectBase64 s) as [r1 b64]. simpl in *.
  destruct (V120.protectIdRefs r1) as [r2 ids]. simpl in *.
  injection E2 as -> ->. now rewrite (@collect_nil A its s I T).
Qed.

(** ** The rewriting steps on a text with placeholders *)

Lemma keeps_refl its : lits_ok its -> keeps its its.
Proof. intros H. split; auto. tauto. Qed.

Lemma keeps_trans a b c : keeps a b -> keeps b c -> keeps a c.
Proof.
  intros [_ H1] [Hc H2]. split; auto. intros i Hi.
  rewrite (H1 i Hi). now apply H2.
Qed.

Lemma In_lift_keep i : isPh i = true -> forall ips,
  In i (flat_map lift1 ips) <-> In (IKeep i) ips.
Proof.
  intros Hi. induction ips as [| x ips IH]; simpl; [tauto |].
  rewrite in_app_iff, IH. destruct x as [j | m cs]; simpl.
  - split; [intros [[-> | []] | H] | intros [E | H]]; auto.
    inversion E; auto.
  - split; [intros [H | H] | intros [E | H]]; auto; try discriminate.
    apply in_map_iff in H. destruct H as (c & <- & _). discriminate.
Qed.

Lemma In_rewrite_keep tpl i : isPh i = true -> forall ips,
  In i (flat_map (rewrite1 tpl) ips) <-> In (IKeep i) ips.
Proof.
  intros Hi. induction ips as [| x ips IH]; simpl; [tauto |].
  rewrite in_app_iff, IH. destruct x as [j | m cs]; simpl.
  - split; [intros [[-> | []] | H] | intros [E | H]]; auto.
    inversion E; auto.
  - split; [intros [H | H] | intros [E | H]]; auto; try discriminate.
    apply in_map_iff in H. destruct H as (c & <- & _). discriminate.
Qed.

Lemma lits_ok_rewrite r tpl : forall ips,
  (forall m cs, LangC r m cs -> nous (tpl m cs) = true) ->
  Forall (hit_ok r) (flat_map lower1 ips) ->
  lits_ok (flat_map lift1 ips) ->
  lits_ok (flat_map (rewrite1 tpl) ips).
Proof.
  intros ips Ht. induction ips as [| x ips IH]; intros Hh Hok; simpl in *.
  - constructor.
  - apply Forall_app in Hh. destruct Hh as [Hx Hh].
    apply lits_ok_app in Hok. destruct Hok as [Hox Hok].
    apply lits_ok_app. split; auto.
    destruct x as [j | m cs]; simpl in *; auto.
    apply lits_ok_lits. apply Ht. now inversion Hx.
Qed.

(** A global replace whose pattern matches no underscore and starts in no
    placeholder, and whose replacement holds no underscore. *)
Lemma replace_all_keeps r tpl its :
  nullable r = false -> inert r -> accepts r 95%N = false ->
  (forall m cs, LangC r m cs -> nous (tpl m cs) = true) ->
  lits_ok its ->
  exists its', replace_all r tpl (render its) = render its' /\ keeps its its'.
Proof.
  intros Hn Hin Ha Ht Hok.
  destruct (@pieces_items r Hn Hin its 0 Hok) as (ips & E1 & E2);
    [lia | now apply pieces_hit_nous |].
  simpl in E2. exists (flat_map (rewrite1 tpl) ips). split.
  - now apply replace_all_items.
  - split.
    + apply (@lits_ok_rewrite r); auto.
      * rewrite <- E1. apply pieces_hits.
      * now rewrite E2.
    + intros i Hi. rewrite <- E2.
      now rewrite In_lift_keep, In_rewrite_keep.
Qed.

Lemma toUpper_95 c : Cls.toUpper c = 95%N -> c = 95%N.
Proof. cls. Qed.

Lemma accepts_litsCi N : nous N = true -> accepts (litsCi N) 95%N = false.
Proof.
  induction N as [| c N IH]; intros H; cbn [accepts litsCi]; auto.
  apply nous_cons in H. destruct H as [Hc H]. rewrite (IH H), orb_false_r.
  change (Cls.toUpper 95%N) with 95%N.
  apply N.eqb_neq. intros E. apply Hc. symmetry in E.
  now apply toUpper_95 in E.
Qed.

Lemma accepts_nsToXlinkPattern N :
  nous N = true -> accepts (V120.nsToXlinkPattern N) 95%N = false.
Proof.
  intros H. unfold V120.nsToXlinkPattern. cbn [accepts cat Plus lit].
  now rewrite (accepts_litsCi N H).
Qed.

Lemma accepts_xmlnsPattern N :
  nous N = true -> accepts (V120.xmlnsPattern N) 95%N = false.
Proof.
  intros H. unfold V120.xmlnsPattern. cbn [accepts cat Plus lit].
  now rewrite (accepts_litsCi N H).
Qed.

Lemma group_nous r m cs i :
  accepts r 95%N = false -> LangC r m cs -> nous (group i cs) = true.
Proof.
  intros Ha L. apply group_forallb.
  eapply LangC_captures; eauto.
  eapply accepts_nous; eauto using LangC_Lang.
Qed.

Lemma rewriteAttrs_keeps : forall ps its,
  Forall (fun N => nous N = true) ps -> lits_ok its ->
  exists its', V120.rewriteAttrs ps (render its) = render its' /\
               keeps its its'.
Proof.
  unfold V120.rewriteAttrs.
  induction ps as [| N ps IH]; intros its Hps Hok; cbn [fold_left].
  - exists its. split; auto using keeps_refl.
  - inversion Hps as [| ? ? HN Hps']; subst.
    destruct (@replace_all_keeps (V120.nsToXlinkPattern N)
                (fun _ cs => js " xlink:" ++ group 1 cs ++ js "=") its)
      as (its1 & E1 & K1); auto using inert_nsToXlinkPattern,
                             accepts_nsToXlinkPattern.
    { intros m cs L. rewrite !nous_app.
      rewrite (@group_nous (V120.nsToXlinkPattern N) m cs 1);
        auto using accepts_nsToXlinkPattern. }
    rewrite E1. destruct (IH its1 Hps' (proj1 K1)) as (its2 & E2 & K2).
    exists its2. split; auto. eapply keeps_trans; eauto.
Qed.

Lemma rewriteDecls_keeps : forall ps its,
  Forall (fun N => nous N = true) ps -> lits_ok its ->
  exists its', V120.rewriteDecls ps (render its) = render its' /\
               keeps its its'.
Proof.
  unfold V120.rewriteDecls.
  induction ps as [| N ps IH]; intros its Hps Hok; cbn [fold_left].
  - exists its. split; auto using keeps_refl.
  - inversion Hps as [| ? ? HN Hps']; subst.
    destruct (@replace_all_keeps (V120.xmlnsPattern N)
                (fun _ cs => js "xmlns:xlink" ++ group 1 cs) its)
      as (its1 & E1 & K1); auto using inert_xmlnsPattern,
                             accepts_xmlnsPattern.
    { intros m cs L. rewrite !nous_app.
      rewrite (@group_nous (V120.xmlnsPattern N) m cs 1);
        auto using accepts_xmlnsPattern. }
    rewrite E1. destruct (IH its1 Hps' (proj1 K1)) as (its2 & E2 & K2).
    exists its2. split; auto. eapply keeps_trans; eauto.
Qed.

Lemma exec_all_nous r s :
  accepts r 95%N = false ->
  Forall (fun N => nous N = true) (exec_all r s).
Proof.
  intros Ha. unfold exec_all.
  pose proof (pieces_hits r s 0) as F.
  induction F as [| [c | m cs] ps Hx _ IH]; simpl; auto.
  constructor; auto. simpl in Hx. eapply group_nous; eauto.
Qed.

(** ** The injected declaration *)

Lemma replace_first_spec r tpl : forall s,
  replace_first r tpl s = s \/
  exists pre m cs rest,
    s = pre ++ m ++ rest /\ LangC r m cs /\
    replace_first r tpl s = pre ++ tpl m cs ++ rest.
Proof.
  induction s as [| c s IH]; simpl.
  - destruct (exec r []) as [[m cs] |] eqn:E; auto.
    apply exec_sound in E. destruct E as (rest & E & _ & L).
    right. exists [], m, cs, rest. simpl. repeat split; auto.
    rewrite E, skipn_app, Nat.sub_diag, skipn_all. reflexivity.
  - destruct (exec r (c :: s)) as [[m cs] |] eqn:E.
    + apply exec_sound in E. destruct E as (rest & E & _ & L).
      right. exists [], m, cs, rest. simpl. repeat split; auto.
      rewrite E, skipn_app, Nat.sub_diag, skipn_all. reflexivity.
    + destruct IH as [IH | (pre & m & cs & rest & E1 & L & E2)].
      * left. now rewrite IH.
      * right. exists (c :: pre), m, cs, rest. simpl.
        rewrite E2. repeat split; auto. now rewrite E1.
Qed.

Lemma LangC_lit_nil f w u n : LangC (lit f w) u n -> n = [].
Proof.
  revert u n. induction w as [| a w IH]; intros u n L; simpl in L.
  - now inversion L.
  - inversion L as [| | ? ? ? ? ? ? L1 L2 | | | | |]; subst.
    inversion L1; subst. now rewrite (IH _ _ L2).
Qed.

Lemma ci_lt c : Cls.ci "<" c = true -> c = 60%N.
Proof. cls. Qed.

Lemma ci_gt c : Cls.ci ">" c = true -> c = 62%N.
Proof. cls. Qed.

Lemma ci_nous a c :
  Cls.ci a c = true -> Cls.toUpper (ch a) <> 95%N -> c <> 95%N.
Proof.
  unfold Cls.ci. intros H Ha E. subst c. apply N.eqb_eq in H.
  apply Ha. now rewrite <- H.
Qed.

(** A match of the pattern of the svg tag. *)
Lemma svgOpen_match m cs :
  LangC V120.svgOpen m cs ->
  exists a g,
    m = 60%N :: a ++ g ++ [62%N] /\ cs = [(1, g)] /\
    length a = 3 /\ nous a = true.
Proof.
  unfold V120.svgOpen. simpl. intros L.
  repeat match goal with
         | H : LangC (Cat _ _) _ _ |- _ => inversion H; subst; clear H
         | H : LangC (Chr _) _ _ |- _ => inversion H; subst; clear H
         | H : LangC (Grp _ _) _ _ |- _ => inversion H; subst; clear H
         | H : LangC (Star _) _ _ |- _ => inversion H; subst; clear H
         | H : LangC Eps _ _ |- _ => inversion H; subst; clear H
         end.
  repeat match goal with
         | H : Cls.ci "<" _ = true |- _ => apply ci_lt in H; subst
         | H : Cls.ci ">" _ = true |- _ => apply ci_gt in H; subst
         end.
  match goal with
  | H1 : Cls.ci "s" ?c1 = true, H2 : Cls.ci "v" ?c2 = true,
    H3 : Cls.ci "g" ?c3 = true, H4 : forallb _ ?g = true |- _ =>
      exists [c1; c2; c3], g
  end.
  split; [simpl; now rewrite ?app_nil_r |].
  split; [reflexivity |]. split; [reflexivity |].
  repeat match goal with
         | H : Cls.ci _ _ = true |- _ =>
             apply ci_nous in H; [| vm_compute; discriminate]
         end.
  repeat (apply nous_cons; split; auto).
Qed.

(** A code unit that no placeholder holds is a code unit of the text. *)
Lemma align : forall its pre c post,
  phChar c = false -> render its = pre ++ c :: post ->
  exists its1 its2,
    its = its1 ++ Lit c :: its2 /\ render its1 = pre /\ render its2 = post.
Proof.
  induction its as [| i its IH]; intros pre c post Hc E.
  - destruct pre; discriminate.
  - destruct i as [c0 | q n].
    + change (render (Lit c0 :: its)) with (c0 :: render its) in E.
      destruct pre as [| c1 pre]; simpl in E; injection E as -> E.
      * exists [], its. auto.
      * destruct (IH _ _ _ Hc E) as (its1 & its2 & -> & E1 & E2).
        exists (Lit c1 :: its1), its2. simpl. repeat split; congruence.
    + change (render (Ph q n :: its)) with (placeholder q n ++ render its) in E.
      apply app_eq_app in E. destruct E as (l & [[E1 E2] | [E1 E2]]).
      * destruct l as [| c' l].
        -- simpl in E2. rewrite app_nil_r in E1. symmetry in E2.
           destruct (IH [] _ _ Hc E2) as (its1 & its2 & -> & E3 & E4).
           exists (Ph q n :: its1), its2. simpl. rewrite E3, app_nil_r.
           repeat split; auto.
        -- simpl in E2. injection E2 as -> ->.
           pose proof (placeholder_chars q n) as P.
           rewrite E1, forallb_app in P. apply andb_true_iff in P.
           destruct P as [_ P]. simpl in P. apply andb_true_iff in P.
           destruct P as [P _]. congruence.
      * destruct (IH _ _ _ Hc E2) as (its1 & its2 & -> & E3 & E4).
        exists (Ph q n :: its1), its2. simpl. rewrite E3.
        repeat split; auto.
Qed.

Lemma In_Ph_lits i m : isPh i = true -> ~ In i (List.map Lit m).
Proof.
  intros Hi H. apply in_map_iff in H. destruct H as (c & <- & _).
  discriminate.
Qed.

Lemma ensureDecl_keeps its :
  lits_ok its ->
  exists its', V120.ensureDecl (render its) = render its' /\ keeps its its'.
Proof.
  intros Hok. unfold V120.ensureDecl.
  destruct (contains (js "xlink:href") (render its)
            && negb (contains (js "xmlns:xlink") (render its)));
    [| exists its; auto using keeps_refl].
  match goal with
  | |- context [replace_first ?r ?tpl ?s] =>
      destruct (replace_first_spec r tpl s)
        as [-> | (pre & m & cs & rest & E1 & L & ->)]
  end; [exists its; auto using keeps_refl |].
  apply svgOpen_match in L. destruct L as (a & g & -> & -> & La & Na).
  simpl group. simpl app in E1.
  destruct (@align its pre 60%N _ eq_refl E1) as (its1 & its2 & -> & R1 & R2).
  apply lits_ok_app in Hok. destruct Hok as [Hok1 Hok2].
  inversion Hok2 as [| ? ? _ Hok2']; subst. clear Hok2.
  rewrite <- app_assoc in R2.
  destruct (@run_prefix a its2 _ Hok2' Na R2) as (its3 & -> & R3).
  apply lits_ok_app in Hok2'. destruct Hok2' as [_ Hok3].
  rewrite <- app_assoc in R3. simpl in R3.
  destruct (@align its3 g 62%N rest eq_refl R3) as (itsg & its4 & -> & R4 & R5).
  apply lits_ok_app in Hok3. destruct Hok3 as [Hokg Hok4].
  inversion Hok4 as [| ? ? _ Hok4']; subst. clear Hok4.
  exists (its1 ++ List.map Lit (js "<svg") ++ itsg
            ++ List.map Lit (jsq " xmlns:xlink=`" ++ js V120.xlinkUri
                               ++ jsq "`>") ++ its4).
  split; [| split].
  - rewrite !render_app, !render_lits. now rewrite <- !app_assoc.
  - repeat (apply lits_ok_app; split); auto; now apply lits_ok_lits.
  - intros i Hi. rewrite !in_app_iff. simpl. rewrite !in_app_iff.
    pose proof (@In_Ph_lits i a Hi) as X1.
    pose proof (@In_Ph_lits i (js "<svg") Hi) as X2.
    pose proof (@In_Ph_lits i (jsq " xmlns:xlink=`" ++ js V120.xlinkUri
                                  ++ jsq "`>") Hi) as X3.
    destruct i as [c | q n]; [discriminate |].
    split; intros H; repeat destruct H as [H | H];
      try discriminate; try tauto.
    do 4 right. now right.
Qed.

(** ** The transform on a clean document *)

Lemma contains_app p : forall a b, contains p (a ++ p ++ b) = true.
Proof.
  induction a as [| c a IH]; intros b.
  - simpl app. assert (P : prefixb p (p ++ b) = true).
    { apply prefixb_true. eauto. }
    destruct (p ++ b); simpl in *; now rewrite P.
  - simpl. rewrite IH. apply orb_true_r.
Qed.

Lemma Inv_keeps A its its' s :
  Inv A its s -> keeps its its' -> Inv A its' (expand A its').
Proof.
  intros [Hok Hb He Hc Hn] [Hok' K]. constructor; auto.
  - apply Forall_forall. intros i Hi. destruct i as [c | q n]; simpl; auto.
    apply (K (Ph q n) eq_refl) in Hi.
    unfold bounded in Hb. rewrite Forall_forall in Hb. apply (Hb _ Hi).
  - intros q k Hk. apply (K (Ph q k) eq_refl). now apply Hc.
Qed.

(** The output is the rewritten text with every placeholder replaced by
    the span it stands for. *)
Lemma normalizeStr_expand s :
  clean s = true ->
  exists its A its',
    Inv A its s /\ protectedSpans s = fst A ++ snd A /\ keeps its its' /\
    V120.normalizeStr s = expand A its'.
Proof.
  intros C. destruct (@protect_Inv s C) as (its & A & E1 & E2 & I).
  unfold V120.normalizeStr, protectedSpans.
  destruct (V120.protectBase64 s) as [r1 b64]. cbn [fst snd] in *.
  destruct (V120.protectIdRefs r1) as [r2 ids]. cbn [fst snd] in *.
  injection E1 as E1. injection E2 as -> E2. subst b64 ids.
  destruct (exec_all V120.xlinkNsPattern (render its)) as [| N ps] eqn:EA.
  - exists its, A, its. split; [| split; [| split]]; auto.
    + apply keeps_refl, I.
    + rewrite (restoreAll_Inv I). symmetry. apply I.
  - pose proof (@exec_all_nous V120.xlinkNsPattern (render its) eq_refl) as NP.
    rewrite EA in NP.
    destruct (@rewriteAttrs_keeps (N :: ps) its NP (inv_ok I))
      as (its1 & R1 & K1).
    destruct (@rewriteDecls_keeps (N :: ps) its1 NP (proj1 K1))
      as (its2 & R2 & K2).
    destruct (@ensureDecl_keeps its2 (proj1 K2)) as (its3 & R3 & K3).
    rewrite R1, R2, R3.
    assert (K : keeps its its3) by eauto using keeps_trans.
    exists its, A, its3. split; [| split; [| split]]; auto.
    apply (restoreAll_Inv (Inv_keeps I K)).
Qed.

Lemma normalize_string s :
  V120.normalize (VString s) = VString (V120.normalizeStr s).
Proof. destruct s; reflexivity. Qed.

(** X13.  On a document that holds no underscore and whose recorded
    spans hold none, every span recorded by the protecting scans
    (quoted base64 data URLs, url(#...) expressions and fragment href
    attributes) is a part of the document and is, unchanged, a part of
    the output; among them a [url(#ns1)] of a document that binds [ns1]
    to XLink. *)
Theorem protected_spans_survive s m :
  clean s = true -> In m (protectedSpans s) ->
  contains m s = true /\
  exists out, V120.normalize (VString s) = VString out /\
              contains m out = true.
Proof.
  intros C Hm.
  destruct (@normalizeStr_expand s C) as (its & A & its' & I & E & K & N).
  assert (P : exists q k, In (Ph q k) its /\ nth k (get q A) [] = m).
  { rewrite E in Hm. apply in_app_or in Hm.
    destruct Hm as [Hm | Hm]; apply (In_nth _ _ []) in Hm;
      destruct Hm as (k & Hk & Ek);
      [exists Base64, k | exists IdRef, k]; split; auto;
      now apply (inv_covered I). }
  destruct P as (q & k & Hin & Ek).
  assert (X : forall l, In (Ph q k) l -> contains m (expand A l) = true).
  { intros l Hl. apply in_split in Hl. destruct Hl as (a & b & ->).
    rewrite expand_app. simpl. rewrite Ek. apply contains_app. }
  split.
  - rewrite <- (inv_expand I). now apply X.
  - exists (V120.normalizeStr s). split; [apply normalize_string |].
    rewrite N. apply X. now apply (proj2 K (Ph q k) eq_refl).
Qed.

Lemma protected_spans_survive_witness :
  contains (js "url(#ns1)")
    (jsq "<svg xmlns:ns1=`http://www.w3.org/1999/xlink`><rect fill=`url(#ns1)` style=`fill:url(#ns1)`/><image ns1:href=`data:image/png;base64,AAAA`/></svg>")
    = true /\
  exists out,
    V120.normalize
      (VString (jsq "<svg xmlns:ns1=`http://www.w3.org/1999/xlink`><rect fill=`url(#ns1)` style=`fill:url(#ns1)`/><image ns1:href=`data:image/png;base64,AAAA`/></svg>"))
      = VString out /\
    contains (js "url(#ns1)") out = true.
Proof.
  apply protected_spans_survive.
  - vm_compute. reflexivity.
  - vm_compute. auto.
Defined.

(** X14.  On a document that holds no underscore and whose recorded
    spans hold none, if [hasIssue] answers false then [normalize]
    returns the document. *)
Theorem noop_on_clean_input s :
  clean s = true -> V120.hasIssue (VString s) = false ->
  V120.normalize (VString s) = VString s.
Proof.
  intros C H. rewrite hasIssue_test in H.
  now rewrite normalize_string, normalizeStr_early.
Qed.

Lemma noop_on_clean_input_witness :
  V120.normalize
    (VString (jsq "<svg><image href=`data:image/png;base64,AAAA`/><use xlink:href=`#a`/><rect fill=`url(#g)`/></svg>"))
  = VString (jsq "<svg><image href=`data:image/png;base64,AAAA`/><use xlink:href=`#a`/><rect fill=`url(#g)`/></svg>").
Proof.
  apply noop_on_clean_input; vm_compute; reflexivity.
Defined.

(** ** The placeholders *)

Lemma contains_placeholder q k its :
  In (Ph q k) its -> contains (placeholder q k) (render its) = true.
Proof.
  intros H. apply in_split in H. destruct H as (a & b & ->).
  rewrite render_app. simpl. apply contains_app.
Qed.

(** X15.  On a document that holds no underscore and whose recorded
    spans hold none, the restoring loops applied to the protected text
    return the document, and every placeholder the protecting scans put
    into the text is still in the text after the rewriting steps. *)
Theorem placeholder_roundtrip s :
  clean s = true ->
  let b64 := snd (V120.protectBase64 s) in
  let r2 := fst (V120.protectIdRefs (fst (V120.protectBase64 s))) in
  let ids := snd (V120.protectIdRefs (fst (V120.protectBase64 s))) in
  let ps := exec_all V120.xlinkNsPattern r2 in
  let r3 := V120.ensureDecl (V120.rewriteDecls ps (V120.rewriteAttrs ps r2)) in
  V120.restoreAll ids b64 r2 = s /\
  (forall k, k < length b64 -> contains (placeholder Base64 k) r3 = true) /\
  (forall k, k < length ids -> contains (placeholder IdRef k) r3 = true).
Proof.
  intros C b64 r2 ids ps r3. split; [now apply roundtrip |].
  destruct (@protect_Inv s C) as (its & A & E1 & E2 & I).
  assert (Eb : b64 = fst A) by (unfold b64; now rewrite E1).
  assert (Er : r2 = render its) by (unfold r2; now rewrite E2).
  assert (Ei : ids = snd A) by (unfold ids; now rewrite E2).
  assert (NP : Forall (fun N => nous N = true) ps).
  { now apply exec_all_nous. }
  destruct (@rewriteAttrs_keeps ps its NP (inv_ok I)) as (its1 & R1 & K1).
  destruct (@rewriteDecls_keeps ps its1 NP (proj1 K1)) as (its2 & R2 & K2).
  destruct (@ensureDecl_keeps its2 (proj1 K2)) as (its3 & R3 & K3).
  assert (K : keeps its its3) by eauto using keeps_trans.
  assert (E3 : r3 = render its3).
  { unfold r3. now rewrite Er, R1, R2, R3. }
  rewrite E3, Eb, Ei.
  split; intros k Hk; apply contains_placeholder;
    apply (proj2 K (Ph _ k) eq_refl); now apply (inv_covered I).
Qed.

Lemma placeholder_roundtrip_witness :
  V120.restoreAll
    (snd (V120.protectIdRefs (fst (V120.protectBase64
       (jsq "<svg xmlns:ns1=`http://www.w3.org/1999/xlink`><rect fill=`url(#g)`/><image ns1:href=`data:image/png;base64,AAAA`/></svg>")))))
    (snd (V120.protectBase64
       (jsq "<svg xmlns:ns1=`http://www.w3.org/1999/xlink`><rect fill=`url(#g)`/><image ns1:href=`data:image/png;base64,AAAA`/></svg>")))
    (fst (V120.protectIdRefs (fst (V120.protectBase64
       (jsq "<svg xmlns:ns1=`http://www.w3.org/1999/xlink`><rect fill=`url(#g)`/><image ns1:href=`data:image/png;base64,AAAA`/></svg>")))))
  = jsq "<svg xmlns:ns1=`http://www.w3.org/1999/xlink`><rect fill=`url(#g)`/><image ns1:href=`data:image/png;base64,AAAA`/></svg>".
Proof.
  apply (@placeholder_roundtrip
           (jsq "<svg xmlns:ns1=`http://www.w3.org/1999/xlink`><rect fill=`url(#g)`/><image ns1:href=`data:image/png;base64,AAAA`/></svg>")).
  vm_compute. reflexivity.
Defined.

(** ** Documents on which protecting and restoring are not inverse

    The restoring loops go through the indices upwards and look at the
    text once for each index.  A span that was recorded inside a text
    which a later scan recorded as a span of the same pool comes back
    into the text with the outer span, after the turn of its own index,
    and is never restored. *)

(** C1 on four documents.  A fragment reference inside a fragment href,
    and a data URL in double quotes inside a data URL in apostrophes, are
    left as placeholders in the output; neither document holds an
    underscore.  A data URL in double quotes that starts at the closing
    quote of a recorded one is not recorded, and step 4 rewrites the
    attribute name in it.  On the fourth document the text of the
    fragment reference reads as the placeholder of the data URL and comes
    out as the data URL. *)
Theorem protected_span_not_restored :
  nous (jsq "<use href=`#a url(#b)`/>") = true /\
  Lang V120.urlRef (js "url(#b)") /\
  contains (js "url(#b)") (jsq "<use href=`#a url(#b)`/>") = true /\
  V120.normalize (VString (jsq "<use href=`#a url(#b)`/>"))
  = VString (jsq "<use href=`#a ___IDREF_PLACEHOLDER_0___`/>") /\
  contains (js "url(#b)") (jsq "<use href=`#a ___IDREF_PLACEHOLDER_0___`/>")
  = false /\
  nous (jsq "'data:image/png;base64,`data:image/png;base64,AA`'") = true /\
  Lang V120.base64Dq (jsq "`data:image/png;base64,AA`") /\
  V120.normalize
    (VString (jsq "'data:image/png;base64,`data:image/png;base64,AA`'"))
  = VString (jsq "'data:image/png;base64,___BASE64_PLACEHOLDER_0___'") /\
  nous (jsq "<svg xmlns:ns1=`http://www.w3.org/1999/xlink` a=`data:image/x;base64,`data:image/y;base64, ns1:href=`/>")
  = true /\
  Lang V120.base64Dq (jsq "`data:image/y;base64, ns1:href=`") /\
  contains (jsq "`data:image/y;base64, ns1:href=`")
    (jsq "<svg xmlns:ns1=`http://www.w3.org/1999/xlink` a=`data:image/x;base64,`data:image/y;base64, ns1:href=`/>")
  = true /\
  V120.normalize
    (VString (jsq "<svg xmlns:ns1=`http://www.w3.org/1999/xlink` a=`data:image/x;base64,`data:image/y;base64, ns1:href=`/>"))
  = VString (jsq "<svg xmlns:xlink=`http://www.w3.org/1999/xlink` a=`data:image/x;base64,`data:image/y;base64, xlink:href=`/>") /\
  contains (jsq "`data:image/y;base64, ns1:href=`")
    (jsq "<svg xmlns:xlink=`http://www.w3.org/1999/xlink` a=`data:image/x;base64,`data:image/y;base64, xlink:href=`/>")
  = false /\
  Lang V120.urlRef (js "url(#___BASE64_PLACEHOLDER_0___)") /\
  V120.normalize
    (VString (jsq "url(#___BASE64_PLACEHOLDER_0___) `data:image/png;base64,AAAA`"))
  = VString (jsq "url(#`data:image/png;base64,AAAA`) `data:image/png;base64,AAAA`") /\
  contains (js "url(#___BASE64_PLACEHOLDER_0___)")
    (jsq "url(#`data:image/png;base64,AAAA`) `data:image/png;base64,AAAA`")
  = false.
Proof.
  assert (X : forall r u, exec r u = Some (u, []) -> Lang r u).
  { intros r u E. apply exec_sound in E.
    now destruct E as (rest & _ & L & _). }
  repeat split; try (vm_compute; reflexivity); apply X; vm_compute;
    reflexivity.
Qed.

(** C4 on two documents.  [hasIssue] answers false on both, and
    [normalize] changes both.  The first holds no underscore: its
    fragment reference stands inside a fragment href and comes out as a
    placeholder.  In the second a text reads as the placeholder of the
    data URL and comes out as the data URL. *)
Theorem noop_fails_on_nested_reference :
  nous (jsq "<use href=`#a url(#b)`/>") = true /\
  V120.hasIssue (VString (jsq "<use href=`#a url(#b)`/>")) = false /\
  V120.normalize (VString (jsq "<use href=`#a url(#b)`/>"))
  = VString (jsq "<use href=`#a ___IDREF_PLACEHOLDER_0___`/>") /\
  jsq "<use href=`#a ___IDREF_PLACEHOLDER_0___`/>"
  <> jsq "<use href=`#a url(#b)`/>" /\
  V120.hasIssue
    (VString (jsq "<text>___BASE64_PLACEHOLDER_0___</text><image href=`data:image/png;base64,AAAA`/>"))
  = false /\
  V120.normalize
    (VString (jsq "<text>___BASE64_PLACEHOLDER_0___</text><image href=`data:image/png;base64,AAAA`/>"))
  = VString (jsq "<text>`data:image/png;base64,AAAA`</text><image href=`data:image/png;base64,AAAA`/>") /\
  jsq "<text>`data:image/png;base64,AAAA`</text><image href=`data:image/png;base64,AAAA`/>"
  <> jsq "<text>___BASE64_PLACEHOLDER_0___</text><image href=`data:image/png;base64,AAAA`/>".
Proof. repeat split; vm_compute; try reflexivity; discriminate. Qed.

(** C9 on two documents.  The placeholders are fixed literals, and no
    step looks whether the text holds one already.  The first document
    holds no placeholder: the scan for fragment hrefs records a span that
    holds the placeholder of the scan before it, and the restoring loops
    give back a text that still holds this placeholder.  In the second
    document a text reads as the placeholder the protecting scan then
    chooses for the data URL, and the restoring loops put the data URL in
    both places. *)
Theorem placeholder_roundtrip_fails :
  contains (js "PLACEHOLDER") (jsq "<use href=`#a url(#b)`/>") = false /\
  protectedText (jsq "<use href=`#a url(#b)`/>")
  = js "<use ___IDREF_PLACEHOLDER_1___/>" /\
  protectedSpans (jsq "<use href=`#a url(#b)`/>")
  = [js "url(#b)"; jsq "href=`#a ___IDREF_PLACEHOLDER_0___`"] /\
  V120.restoreAll
    (snd (V120.protectIdRefs (fst (V120.protectBase64
       (jsq "<use href=`#a url(#b)`/>")))))
    (snd (V120.protectBase64 (jsq "<use href=`#a url(#b)`/>")))
    (protectedText (jsq "<use href=`#a url(#b)`/>"))
  = jsq "<use href=`#a ___IDREF_PLACEHOLDER_0___`/>" /\
  contains (placeholder Base64 0)
    (jsq "<text>___BASE64_PLACEHOLDER_0___</text><image href=`data:image/png;base64,AAAA`/>")
  = true /\
  protectedText
    (jsq "<text>___BASE64_PLACEHOLDER_0___</text><image href=`data:image/png;base64,AAAA`/>")
  = js "<text>___BASE64_PLACEHOLDER_0___</text><image href=___BASE64_PLACEHOLDER_0___/>" /\
  V120.restoreAll
    (snd (V120.protectIdRefs (fst (V120.protectBase64
       (jsq "<text>___BASE64_PLACEHOLDER_0___</text><image href=`data:image/png;base64,AAAA`/>")))))
    (snd (V120.protectBase64
       (jsq "<text>___BASE64_PLACEHOLDER_0___</text><image href=`data:image/png;base64,AAAA`/>")))
    (protectedText
       (jsq "<text>___BASE64_PLACEHOLDER_0___</text><image href=`data:image/png;base64,AAAA`/>"))
  = jsq "<text>`data:image/png;base64,AAAA`</text><image href=`data:image/png;base64,AAAA`/>".
Proof. repeat split; vm_compute; reflexivity. Qed.

(** ** Idempotence *)

(** C3 on a document that holds no underscore.  Two fragment references
    stand inside a fragment href, and a second fragment href follows.
    The first pass leaves the two placeholders of the references in the
    output; in the second pass the second of them reads as the
    placeholder of the second href and is replaced by it. *)
Theorem idempotence_fails :
  nous (jsq "<a href=`#a url(#b) url(#c)`/><b href=`#d`/>") = true /\
  V120.normalize
    (VString (jsq "<a href=`#a url(#b) url(#c)`/><b href=`#d`/>"))
  = VString (jsq "<a href=`#a ___IDREF_PLACEHOLDER_0___ ___IDREF_PLACEHOLDER_1___`/><b href=`#d`/>") /\
  V120.normalize
    (V120.normalize
       (VString (jsq "<a href=`#a url(#b) url(#c)`/><b href=`#d`/>")))
  = VString (jsq "<a href=`#a ___IDREF_PLACEHOLDER_0___ href=`#d``/><b href=`#d`/>") /\
  V120.normalize
    (V120.normalize
       (VString (jsq "<a href=`#a url(#b) url(#c)`/><b href=`#d`/>")))
  <> V120.normalize
       (VString (jsq "<a href=`#a url(#b) url(#c)`/><b href=`#d`/>")).
Proof. repeat split; vm_compute; try reflexivity; discriminate. Qed.

(** ** The rewriting guarantee *)

(** C6 on two documents.  A fragment href keeps its numeric prefix while
    the declaration of the prefix is renamed; and a tag that declares
    XLink under [xlink] and under [ns1] comes out with two [xmlns:xlink]
    attributes.  Version 1.1.0 rewrites the first document fully and
    leaves one declaration in the second. *)
Theorem rewrite_guarantee_fails :
  V120.normalize
    (VString (jsq "<svg xmlns:ns1=`http://www.w3.org/1999/xlink`><use ns1:href=`#a`/></svg>"))
  = VString (jsq "<svg xmlns:xlink=`http://www.w3.org/1999/xlink`><use ns1:href=`#a`/></svg>") /\
  V120.normalize
    (VString (jsq "<svg xmlns:xlink=`http://www.w3.org/1999/xlink` xmlns:ns1=`http://www.w3.org/1999/xlink`><image ns1:href=`a.png`/></svg>"))
  = VString (jsq "<svg xmlns:xlink=`http://www.w3.org/1999/xlink` xmlns:xlink=`http://www.w3.org/1999/xlink`><image xlink:href=`a.png`/></svg>") /\
  V110.normalize
    (VString (jsq "<svg xmlns:ns1=`http://www.w3.org/1999/xlink`><use ns1:href=`#a`/></svg>"))
  = VString (jsq "<svg xmlns:xlink=`http://www.w3.org/1999/xlink` xmlns=`http://www.w3.org/2000/svg`><use xlink:href=`#a`/></svg>") /\
  V110.normalize
    (VString (jsq "<svg xmlns:xlink=`http://www.w3.org/1999/xlink` xmlns:ns1=`http://www.w3.org/1999/xlink`><image ns1:href=`a.png`/></svg>"))
  = VString (jsq "<svg xmlns:xlink=`http://www.w3.org/1999/xlink` xmlns=`http://www.w3.org/2000/svg`><image xlink:href=`a.png`/></svg>").
Proof. repeat split; vm_compute; reflexivity. Qed.


(** ** The declaration on the svg tag *)

Lemma replace_first_first r tpl : forall s,
  test r s = true ->
  exists pre m cs rest,
    s = pre ++ m ++ rest /\ LangC r m cs /\
    (forall u v, pre = u ++ v -> v <> [] -> exec r (v ++ m ++ rest) = None) /\
    replace_first r tpl s = pre ++ tpl m cs ++ rest.
Proof.
  induction s as [| c s IH]; simpl.
  - destruct (exec r []) as [[m cs] |] eqn:E; [| discriminate].
    intros _. apply exec_sound in E. destruct E as (rest & E & _ & L).
    exists [], m, cs, rest. simpl. repeat split; auto.
    + intros u v Ev Hv. destruct u; destruct v; try discriminate.
      contradiction.
    + rewrite E, skipn_app, Nat.sub_diag, skipn_all. reflexivity.
  - destruct (exec r (c :: s)) as [[m cs] |] eqn:E.
    + intros _. apply exec_sound in E. destruct E as (rest & E & _ & L).
      exists [], m, cs, rest. simpl. repeat split; auto.
      * intros u v Ev Hv. destruct u; destruct v; try discriminate.
        contradiction.
      * rewrite E, skipn_app, Nat.sub_diag, skipn_all. reflexivity.
    + intros T. destruct (IH T) as (pre & m & cs & rest & E1 & L & F & E2).
      exists (c :: pre), m, cs, rest. simpl. rewrite E2.
      repeat split; auto; [now rewrite E1 |].
      intros u v Ev Hv. destruct u as [| c' u].
      * simpl in Ev. subst v. simpl. now rewrite <- E1.
      * simpl in Ev. injection Ev as -> Ev. now apply (F u v).
Qed.

Lemma svgOpen_match_full m cs :
  LangC V120.svgOpen m cs ->
  exists a g,
    m = 60%N :: a ++ g ++ [62%N] /\ cs = [(1, g)] /\
    eq_ci a (js "svg") /\ forallb (Cls.neg (Cls.eq ">")) g = true.
Proof.
  unfold V120.svgOpen. simpl. intros L.
  repeat match goal with
         | H : LangC (Cat _ _) _ _ |- _ => inversion H; subst; clear H
         | H : LangC (Chr _) _ _ |- _ => inversion H; subst; clear H
         | H : LangC (Grp _ _) _ _ |- _ => inversion H; subst; clear H
         | H : LangC (Star _) _ _ |- _ => inversion H; subst; clear H
         | H : LangC Eps _ _ |- _ => inversion H; subst; clear H
         end.
  repeat match goal with
         | H : Cls.ci "<" _ = true |- _ => apply ci_lt in H; subst
         | H : Cls.ci ">" _ = true |- _ => apply ci_gt in H; subst
         end.
  match goal with
  | H1 : Cls.ci "s" ?c1 = true, H2 : Cls.ci "v" ?c2 = true,
    H3 : Cls.ci "g" ?c3 = true, H4 : forallb _ ?g = true |- _ =>
      exists [c1; c2; c3], g;
      unfold Cls.ci in H1, H2, H3;
      apply N.eqb_eq in H1; apply N.eqb_eq in H2; apply N.eqb_eq in H3
  end.
  split; [simpl; now rewrite ?app_nil_r |].
  split; [reflexivity |]. split; auto.
  unfold eq_ci. change (js "svg") with [ch "s"; ch "v"; ch "g"].
  cbn [List.map]. congruence.
Qed.

(** X16.  The injecting step by itself (step 6 of version 1.2.0, step 5
    of version 1.1.0): when the text it receives holds [xlink:href], no
    [xmlns:xlink] and an svg tag, it adds the declaration to the first
    svg tag, immediately before its closing [>], and changes nothing
    else. *)
Theorem ensureDecl_injects t :
  contains (js "xlink:href") t = true ->
  contains (js "xmlns:xlink") t = false ->
  test V120.svgOpen t = true ->
  exists pre a g rest,
    t = pre ++ 60%N :: a ++ g ++ 62%N :: rest /\
    eq_ci a (js "svg") /\
    forallb (Cls.neg (Cls.eq ">")) g = true /\
    (forall u v, pre = u ++ v -> v <> [] ->
                 exec V120.svgOpen (v ++ 60%N :: a ++ g ++ 62%N :: rest)
                 = None) /\
    V120.ensureDecl t
    = pre ++ js "<svg" ++ g
          ++ jsq " xmlns:xlink=`http://www.w3.org/1999/xlink`>" ++ rest.
Proof.
  intros H1 H2 T. unfold V120.ensureDecl. rewrite H1, H2. simpl andb.
  match goal with
  | |- context [replace_first ?r ?tpl t] =>
      destruct (@replace_first_first r tpl t T)
        as (pre & m & cs & rest & E & L & F & ->)
  end.
  apply svgOpen_match_full in L. destruct L as (a & g & -> & -> & Ea & Hg).
  exists pre, a, g, rest.
  match type of E with
  | _ = _ ++ ?x =>
      assert (X : x = 60%N :: a ++ g ++ 62%N :: rest)
        by (simpl; now rewrite <- !app_assoc)
  end.
  split; [now rewrite E, X |]. split; [exact Ea |]. split; [exact Hg |].
  split.
  - intros u v Hu Hv. rewrite <- X. exact (F u v Hu Hv).
  - simpl group. rewrite <- !app_assoc. reflexivity.
Qed.

Lemma ensureDecl_injects_witness :
  exists pre a g rest,
    jsq "<?xml?><SVG width=`1`><use xlink:href=`a.svg`/></SVG>"
    = pre ++ 60%N :: a ++ g ++ 62%N :: rest /\
    eq_ci a (js "svg") /\
    forallb (Cls.neg (Cls.eq ">")) g = true /\
    (forall u v, pre = u ++ v -> v <> [] ->
                 exec V120.svgOpen (v ++ 60%N :: a ++ g ++ 62%N :: rest)
                 = None) /\
    V120.ensureDecl
      (jsq "<?xml?><SVG width=`1`><use xlink:href=`a.svg`/></SVG>")
    = pre ++ js "<svg" ++ g
          ++ jsq " xmlns:xlink=`http://www.w3.org/1999/xlink`>" ++ rest.
Proof.
  apply ensureDecl_injects; vm_compute; reflexivity.
Defined.

(** ** Numeric prefixes bound to other namespaces *)


(** ** Counting the occurrences of a token *)

Lemma prefixb_barrier c : forall t u w,
  ~ In c t -> prefixb t (u ++ c :: w) = prefixb t u.
Proof.
  induction t as [| x t IH]; intros u w H; simpl; auto.
  destruct u as [| y u]; simpl.
  - destruct (N.eqb_spec x c); auto. subst. exfalso. apply H. now left.
  - rewrite IH; auto. intros X. apply H. now right.
Qed.

Lemma count_nil t : t <> [] -> count t [] = 0.
Proof. destruct t; [contradiction | reflexivity]. Qed.

Lemma count_barrier t c : t <> [] -> ~ In c t -> forall u w,
  count t (u ++ c :: w) = count t u + count t w.
Proof.
  intros Ht Hc. induction u as [| y u IH]; intros w.
  - rewrite count_nil by auto. simpl.
    destruct t as [| x t]; [contradiction |]. simpl.
    destruct (N.eqb_spec x c); auto. subst. exfalso. apply Hc. now left.
  - change (count t ((y :: u) ++ c :: w))
      with ((if prefixb t ((y :: u) ++ c :: w) then 1 else 0)
            + count t (u ++ c :: w)).
    rewrite prefixb_barrier by auto. rewrite IH. simpl. lia.
Qed.

Lemma count_quiet t x : t <> [] -> quiet t x -> forall u w,
  count t (u ++ x ++ w) = count t u + count t w.
Proof.
  intros Ht (c1 & x' & c2 & -> & H1 & H2 & H0) u w.
  simpl. rewrite <- app_assoc. simpl.
  rewrite count_barrier by auto. rewrite count_barrier by auto. lia.
Qed.

(** No occurrence starts at a code unit that is not the first of the
    token. *)
Lemma count_skip x t : forall u w,
  forallb (fun c => negb (N.eqb x c)) u = true ->
  count (x :: t) (u ++ w) = count (x :: t) w.
Proof.
  induction u as [| c u IH]; intros w H; auto.
  simpl in H. apply andb_true_iff in H. destruct H as [Hc H].
  apply negb_true_iff in Hc.
  change (count (x :: t) ((c :: u) ++ w))
    with ((if prefixb (x :: t) (c :: u ++ w) then 1 else 0)
          + count (x :: t) (u ++ w)).
  simpl prefixb. rewrite Hc. simpl. now apply IH.
Qed.

Lemma prefixb_needs c t w : In c t -> ~ In c w -> prefixb t w = false.
Proof.
  intros Ht Hw. destruct (prefixb t w) eqn:E; auto. exfalso.
  apply prefixb_true in E. destruct E as (z & ->). apply Hw.
  apply in_or_app. now left.
Qed.

(** No occurrence in a text that lacks a code unit of the token. *)
Lemma count_lacks c t : In c t -> forall w, ~ In c w -> count t w = 0.
Proof.
  intros Ht. induction w as [| y w IH]; intros Hw.
  - simpl. now rewrite (@prefixb_needs c t [] Ht Hw).
  - change (count t (y :: w))
      with ((if prefixb t (y :: w) then 1 else 0) + count t w).
    rewrite (@prefixb_needs c t (y :: w) Ht Hw), IH; auto. intros X. apply Hw. now right.
Qed.

Lemma prefixb_map (f : char -> char) : forall t w,
  prefixb t w = true -> prefixb (List.map f t) (List.map f w) = true.
Proof.
  intros t w H. apply prefixb_true in H. destruct H as (z & ->).
  rewrite map_app. apply prefixb_true. eauto.
Qed.

Lemma count_map_zero (f : char -> char) t : forall w,
  count (List.map f t) (List.map f w) = 0 -> count t w = 0.
Proof.
  induction w as [| y w IH]; simpl; intros H.
  - destruct (prefixb t []) eqn:E; auto.
    apply (prefixb_map f) in E. simpl in E. rewrite E in H. discriminate.
  - destruct (prefixb t (y :: w)) eqn:E.
    + apply (prefixb_map f) in E. simpl in E. rewrite E in H. discriminate.
    + simpl. apply IH.
      destruct (prefixb (List.map f t) (f y :: List.map f w)); simpl in H; lia.
Qed.

(** Two runs of digits that end at a code unit that is no digit. *)
Lemma digits_end : forall a b c d x y,
  forallb Cls.digit a = true -> forallb Cls.digit b = true ->
  Cls.digit c = false -> Cls.digit d = false ->
  a ++ c :: x = b ++ d :: y -> a = b /\ c = d.
Proof.
  induction a as [| p a IH]; intros [| q b] c d x y Ha Hb Hc Hd E;
    simpl in *.
  - injection E as -> _. auto.
  - injection E as -> _. apply andb_true_iff in Hb. destruct Hb. congruence.
  - injection E as -> _. apply andb_true_iff in Ha. destruct Ha. congruence.
  - injection E as -> E.
    apply andb_true_iff in Ha. apply andb_true_iff in Hb.
    destruct (IH b c d x y) as [-> ->]; tauto.
Qed.

Lemma same_count_refl t its : same_count t its its.
Proof. now intros A u. Qed.

Lemma same_count_trans t a b c :
  same_count t a b -> same_count t b c -> same_count t a c.
Proof. intros H1 H2 A u. now rewrite H1. Qed.

Lemma count_step t A tpl : t <> [] -> forall ips,
  (forall m cs, In (IHit m cs) ips -> quiet t m /\ quiet t (tpl m cs)) ->
  forall u,
    count t (u ++ expand A (flat_map lift1 ips))
    = count t (u ++ expand A (flat_map (rewrite1 tpl) ips)).
Proof.
  intros Ht. induction ips as [| x ips IH]; intros H u; auto.
  assert (H' : forall m cs, In (IHit m cs) ips ->
                            quiet t m /\ quiet t (tpl m cs)).
  { intros m cs Hin. apply H. now right. }
  destruct x as [i | m cs].
  - change (flat_map lift1 (IKeep i :: ips)) with (i :: flat_map lift1 ips).
    change (flat_map (rewrite1 tpl) (IKeep i :: ips))
      with (i :: flat_map (rewrite1 tpl) ips).
    change (expand A (i :: flat_map lift1 ips))
      with (expand1 A i ++ expand A (flat_map lift1 ips)).
    change (expand A (i :: flat_map (rewrite1 tpl) ips))
      with (expand1 A i ++ expand A (flat_map (rewrite1 tpl) ips)).
    rewrite !app_assoc. now apply IH.
  - change (flat_map lift1 (IHit m cs :: ips))
      with (List.map Lit m ++ flat_map lift1 ips).
    change (flat_map (rewrite1 tpl) (IHit m cs :: ips))
      with (List.map Lit (tpl m cs) ++ flat_map (rewrite1 tpl) ips).
    rewrite !expand_app, !expand_lits.
    destruct (H m cs (or_introl eq_refl)) as [Q1 Q2].
    rewrite (count_quiet Ht Q1), (count_quiet Ht Q2). f_equal.
    apply (IH H' []).
Qed.

(** A global replace that keeps the placeholders and the number of
    occurrences of [t]. *)
Lemma replace_all_counts r tpl its t :
  nullable r = false -> inert r -> accepts r 95%N = false ->
  (forall m cs, LangC r m cs -> nous (tpl m cs) = true) ->
  t <> [] ->
  (forall m cs, LangC r m cs -> quiet t m /\ quiet t (tpl m cs)) ->
  lits_ok its ->
  exists its',
    replace_all r tpl (render its) = render its' /\
    keeps its its' /\ same_count t its its'.
Proof.
  intros Hn Hin Ha Ht Hne Hq Hok.
  destruct (@pieces_items r Hn Hin its 0 Hok) as (ips & E1 & E2);
    [lia | now apply pieces_hit_nous |].
  simpl in E2. exists (flat_map (rewrite1 tpl) ips).
  pose proof (pieces_hits r (render its) 0) as F. rewrite E1 in F.
  split; [now apply replace_all_items | split; [split |]].
  - apply (@lits_ok_rewrite r); auto. now rewrite E2.
  - intros i Hi. rewrite <- E2.
    now rewrite In_lift_keep, In_rewrite_keep.
  - intros A u. rewrite <- E2. apply count_step; auto.
    intros m cs Hm. apply Hq. rewrite Forall_forall in F.
    apply (F _ (@In_lower_hit m cs ips Hm)).
Qed.

(** ** The matches of the two rewriting patterns *)

Lemma LangC_litsCi M : forall u n,
  LangC (litsCi M) u n -> n = [] /\ eq_ci u M.
Proof.
  unfold eq_ci. induction M as [| c M IH]; intros u n L; simpl in L.
  - inversion L. auto.
  - inversion L as [| | ? ? ? ? ? ? L1 L2 | | | | |]; subst.
    inversion L1; subst. destruct (IH _ _ L2) as [-> E].
    split; auto. simpl. f_equal; auto. now apply N.eqb_eq.
Qed.

Lemma toUpper_digit x d :
  Cls.digit d = true -> Cls.toUpper x = Cls.toUpper d -> x = d.
Proof. cls. Qed.

Lemma eq_ci_digits : forall u M,
  forallb Cls.digit M = true -> eq_ci u M -> u = M.
Proof.
  unfold eq_ci. induction u as [| x u IH]; intros [| d M] HM E;
    try discriminate; auto.
  simpl in *. apply andb_true_iff in HM. destruct HM as [Hd HM].
  injection E as E1 E2. f_equal; auto. now apply toUpper_digit.
Qed.

Ltac norm_app := repeat (progress (simpl; rewrite <- ?app_assoc)).

Ltac invert_LangC :=
  repeat match goal with
         | H : LangC (Cat _ _) _ _ |- _ => inversion H; subst; clear H
         | H : LangC (Chr _) _ _ |- _ => inversion H; subst; clear H
         | H : LangC (Grp _ _) _ _ |- _ => inversion H; subst; clear H
         | H : LangC (Star _) _ _ |- _ => inversion H; subst; clear H
         | H : LangC Eps _ _ |- _ => inversion H; subst; clear H
         | H : LangC (litsCi _) _ _ |- _ =>
             apply LangC_litsCi in H; destruct H as [? ?]; subst
         end.

Lemma ci_colon c : Cls.ci ":" c = true -> c = 58%N.
Proof. cls. Qed.

(** A match of the attribute pattern of the digit group [M]. *)
Lemma nsToXlink_match M m cs :
  forallb Cls.digit M = true ->
  LangC (V120.nsToXlinkPattern M) m cs ->
  exists w0 ws1 n s c0 name ws2,
    m = w0 :: (ws1 ++ n :: s :: M ++ 58%N :: c0 :: name ++ ws2) ++ [61%N] /\
    cs = [(1, c0 :: name)] /\
    Cls.space w0 = true /\ forallb Cls.space ws1 = true /\
    Cls.ci "n" n = true /\ Cls.ci "s" s = true /\
    Cls.alpha c0 = true /\ forallb Cls.nameChar name = true /\
    forallb Cls.space ws2 = true.
Proof.
  intros HM L. unfold V120.nsToXlinkPattern, Plus in L. simpl in L.
  invert_LangC.
  repeat match goal with
         | H : Cls.ci ":" _ = true |- _ => apply ci_colon in H; subst
         | H : Cls.ci "=" _ = true |- _ => apply ci_eq_sign in H; subst
         | H : eq_ci ?u M |- _ => apply (@eq_ci_digits u M HM) in H; subst
         end.
  match goal with
  | H0 : Cls.space ?w0 = true, H1 : forallb Cls.space ?ws1 = true,
    Hn : Cls.ci "n" ?n = true, Hs : Cls.ci "s" ?s = true,
    Ha : Cls.alpha ?c0 = true, Hb : forallb Cls.nameChar ?name = true,
    Hc : forallb Cls.space ?ws2 = true |- _ =>
      exists w0, ws1, n, s, c0, name, ws2
  end.
  split; [norm_app; reflexivity |].
  repeat split; auto.
Qed.

Lemma LangC_lit_ci w u n : LangC (lit Cls.ci w) u n -> n = [] /\ eq_ci u (js w).
Proof.
  intros L. split; [eapply LangC_lit_nil; eauto |].
  apply Lang_lit_ci. eauto using LangC_Lang.
Qed.

Lemma LangC_Cat_inv a b u n :
  LangC (Cat a b) u n ->
  exists u1 u2 n1 n2,
    u = u1 ++ u2 /\ n = n2 ++ n1 /\ LangC a u1 n1 /\ LangC b u2 n2.
Proof. inversion 1; subst. eauto 10. Qed.

Lemma LangC_Grp_inv i a u n :
  LangC (Grp i a) u n -> exists n', n = (i, u) :: n' /\ LangC a u n'.
Proof. inversion 1; subst. eauto. Qed.

(** A match of the declaration pattern of the digit group [M]. *)
Lemma xmlns_match M m cs :
  forallb Cls.digit M = true ->
  LangC (V120.xmlnsPattern M) m cs ->
  exists X ws1 ws2 q1 U q2,
    m = X ++ M ++ (ws1 ++ 61%N :: ws2 ++ q1 :: U) ++ [q2] /\
    cs = [(1, (ws1 ++ 61%N :: ws2 ++ q1 :: U) ++ [q2])] /\
    eq_ci X (js "xmlns:ns") /\
    forallb Cls.space ws1 = true /\ forallb Cls.space ws2 = true /\
    Cls.quote q1 = true /\ eq_ci U (js V120.xlinkUri) /\
    Cls.quote q2 = true.
Proof.
  intros HM L. unfold V120.xmlnsPattern in L. cbn [cat] in L.
  repeat match goal with
         | H : LangC (Cat _ _) _ _ |- _ =>
             apply LangC_Cat_inv in H;
             destruct H as (? & ? & ? & ? & ? & ? & ? & ?); subst
         | H : LangC (Grp _ _) _ _ |- _ =>
             apply LangC_Grp_inv in H; destruct H as (? & ? & ?); subst
         | H : LangC (Chr _) _ _ |- _ => inversion H; subst; clear H
         | H : LangC (Star _) _ _ |- _ => inversion H; subst; clear H
         | H : LangC Eps _ _ |- _ => inversion H; subst; clear H
         | H : LangC (litsCi _) _ _ |- _ =>
             apply LangC_litsCi in H; destruct H as [? ?]; subst
         | H : LangC (lit Cls.ci _) _ _ |- _ =>
             apply LangC_lit_ci in H; destruct H as [? ?]; subst
         end.
  repeat match goal with
         | H : Cls.ci "=" _ = true |- _ => apply ci_eq_sign in H; subst
         | H : eq_ci ?u M |- _ => apply (@eq_ci_digits u M HM) in H; subst
         end.
  match goal with
  | HX : eq_ci ?X (js "xmlns:ns"), HU : eq_ci ?U (js V120.xlinkUri)
    |- exists _ _ _ _ _ _,
        _ ++ _ ++ (?ws1 ++ _ ++ ?ws2 ++ [?q1] ++ _ ++ [?q2] ++ _) ++ _ = _
        /\ _ =>
      exists X, ws1, ws2, q1, U, q2
  end.
  split; [norm_app; reflexivity |].
  split; [norm_app; reflexivity |]. repeat split; auto.
Qed.

(** ** The token of another digit group is not touched *)

Lemma nsToken_cons N : nsToken N = 110%N :: 115%N :: N ++ [58%N].
Proof. reflexivity. Qed.

Lemma nsToken_nonempty N : nsToken N <> [].
Proof. discriminate. Qed.

Lemma In_nsToken c N :
  In c (nsToken N) <-> c = 110%N \/ c = 115%N \/ In c N \/ c = 58%N.
Proof.
  rewrite nsToken_cons. simpl. rewrite in_app_iff. simpl.
  intuition congruence.
Qed.

Lemma not_in_token c N :
  forallb Cls.digit N = true -> Cls.digit c = false ->
  c <> 110%N -> c <> 115%N -> c <> 58%N -> ~ In c (nsToken N).
Proof.
  intros HN Hc H1 H2 H3 H. apply In_nsToken in H.
  destruct H as [H | [H | [H | H]]]; auto.
  rewrite forallb_forall in HN. rewrite (HN c H) in Hc. discriminate.
Qed.

Lemma token_at N M a b c tail :
  forallb Cls.digit N = true -> forallb Cls.digit M = true ->
  Cls.digit c = false ->
  prefixb (nsToken N) (a :: b :: M ++ c :: tail) = true ->
  N = M /\ c = 58%N.
Proof.
  intros HN HM Hc H. apply prefixb_true in H. destruct H as (z & E).
  rewrite nsToken_cons in E. simpl in E. rewrite <- app_assoc in E.
  simpl in E. injection E as _ _ E.
  destruct (@digits_end M N c 58%N tail z HM HN Hc eq_refl E). auto.
Qed.

Lemma count_cons_at t c w :
  prefixb t (c :: w) = false -> count t (c :: w) = count t w.
Proof. intros H. simpl count. simpl in H. now rewrite H. Qed.

Lemma count_cons_ne x t c w :
  x <> c -> count (x :: t) (c :: w) = count (x :: t) w.
Proof.
  intros H. apply count_cons_at. simpl.
  destruct (N.eqb_spec x c); auto. contradiction.
Qed.

Lemma forallb_impl (P Q : char -> bool) u :
  (forall c, P c = true -> Q c = true) ->
  forallb P u = true -> forallb Q u = true.
Proof.
  intros H. rewrite !forallb_forall. auto.
Qed.

Lemma space_facts c :
  Cls.space c = true ->
  Cls.digit c = false /\ c <> 110%N /\ c <> 115%N /\ c <> 58%N.
Proof.
  intros H. unfold Cls.space in H.
  repeat (apply orb_true_iff in H; destruct H as [H | H]);
    repeat (apply andb_true_iff in H; destruct H as [? ?]);
    repeat match goal with
           | H : N.leb _ _ = true |- _ => apply N.leb_le in H
           | H : N.eqb _ _ = true |- _ => apply N.eqb_eq in H
           end;
    (split; [cls | lia]).
Qed.

Lemma quote_facts c :
  Cls.quote c = true ->
  Cls.digit c = false /\ c <> 110%N /\ c <> 115%N /\ c <> 58%N.
Proof. intros H. split; cls. Qed.

Lemma skip_space u :
  forallb Cls.space u = true ->
  forallb (fun c => negb (N.eqb 110 c)) u = true.
Proof.
  apply forallb_impl. intros c H. apply space_facts in H.
  apply negb_true_iff, N.eqb_neq. intuition congruence.
Qed.

Lemma skip_digit u :
  forallb Cls.digit u = true ->
  forallb (fun c => negb (N.eqb 110 c)) u = true.
Proof.
  apply forallb_impl. intros c H. apply negb_true_iff, N.eqb_neq. cls.
Qed.

Lemma no_colon_space u : forallb Cls.space u = true -> ~ In 58%N u.
Proof.
  intros H X. rewrite forallb_forall in H. specialize (H _ X).
  discriminate.
Qed.

Lemma no_colon_name u : forallb Cls.nameChar u = true -> ~ In 58%N u.
Proof.
  intros H X. rewrite forallb_forall in H. specialize (H _ X).
  discriminate.
Qed.

Lemma count_skip_tok N u w :
  forallb (fun c => negb (N.eqb 110 c)) u = true ->
  count (nsToken N) (u ++ w) = count (nsToken N) w.
Proof. rewrite nsToken_cons. apply count_skip. Qed.

Lemma count_ne_tok N c w :
  110%N <> c -> count (nsToken N) (c :: w) = count (nsToken N) w.
Proof. rewrite nsToken_cons. apply count_cons_ne. Qed.

Lemma count_no_colon N w : ~ In 58%N w -> count (nsToken N) w = 0.
Proof.
  apply count_lacks. apply In_nsToken. auto.
Qed.

Lemma token_not_at N M a b c tail :
  forallb Cls.digit N = true -> forallb Cls.digit M = true ->
  Cls.digit c = false -> N <> M \/ c <> 58%N ->
  prefixb (nsToken N) (a :: b :: M ++ c :: tail) = false.
Proof.
  intros HN HM Hc H.
  destruct (prefixb _ _) eqn:E; auto.
  destruct (@token_at N M a b c tail HN HM Hc E). tauto.
Qed.

Lemma count_uri N U :
  forallb Cls.digit N = true -> eq_ci U (js V120.xlinkUri) ->
  count (nsToken N) U = 0.
Proof.
  intros HN HU. apply (count_map_zero Cls.toUpper).
  unfold eq_ci in HU. rewrite HU. reflexivity.
Qed.

Lemma ci_ne a c :
  Cls.ci a c = true -> Cls.toUpper (ch a) <> 78%N -> 110%N <> c.
Proof.
  unfold Cls.ci. intros H Ha E. subst c. apply N.eqb_eq in H.
  apply Ha. now rewrite <- H.
Qed.

(** The matches of the attribute pattern of another digit group, and
    what replaces them. *)
Lemma quiet_attr N M m cs :
  forallb Cls.digit N = true -> forallb Cls.digit M = true -> N <> M ->
  LangC (V120.nsToXlinkPattern M) m cs ->
  quiet (nsToken N) m /\
  quiet (nsToken N) (js " xlink:" ++ group 1 cs ++ js "=").
Proof.
  intros HN HM Hne L.
  destruct (@nsToXlink_match M m cs HM L)
    as (w0 & ws1 & n & s & c0 & name & ws2 & -> & -> & H0 & H1 & Hn & Hs &
        Ha & Hb & H2).
  assert (T : ~ In 58%N (c0 :: name ++ ws2)).
  { intros [X | X]; [subst; discriminate |].
    apply in_app_or in X. destruct X as [X | X].
    - now apply no_colon_name in X.
    - now apply no_colon_space in X. }
  assert (T' : ~ In 58%N (c0 :: name)).
  { intros X. apply T. simpl in *. rewrite in_app_iff. tauto. }
  assert (E61 : ~ In 61%N (nsToken N)).
  { apply not_in_token; auto; discriminate. }
  split.
  - exists w0, (ws1 ++ n :: s :: M ++ 58%N :: c0 :: name ++ ws2), 61%N.
    split; [reflexivity |]. split; [| split; [exact E61 |]].
    + apply space_facts in H0. apply not_in_token; tauto.
    + rewrite count_skip_tok by now apply skip_space.
      rewrite count_cons_at
        by (apply token_not_at; auto).
      replace (s :: M ++ 58%N :: c0 :: name ++ ws2)
        with ((s :: M ++ [58%N]) ++ c0 :: name ++ ws2)
        by (norm_app; reflexivity).
      rewrite count_skip_tok; [now apply count_no_colon |].
      cbn [forallb app]. apply andb_true_iff. split.
      * apply negb_true_iff, N.eqb_neq.
        apply (@ci_ne "s"%char s Hs). discriminate.
      * rewrite forallb_app. apply andb_true_iff. split; [| reflexivity].
        now apply skip_digit.
  - simpl group.
    exists 32%N, (js "xlink:" ++ c0 :: name), 61%N.
    split; [norm_app; reflexivity |].
    split; [apply not_in_token; auto; discriminate |].
    split; [exact E61 |].
    change (js "xlink:" ++ c0 :: name)
      with ([120; 108; 105]%N ++ 110%N :: [107; 58]%N ++ c0 :: name).
    rewrite count_skip_tok by reflexivity.
    rewrite count_cons_at by reflexivity.
    rewrite count_skip_tok by reflexivity.
    now apply count_no_colon.
Qed.

Lemma eq_ci_cons u k w :
  eq_ci u (k :: w) ->
  exists c u', u = c :: u' /\ Cls.toUpper c = Cls.toUpper k /\ eq_ci u' w.
Proof.
  unfold eq_ci. destruct u as [| c u]; [discriminate |].
  cbn [List.map]. intros E. injection E as E1 E2. exists c, u. auto.
Qed.

Lemma toUpper_ne c k : Cls.toUpper c = k -> k <> 78%N -> 110%N <> c.
Proof. intros H Hk E. subst c. now apply Hk. Qed.

Lemma toUpper_colon c : Cls.toUpper c = 58%N -> c = 58%N.
Proof. cls. Qed.

Lemma eq_ci_nil u : eq_ci u [] -> u = [].
Proof. unfold eq_ci. destruct u; [auto | discriminate]. Qed.

(** The text from the equals sign of a declaration to its URI holds no
    occurrence of the token and starts with no digit and no colon. *)
Lemma count_decl_tail N ws1 ws2 q1 U :
  forallb Cls.digit N = true ->
  forallb Cls.space ws1 = true -> forallb Cls.space ws2 = true ->
  Cls.quote q1 = true -> eq_ci U (js V120.xlinkUri) ->
  count (nsToken N) (ws1 ++ 61%N :: ws2 ++ q1 :: U) = 0 /\
  exists g0 G, ws1 ++ 61%N :: ws2 ++ q1 :: U = g0 :: G /\
               Cls.digit g0 = false /\ g0 <> 58%N.
Proof.
  intros HN H1 H2 Hq HU. split.
  - rewrite count_skip_tok by now apply skip_space.
    rewrite count_ne_tok by discriminate.
    rewrite count_skip_tok by now apply skip_space.
    rewrite count_ne_tok by (apply quote_facts in Hq; intuition congruence).
    now apply count_uri.
  - destruct ws1 as [| w ws1]; simpl.
    + exists 61%N. eexists. repeat split; discriminate.
    + simpl in H1. apply andb_true_iff in H1. destruct H1 as [Hw _].
      apply space_facts in Hw. exists w. eexists. repeat split; tauto.
Qed.

(** The matches of the declaration pattern, and what replaces them. *)
Lemma quiet_decl N M m cs :
  forallb Cls.digit N = true -> N <> [] -> forallb Cls.digit M = true ->
  LangC (V120.xmlnsPattern M) m cs ->
  quiet (nsToken N) m /\
  quiet (nsToken N) (js "xmlns:xlink" ++ group 1 cs).
Proof.
  intros HN Hne HM L.
  destruct (@xmlns_match M m cs HM L)
    as (X & ws1 & ws2 & q1 & U & q2 & -> & -> & HX & H1 & H2 & Hq1 & HU & Hq2).
  destruct (@count_decl_tail N ws1 ws2 q1 U HN H1 H2 Hq1 HU)
    as (C0 & g0 & G & EG & Hg1 & Hg2).
  assert (Q2 : ~ In q2 (nsToken N)).
  { apply quote_facts in Hq2. apply not_in_token; tauto. }
  assert (Z : forall a b tail,
             prefixb (nsToken N) (a :: b :: 58%N :: tail) = false).
  { intros a b tail.
    apply (@token_not_at N [] a b 58%N tail); auto. }
  split.
  - change (js "xmlns:ns") with [120; 109; 108; 110; 115; 58; 110; 115]%N
      in HX.
    repeat match goal with
           | H : eq_ci _ (_ :: _) |- _ =>
               apply eq_ci_cons in H; destruct H as (? & ? & -> & ? & H)
           | H : eq_ci _ [] |- _ => apply eq_ci_nil in H; subst
           end.
    repeat match goal with
           | H : Cls.toUpper _ = Cls.toUpper ?k |- _ =>
               let v := eval vm_compute in (Cls.toUpper k) in
               change (Cls.toUpper k) with v in H
           end.
    repeat match goal with
           | H : Cls.toUpper _ = 58%N |- _ => apply toUpper_colon in H; subst
           end.
    match goal with
    | |- quiet _ ((?x :: ?l) ++ ?M ++ ?B ++ _) =>
        exists x, (l ++ M ++ B), q2
    end.
    split; [simpl; now rewrite <- !app_assoc |].
    split; [| split; [exact Q2 |]].
    + match goal with
      | Hx : Cls.toUpper ?x = 88%N |- ~ In ?x _ =>
          apply not_in_token; auto; revert Hx; clear; cls
      end.
    + cbn [app].
      rewrite count_ne_tok by (eapply toUpper_ne; eauto; discriminate).
      rewrite count_ne_tok by (eapply toUpper_ne; eauto; discriminate).
      rewrite count_cons_at by apply Z.
      rewrite count_ne_tok by (eapply toUpper_ne; eauto; discriminate).
      rewrite count_ne_tok by discriminate.
      match goal with
      | |- context [M ++ ?t] => replace t with (g0 :: G) by (symmetry; exact EG)
      end.
      rewrite count_cons_at by (apply token_not_at; auto).
      rewrite count_ne_tok by (eapply toUpper_ne; eauto; discriminate).
      rewrite count_skip_tok by now apply skip_digit.
      now rewrite <- EG.
  - simpl group.
    exists 120%N, (js "mlns:xlink" ++ ws1 ++ 61%N :: ws2 ++ q1 :: U), q2.
    split; [norm_app; reflexivity |].
    split; [apply not_in_token; auto; discriminate |].
    split; [exact Q2 |].
    change (js "mlns:xlink" ++ ws1 ++ 61%N :: ws2 ++ q1 :: U)
      with ([109; 108]%N ++ 110%N :: 115%N :: 58%N ::
            [120; 108; 105]%N ++ 110%N ::
            [107]%N ++ ws1 ++ 61%N :: ws2 ++ q1 :: U).
    rewrite count_skip_tok by reflexivity.
    rewrite count_cons_at by apply Z.
    rewrite count_ne_tok by discriminate.
    rewrite count_ne_tok by discriminate.
    rewrite count_skip_tok by reflexivity.
    rewrite count_cons_at by reflexivity.
    rewrite count_skip_tok by reflexivity.
    exact C0.
Qed.

(** ** The whole rewriting stage and the token *)

Lemma digits_nous M : forallb Cls.digit M = true -> nous M = true.
Proof.
  apply forallb_impl. intros c H. apply negb_true_iff, N.eqb_neq.
  now apply digit_nous.
Qed.

Lemma rewriteAttrs_counts N : forallb Cls.digit N = true -> forall ps its,
  Forall (fun M => forallb Cls.digit M = true /\ N <> M) ps ->
  lits_ok its ->
  exists its', V120.rewriteAttrs ps (render its) = render its' /\
               keeps its its' /\ same_count (nsToken N) its its'.
Proof.
  intros HN. unfold V120.rewriteAttrs.
  induction ps as [| M ps IH]; intros its Hps Hok; cbn [fold_left].
  - exists its. auto using keeps_refl, same_count_refl.
  - inversion Hps as [| ? ? [HM Hne] Hps']; subst.
    destruct (@replace_all_counts (V120.nsToXlinkPattern M)
                (fun _ cs => js " xlink:" ++ group 1 cs ++ js "=") its
                (nsToken N))
      as (its1 & E1 & K1 & C1);
      auto using inert_nsToXlinkPattern, accepts_nsToXlinkPattern,
                 digits_nous, nsToken_nonempty.
    { intros m cs L. rewrite !nous_app.
      rewrite (@group_nous (V120.nsToXlinkPattern M) m cs 1);
        auto using accepts_nsToXlinkPattern, digits_nous. }
    { intros m cs L. now apply (@quiet_attr N M). }
    rewrite E1. destruct (IH its1 Hps' (proj1 K1)) as (its2 & E2 & K2 & C2).
    exists its2. split; [| split]; auto.
    + eapply keeps_trans; eauto.
    + eapply same_count_trans; eauto.
Qed.

Lemma rewriteDecls_counts N :
  forallb Cls.digit N = true -> N <> [] -> forall ps its,
  Forall (fun M => forallb Cls.digit M = true) ps ->
  lits_ok its ->
  exists its', V120.rewriteDecls ps (render its) = render its' /\
               keeps its its' /\ same_count (nsToken N) its its'.
Proof.
  intros HN Hne. unfold V120.rewriteDecls.
  induction ps as [| M ps IH]; intros its Hps Hok; cbn [fold_left].
  - exists its. auto using keeps_refl, same_count_refl.
  - inversion Hps as [| ? ? HM Hps']; subst.
    destruct (@replace_all_counts (V120.xmlnsPattern M)
                (fun _ cs => js "xmlns:xlink" ++ group 1 cs) its
                (nsToken N))
      as (its1 & E1 & K1 & C1);
      auto using inert_xmlnsPattern, accepts_xmlnsPattern,
                 digits_nous, nsToken_nonempty.
    { intros m cs L. rewrite !nous_app.
      rewrite (@group_nous (V120.xmlnsPattern M) m cs 1);
        auto using accepts_xmlnsPattern, digits_nous. }
    { intros m cs L. now apply (@quiet_decl N M). }
    rewrite E1. destruct (IH its1 Hps' (proj1 K1)) as (its2 & E2 & K2 & C2).
    exists its2. split; [| split]; auto.
    + eapply keeps_trans; eauto.
    + eapply same_count_trans; eauto.
Qed.

(** The digit groups of step 3 are runs of digits. *)
Lemma xlinkNs_capture m cs :
  LangC V120.xlinkNsPattern m cs ->
  exists ds, group 1 cs = ds /\ forallb Cls.digit ds = true /\ ds <> [].
Proof.
  unfold V120.xlinkNsPattern, Plus. cbn [cat]. intros L.
  repeat match goal with
         | H : LangC (Cat _ _) _ _ |- _ =>
             apply LangC_Cat_inv in H;
             destruct H as (? & ? & ? & ? & ? & ? & ? & ?); subst
         | H : LangC (Grp _ _) _ _ |- _ =>
             apply LangC_Grp_inv in H; destruct H as (? & ? & ?); subst
         | H : LangC (Chr _) _ _ |- _ => inversion H; subst; clear H
         | H : LangC (Star _) _ _ |- _ => inversion H; subst; clear H
         | H : LangC Eps _ _ |- _ => inversion H; subst; clear H
         | H : LangC (lit Cls.ci _) _ _ |- _ =>
             apply LangC_lit_ci in H; destruct H as [? ?]; subst
         end.
  eexists. split; [reflexivity |]. simpl.
  match goal with
  | H : Cls.digit _ = true |- _ => rewrite H
  end.
  split; [assumption | discriminate].
Qed.

Lemma exec_all_digits s :
  Forall (fun M => forallb Cls.digit M = true /\ M <> [])
         (exec_all V120.xlinkNsPattern s).
Proof.
  unfold exec_all.
  pose proof (pieces_hits V120.xlinkNsPattern s 0) as F.
  induction F as [| [c | m cs] ps Hx _ IH]; simpl; auto.
  constructor; auto. simpl in Hx.
  destruct (xlinkNs_capture Hx) as (ds & -> & H1 & H2). auto.
Qed.

(** ** The injected declaration and the token *)

Lemma skip_svg a :
  eq_ci a (js "svg") -> forallb (fun c => negb (N.eqb 110 c)) a = true.
Proof.
  intros H. change (js "svg") with [115; 118; 103]%N in H.
  repeat match goal with
         | H : eq_ci _ (_ :: _) |- _ =>
             apply eq_ci_cons in H; destruct H as (? & ? & -> & ? & H)
         | H : eq_ci _ [] |- _ => apply eq_ci_nil in H; subst
         end.
  repeat match goal with
         | H : Cls.toUpper _ = Cls.toUpper ?k |- _ =>
             let v := eval vm_compute in (Cls.toUpper k) in
             change (Cls.toUpper k) with v in H;
             apply toUpper_ne in H; [| discriminate];
             apply N.eqb_neq in H
         end.
  cbn [forallb].
  repeat match goal with
         | H : N.eqb _ _ = false |- _ => rewrite H; clear H
         end.
  reflexivity.
Qed.

Lemma svg_nous a : eq_ci a (js "svg") -> nous a = true.
Proof.
  intros H. change (js "svg") with [115; 118; 103]%N in H.
  repeat match goal with
         | H : eq_ci _ (_ :: _) |- _ =>
             apply eq_ci_cons in H; destruct H as (? & ? & -> & ? & H)
         | H : eq_ci _ [] |- _ => apply eq_ci_nil in H; subst
         end.
  repeat (apply nous_cons; split); auto;
    intros ->; discriminate.
Qed.

(** The declaration step 6 writes holds no token of a digit group. *)
Lemma quiet_injected N :
  forallb Cls.digit N = true -> N <> [] ->
  quiet (nsToken N)
        (jsq " xmlns:xlink=`" ++ js V120.xlinkUri ++ jsq "`").
Proof.
  intros HN Hne.
  destruct (@count_decl_tail N [] [] 34%N (js V120.xlinkUri) HN
              eq_refl eq_refl eq_refl (eq_refl _)) as (C0 & _).
  assert (Z : forall a b tail,
             prefixb (nsToken N) (a :: b :: 58%N :: tail) = false).
  { intros a b tail.
    apply (@token_not_at N [] a b 58%N tail); auto. }
  exists 32%N, (js "xmlns:xlink" ++ 61%N :: 34%N :: js V120.xlinkUri), 34%N.
  split; [reflexivity |].
  split; [apply not_in_token; auto; discriminate |].
  split; [apply not_in_token; auto; discriminate |].
  change (js "xmlns:xlink" ++ 61%N :: 34%N :: js V120.xlinkUri)
    with ([120; 109; 108]%N ++ 110%N :: 115%N :: 58%N ::
          [120; 108; 105]%N ++ 110%N ::
          [107]%N ++ [] ++ 61%N :: [] ++ 34%N :: js V120.xlinkUri).
  rewrite count_skip_tok by reflexivity.
  rewrite count_cons_at by apply Z.
  rewrite count_ne_tok by discriminate.
  rewrite count_ne_tok by discriminate.
  rewrite count_skip_tok by reflexivity.
  rewrite count_cons_at by reflexivity.
  rewrite count_skip_tok by reflexivity.
  exact C0.
Qed.

Lemma ensureDecl_counts N its :
  forallb Cls.digit N = true -> N <> [] -> lits_ok its ->
  exists its', V120.ensureDecl (render its) = render its' /\
               keeps its its' /\ same_count (nsToken N) its its'.
Proof.
  intros HN Hne Hok. unfold V120.ensureDecl.
  destruct (contains (js "xlink:href") (render its)
            && negb (contains (js "xmlns:xlink") (render its)));
    [| exists its; auto using keeps_refl, same_count_refl].
  match goal with
  | |- context [replace_first ?r ?tpl ?s] =>
      destruct (replace_first_spec r tpl s)
        as [-> | (pre & m & cs & rest & E1 & L & ->)]
  end; [exists its; auto using keeps_refl, same_count_refl |].
  apply svgOpen_match_full in L. destruct L as (a & g & -> & -> & Ea & _).
  pose proof (svg_nous Ea) as Na.
  simpl group. simpl app in E1.
  destruct (@align its pre 60%N _ eq_refl E1) as (its1 & its2 & -> & R1 & R2).
  apply lits_ok_app in Hok. destruct Hok as [Hok1 Hok2].
  inversion Hok2 as [| ? ? _ Hok2']; subst. clear Hok2.
  rewrite <- app_assoc in R2.
  destruct (@run_prefix a its2 _ Hok2' Na R2) as (its3 & -> & R3).
  apply lits_ok_app in Hok2'. destruct Hok2' as [_ Hok3].
  rewrite <- app_assoc in R3. simpl in R3.
  destruct (@align its3 g 62%N rest eq_refl R3) as (itsg & its4 & -> & R4 & R5).
  apply lits_ok_app in Hok3. destruct Hok3 as [Hokg Hok4].
  inversion Hok4 as [| ? ? _ Hok4']; subst. clear Hok4.
  exists (its1 ++ List.map Lit (js "<svg") ++ itsg
            ++ List.map Lit (jsq " xmlns:xlink=`" ++ js V120.xlinkUri
                               ++ jsq "`>") ++ its4).
  split; [| split; [split |]].
  - rewrite !render_app, !render_lits. now rewrite <- !app_assoc.
  - repeat (apply lits_ok_app; split); auto; now apply lits_ok_lits.
  - intros i Hi. rewrite !in_app_iff. simpl. rewrite !in_app_iff.
    pose proof (@In_Ph_lits i a Hi) as X1.
    pose proof (@In_Ph_lits i (js "<svg") Hi) as X2.
    pose proof (@In_Ph_lits i (jsq " xmlns:xlink=`" ++ js V120.xlinkUri
                                  ++ jsq "`>") Hi) as X3.
    destruct i as [c | q n]; [discriminate |].
    split; intros H; repeat destruct H as [H | H];
      try discriminate; try tauto.
    do 4 right. now right.
  - intros A u.
    assert (B60 : ~ In 60%N (nsToken N))
      by (apply not_in_token; auto; discriminate).
    assert (B62 : ~ In 62%N (nsToken N))
      by (apply not_in_token; auto; discriminate).
    pose proof (@nsToken_nonempty N) as Ht.
    change (Lit 60%N :: List.map Lit a ++ itsg ++ Lit 62%N :: its4)
      with ([Lit 60%N] ++ List.map Lit a ++ itsg ++ [Lit 62%N] ++ its4).
    change (jsq " xmlns:xlink=`" ++ js V120.xlinkUri ++ jsq "`>")
      with ((jsq " xmlns:xlink=`" ++ js V120.xlinkUri ++ jsq "`")
              ++ [62%N]).
    change (js "<svg") with ([60%N] ++ js "svg").
    rewrite !map_app, !expand_app, !expand_lits.
    change (expand A [Lit 60%N]) with [60%N].
    change (expand A [Lit 62%N]) with [62%N].
    set (e1 := expand A its1). set (eg := expand A itsg).
    set (e4 := expand A its4).
    set (I := jsq " xmlns:xlink=`" ++ js V120.xlinkUri ++ jsq "`").
    match goal with
    | |- count _ ?L = count _ ?R =>
        replace L with ((u ++ e1) ++ 60%N :: (a ++ eg) ++ 62%N :: e4)
          by (simpl; now rewrite <- !app_assoc);
        replace R
          with ((u ++ e1) ++ 60%N :: (js "svg" ++ eg) ++ I ++ 62%N :: e4)
          by (simpl; now rewrite <- !app_assoc)
    end.
    rewrite !(@count_barrier _ _ Ht B60).
    rewrite (@count_quiet _ _ Ht (@quiet_injected N HN Hne)).
    rewrite (@count_barrier _ _ Ht B62).
    rewrite (@count_ne_tok N 62%N) by discriminate.
    rewrite (@count_skip_tok N a) by now apply skip_svg.
    rewrite (@count_skip_tok N (js "svg")) by reflexivity.
    reflexivity.
Qed.

(** ** The tokens of the other digit groups, through the transform *)

Lemma not_collected N ps :
  Forall (fun M => forallb Cls.digit M = true /\ M <> []) ps ->
  ~ In N ps ->
  Forall (fun M => forallb Cls.digit M = true /\ N <> M) ps /\
  Forall (fun M => forallb Cls.digit M = true) ps.
Proof.
  intros F Hn. split; apply Forall_forall; intros M HM;
    rewrite Forall_forall in F; destruct (F M HM) as [HD _]; auto.
  split; auto. intros ->. now apply Hn.
Qed.

(** X1.  On a document that holds no underscore and whose recorded spans hold
    none, the transform keeps the number of occurrences of the token
    [ns<digits>:] of every digit group that step 3 did not collect. *)
Theorem other_prefix_tokens_counted s N :
  clean s = true -> forallb Cls.digit N = true -> N <> [] ->
  ~ In N (collectedPrefixes s) ->
  exists out,
    V120.normalize (VString s) = VString out /\
    count (nsToken N) out = count (nsToken N) s.
Proof.
  intros C HN Hne Hn. exists (V120.normalizeStr s).
  split; [apply normalize_string |].
  destruct (@protect_Inv s C) as (its & A & E1 & E2 & I).
  unfold collectedPrefixes in Hn. unfold V120.normalizeStr.
  destruct (V120.protectBase64 s) as [r1 b64]. cbn [fst snd] in *.
  destruct (V120.protectIdRefs r1) as [r2 ids]. cbn [fst snd] in *.
  injection E1 as E1. injection E2 as -> E2. subst b64 ids.
  pose proof (exec_all_digits (render its)) as F.
  destruct (exec_all V120.xlinkNsPattern (render its)) as [| N0 ps] eqn:EA.
  - now rewrite (restoreAll_Inv I).
  - destruct (@not_collected N _ F Hn) as [F1 F2].
    destruct (@rewriteAttrs_counts N HN (N0 :: ps) its F1 (inv_ok I))
      as (its1 & R1 & K1 & C1).
    destruct (@rewriteDecls_counts N HN Hne (N0 :: ps) its1 F2 (proj1 K1))
      as (its2 & R2 & K2 & C2).
    destruct (@ensureDecl_counts N its2 HN Hne (proj1 K2))
      as (its3 & R3 & K3 & C3).
    rewrite R1, R2, R3.
    assert (K : keeps its its3) by eauto using keeps_trans.
    rewrite (restoreAll_Inv (Inv_keeps I K)).
    pose proof (same_count_trans C1 (same_count_trans C2 C3) A []) as X.
    simpl in X. rewrite <- X. now rewrite (inv_expand I).
Qed.

Lemma other_prefix_tokens_counted_witness :
  exists out,
    V120.normalize
      (VString (jsq "<svg xmlns:ns1=`http://www.w3.org/1999/xlink` xmlns:ns2=`urn:other`><image ns1:href=`a.png` ns2:kind=`x`/><ns2:note/></svg>"))
    = VString out /\
    count (nsToken (js "2")) out
    = count (nsToken (js "2"))
        (jsq "<svg xmlns:ns1=`http://www.w3.org/1999/xlink` xmlns:ns2=`urn:other`><image ns1:href=`a.png` ns2:kind=`x`/><ns2:note/></svg>").
Proof.
  apply other_prefix_tokens_counted.
  - vm_compute. reflexivity.
  - vm_compute. reflexivity.
  - discriminate.
  - vm_compute. intros [H | []]. discriminate.
Defined.

(** * Further properties of the two modules *)

(** ** No placeholder is left in the output *)

Lemma nth_nous n : forall arr,
  forallb nous arr = true -> nous (nth n arr []) = true.
Proof.
  induction n as [| n IH]; intros [| m arr] H; auto; simpl in H;
    apply andb_true_iff in H; destruct H as [H1 H2]; simpl; auto.
Qed.

Lemma expand_nous A its :
  lits_ok its -> (forall q, forallb nous (get q A) = true) ->
  nous (expand A its) = true.
Proof.
  intros Hok HA. induction Hok as [| i its Hi _ IH]; auto.
  change (expand A (i :: its)) with (expand1 A i ++ expand A its).
  rewrite nous_app, IH, andb_true_r.
  destruct i as [c | q n]; simpl.
  - simpl in Hi. apply N.eqb_neq in Hi. now rewrite Hi.
  - apply nth_nous, HA.
Qed.

Lemma nous_lacks p : forall s,
  nous s = true -> contains (95%N :: p) s = false.
Proof.
  induction s as [| c s IH]; intros H; auto.
  apply nous_cons in H. destruct H as [Hc Hs].
  cbn [contains prefixb]. rewrite (IH Hs), orb_false_r.
  destruct (N.eqb_spec 95 c); [congruence | reflexivity].
Qed.

(** X2.  On a document that holds no underscore and whose recorded spans hold
    none, the output of [normalize] holds no underscore: neither of the
    two placeholder prefixes occurs in it. *)
Theorem no_placeholder_in_output s :
  clean s = true ->
  exists out,
    V120.normalize (VString s) = VString out /\
    nous out = true /\
    contains V120.placeholderPrefix out = false /\
    contains V120.idRefPlaceholderPrefix out = false.
Proof.
  intros C. exists (V120.normalizeStr s).
  split; [apply normalize_string |].
  destruct (@normalizeStr_expand s C) as (its & A & its' & I & E & K & ->).
  assert (X : nous (expand A its') = true).
  { apply expand_nous; [apply K | apply I]. }
  split; [exact X |]. split; now apply nous_lacks.
Qed.

Lemma no_placeholder_in_output_witness :
  exists out,
    V120.normalize
      (VString (jsq "<svg xmlns:ns1=`http://www.w3.org/1999/xlink`><image ns1:href=`data:image/png;base64,AAAA`/><use ns1:href=`#a`/></svg>"))
    = VString out /\
    nous out = true /\
    contains V120.placeholderPrefix out = false /\
    contains V120.idRefPlaceholderPrefix out = false.
Proof.
  apply no_placeholder_in_output. vm_compute. reflexivity.
Defined.

(** ** The spans the protecting scans record *)

Lemma protector_spans p x : forall ps arr,
  snd (replace_fn (V120.protector p x) ps arr)
  = arr ++ flat_map hit_text ps.
Proof.
  induction ps as [| [c | m cs] ps IH]; intros arr; simpl.
  - now rewrite app_nil_r.
  - specialize (IH arr).
    destruct (replace_fn (V120.protector p x) ps arr). exact IH.
  - specialize (IH (arr ++ [m])).
    destruct (replace_fn (V120.protector p x) ps (arr ++ [m])).
    simpl in *. now rewrite IH, <- app_assoc.
Qed.

Lemma hits_Lang r s m :
  In m (flat_map hit_text (pieces r s 0)) -> Lang r m.
Proof.
  pose proof (pieces_hits r s 0) as F. intros H.
  apply in_flat_map in H. destruct H as ([c | m' cs] & Hin & Hm);
    simpl in Hm; [contradiction |].
  destruct Hm as [-> | []].
  rewrite Forall_forall in F. apply F in Hin. simpl in Hin.
  eauto using LangC_Lang.
Qed.

(** X3.  Whatever the document, every span the protecting scans record is a
    match of one of their four patterns: a base64 data URL between double
    quotes or between apostrophes, a [url(#...)] expression, or a
    fragment [href] attribute. *)
Theorem protected_spans_shapes s m :
  In m (protectedSpans s) ->
  Lang V120.base64Dq m \/ Lang V120.base64Sq m \/
  Lang V120.urlRef m \/ Lang V120.hrefRef m.
Proof.
  unfold protectedSpans, V120.protectBase64, V120.protectIdRefs.
  intros H. apply in_app_or in H. destruct H as [H | H].
  - pose proof (protector_spans V120.placeholderPrefix
                  V120.placeholderSuffix (pieces V120.base64Dq s 0) []) as E1.
    destruct (replace_fn _ (pieces V120.base64Dq s 0) []) as [r1 a1].
    simpl in E1. subst a1.
    rewrite protector_spans in H. apply in_app_or in H.
    destruct H as [H | H]; eauto using hits_Lang.
  - match type of H with
    | In m (snd (let (r1, a1) := replace_fn ?f (pieces ?r ?t 0) [] in _)) =>
        pose proof (protector_spans V120.idRefPlaceholderPrefix
                      V120.idRefPlaceholderSuffix (pieces r t 0) []) as E1;
        destruct (replace_fn f (pieces r t 0) []) as [r1 a1]
    end.
    simpl in E1. subst a1.
    rewrite protector_spans in H. apply in_app_or in H.
    destruct H as [H | H]; eauto using hits_Lang.
Qed.

Lemma protected_spans_shapes_witness :
  Lang V120.base64Dq (jsq "`data:image/png;base64,AAAA`") \/
  Lang V120.base64Sq (jsq "`data:image/png;base64,AAAA`") \/
  Lang V120.urlRef (jsq "`data:image/png;base64,AAAA`") \/
  Lang V120.hrefRef (jsq "`data:image/png;base64,AAAA`").
Proof.
  apply (@protected_spans_shapes
           (jsq "<image href=`data:image/png;base64,AAAA`/>")).
  vm_compute. auto.
Defined.

(** ** The detector of version 1.1.0 *)

Lemma anyNsPattern_shape u : Lang V110.anyNsPattern u <-> NsTokenShape u.
Proof.
  unfold V110.anyNsPattern, NsTokenShape.
  repeat setoid_rewrite Lang_cat_cons. setoid_rewrite Lang_cat_nil.
  setoid_rewrite Lang_Plus. setoid_rewrite Lang_Chr.
  setoid_rewrite Lang_lit_ci.
  split.
  - intros (x & ? & -> & Hx & ds & ? & -> & [Hd1 Hd2] &
            ? & ? & -> & (e & -> & He) & ->).
    apply ci_colon in He. subst e.
    exists x, ds. simpl. repeat split; auto.
  - intros (x & ds & -> & Hx & Hd1 & Hd2).
    exists x, (ds ++ [ch ":"]). repeat split; auto.
    exists ds, [ch ":"]. repeat split; auto.
    exists [ch ":"], []. repeat split; eauto.
Qed.

(** X4.  The detector of version 1.1.0 answers true exactly on the strings
    that contain [ns], digits and a colon (letters in either case),
    whatever the prefix is bound to; on a value that is not a string,
    and on the empty string, it answers false. *)
Theorem hasIssue_v110_iff_contains_token v :
  V110.hasIssue v = true <-> exists s, v = VString s /\ ContainsNsToken s.
Proof.
  assert (T : forall s, V110.hasIssue (VString s) = test V110.anyNsPattern s)
    by (intros [| c s]; reflexivity).
  split.
  - destruct v as [| | b | n | | s]; try discriminate.
    rewrite T, test_true.
    intros (pre & u & post & -> & L). exists (pre ++ u ++ post).
    split; auto. exists pre, u, post. split; auto.
    now apply anyNsPattern_shape.
  - intros (s & -> & pre & u & post & -> & D).
    rewrite T, test_true. exists pre, u, post. split; auto.
    now apply anyNsPattern_shape.
Qed.

(** ** The escapes of encodeURIComponent *)

Ltac divlia := zify; Z.to_euclidean_division_equations; lia.

(** Induction for functions that read one or two code units at a time. *)
Lemma pair_ind (P : str -> Prop) :
  P [] -> (forall c, P [c]) ->
  (forall c d s, P s -> P (d :: s) -> P (c :: d :: s)) ->
  forall s, P s.
Proof.
  intros H0 H1 H2 s.
  assert (X : P s /\ forall c, P (c :: s)).
  { induction s as [| d s [IH1 IH2]]; split; auto. }
  apply X.
Qed.

(** A global replace of the code units of a class by a fixed text. *)
Lemma replace_all_chr f t : forall s,
  replace_all (Chr f) (fun _ _ => t) s
  = flat_map (fun c => if f c then t else [c]) s.
Proof.
  unfold replace_all. induction s as [| c s IH]; auto.
  cbn [pieces]. unfold exec. cbn [rmatch].
  destruct (f c) eqn:E; cbn [length rev app flat_map]; rewrite E, IH;
    reflexivity.
Qed.

Lemma hexDigit_inj a b :
  (a < 16)%N -> (b < 16)%N -> Uri.hexDigit a = Uri.hexDigit b -> a = b.
Proof.
  unfold Uri.hexDigit. intros.
  destruct (N.ltb_spec a 10), (N.ltb_spec b 10); lia.
Qed.

Lemma hexDigit_ge n : (48 <= Uri.hexDigit n)%N.
Proof. unfold Uri.hexDigit. destruct (N.ltb_spec n 10); lia. Qed.

Lemma hexDigit_safe n : (n < 16)%N -> urlSafe (Uri.hexDigit n) = true.
Proof.
  intros H.
  assert (E : exists k, (k < 16)%nat /\ n = N.of_nat k).
  { exists (N.to_nat n). split; lia. }
  destruct E as (k & Hk & ->).
  do 16 (destruct k as [| k]; [reflexivity |]). lia.
Qed.

Lemma percent_safe o : (o < 256)%N -> forallb urlSafe (Uri.percent o) = true.
Proof.
  intros H. unfold Uri.percent. cbn [forallb].
  rewrite !hexDigit_safe by divlia. reflexivity.
Qed.

Lemma utf8_octets cp :
  (cp < 2097152)%N -> Forall (fun o => (o < 256)%N) (Uri.utf8 cp).
Proof.
  intros H. unfold Uri.utf8.
  destruct (N.ltb_spec cp 128); [| destruct (N.ltb_spec cp 2048);
    [| destruct (N.ltb_spec cp 65536)]];
    repeat constructor; divlia.
Qed.

Lemma codePoint_range c d :
  Uri.isLead c = true -> Uri.isTrail d = true ->
  (65536 <= Uri.codePoint c d < 1114112)%N.
Proof.
  unfold Uri.isLead, Uri.isTrail, Uri.codePoint. intros H1 H2.
  apply andb_true_iff in H1. apply andb_true_iff in H2.
  destruct H1 as [H1 H1']. destruct H2 as [H2 H2'].
  apply N.leb_le in H1, H1', H2, H2'. lia.
Qed.

Lemma codePoint_inj c d c' d' :
  Uri.isLead c = true -> Uri.isTrail d = true ->
  Uri.isLead c' = true -> Uri.isTrail d' = true ->
  Uri.codePoint c d = Uri.codePoint c' d' -> c = c' /\ d = d'.
Proof.
  unfold Uri.isLead, Uri.isTrail, Uri.codePoint. intros H1 H2 H3 H4.
  apply andb_true_iff in H1. apply andb_true_iff in H2.
  apply andb_true_iff in H3. apply andb_true_iff in H4.
  destruct H1 as [H1 H1']. destruct H2 as [H2 H2'].
  destruct H3 as [H3 H3']. destruct H4 as [H4 H4'].
  apply N.leb_le in H1, H1', H2, H2', H3, H3', H4, H4'. lia.
Qed.

Lemma escapes_safe cp :
  (cp < 2097152)%N ->
  forallb urlSafe (flat_map Uri.percent (Uri.utf8 cp)) = true.
Proof.
  intros H. pose proof (utf8_octets H) as F.
  induction F as [| o os Ho _ IH]; auto.
  cbn [flat_map]. rewrite forallb_app, IH, percent_safe; auto.
Qed.

(** What [encode] does with the first code units of its input. *)
Inductive first_step (U : char -> bool) : str -> str -> str -> Prop :=
| step_copy c s : U c = true -> first_step U (c :: s) [c] s
| step_unit c s :
    U c = false -> surrogate c = false ->
    first_step U (c :: s) (flat_map Uri.percent (Uri.utf8 c)) s
| step_pair c d s :
    U c = false -> Uri.isLead c = true -> Uri.isTrail d = true ->
    first_step U (c :: d :: s)
               (flat_map Uri.percent (Uri.utf8 (Uri.codePoint c d))) s.

Lemma encode_cons U c s e :
  Uri.encode U (c :: s) = Some e ->
  exists out rest r,
    first_step U (c :: s) out rest /\ Uri.encode U rest = Some r /\
    e = out ++ r.
Proof.
  cbn [Uri.encode]. destruct (U c) eqn:HU.
  - destruct (Uri.encode U s) as [r |] eqn:E; [| discriminate].
    intros [= <-]. exists [c], s, r. repeat split; auto. now constructor.
  - destruct (Uri.isTrail c) eqn:HT; [discriminate |].
    destruct (Uri.isLead c) eqn:HL.
    + destruct s as [| d s]; [discriminate |].
      destruct (Uri.isTrail d) eqn:HD; [| discriminate].
      destruct (Uri.encode U s) as [r |] eqn:E; [| discriminate].
      intros [= <-]. eexists _, s, r. repeat split; auto.
      now constructor.
    + destruct (Uri.encode U s) as [r |] eqn:E; [| discriminate].
      intros [= <-]. eexists _, s, r. repeat split; auto.
      constructor; auto. unfold surrogate. now rewrite HL, HT.
Qed.

Lemma first_step_encode U s out rest r :
  first_step U s out rest -> Uri.encode U rest = Some r ->
  Uri.encode U s = Some (out ++ r).
Proof.
  intros [c s' H | c s' H1 H2 | c d s' H1 H2 H3] E; cbn [Uri.encode].
  - now rewrite H, E.
  - unfold surrogate in H2. apply orb_false_iff in H2. destruct H2 as [-> ->].
    now rewrite H1, E.
  - assert (Uri.isTrail c = false) as ->.
    { unfold Uri.isLead, Uri.isTrail in *.
      apply andb_true_iff in H2. destruct H2 as [_ H2]. apply N.leb_le in H2.
      apply andb_false_iff. left. apply N.leb_gt. lia. }
    now rewrite H1, H2, H3, E.
Qed.

Lemma first_step_shorter U s out rest :
  first_step U s out rest -> length rest < length s.
Proof. intros []; simpl; lia. Qed.

Lemma encode_ind U (P : str -> str -> Prop) :
  P [] [] ->
  (forall s out rest r,
     first_step U s out rest -> Uri.encode U rest = Some r ->
     P rest r -> P s (out ++ r)) ->
  forall s e, Uri.encode U s = Some e -> P s e.
Proof.
  intros H0 H1 s.
  assert (X : forall n s, length s <= n ->
                          forall e, Uri.encode U s = Some e -> P s e).
  { clear s. induction n as [| n IH]; intros [| c s] L e E;
      try (simpl in L; lia); try (injection E as <-; exact H0).
    destruct (encode_cons _ _ _ E) as (out & rest & r & F & Er & ->).
    apply (H1 _ _ _ _ F Er). apply IH; auto.
    apply first_step_shorter in F. simpl in *. lia. }
  now apply (X (length s)).
Qed.

Lemma first_step_suffix U s out rest :
  first_step U s out rest -> exists p, s = p ++ rest /\ p <> [].
Proof.
  intros [c s' | c s' | c d s'];
    [exists [c] | exists [c] | exists [c; d]]; split; auto; discriminate.
Qed.

Lemma mark_cases c :
  Uri.mark c = true ->
  c = 39%N \/ existsb (N.eqb c) (js "-_.!~*()") = true.
Proof.
  unfold Uri.mark. cbn [js List.map list_ascii_of_string existsb].
  intros H.
  repeat match type of H with
         | (N.eqb c ?k || _)%bool = true =>
             apply orb_true_iff in H; destruct H as [H | H];
             [apply N.eqb_eq in H; subst c; vm_compute; auto |]
         end.
  discriminate.
Qed.

Lemma unreservedNoApos_safe c :
  unreservedNoApos c = true -> urlSafe c = true.
Proof.
  unfold unreservedNoApos, Uri.unreserved, urlSafe. intros H.
  apply andb_true_iff in H. destruct H as [H Ha].
  destruct (Cls.alpha c); auto. destruct (Cls.digit c); auto.
  simpl in H. apply mark_cases in H. destruct H as [-> | H].
  - discriminate.
  - simpl. cbn [js List.map list_ascii_of_string existsb] in *.
    repeat match type of H with
           | (N.eqb c ?k || _)%bool = true =>
               apply orb_true_iff in H; destruct H as [H | H];
               [apply N.eqb_eq in H; subst c; reflexivity |]
           end.
    discriminate.
Qed.

Lemma unreserved_ascii c : Uri.unreserved c = true -> (c < 256)%N.
Proof.
  unfold Uri.unreserved, Cls.alpha, Cls.lower, Cls.upper, Cls.digit,
    Cls.between. intros HU.
  assert (B : forall k : ascii, N.leb c (ch k) = true -> (c < 256)%N).
  { intros k H. apply N.leb_le in H.
    pose proof (N_ascii_bounded k). unfold ch in H. lia. }
  apply orb_true_iff in HU. destruct HU as [HU | HU].
  - apply orb_true_iff in HU. destruct HU as [HU | HU].
    + apply orb_true_iff in HU.
      destruct HU as [HU | HU]; apply andb_true_iff in HU;
        destruct HU as [_ HU]; revert HU; apply B.
    + apply andb_true_iff in HU. destruct HU as [_ HU]. revert HU. apply B.
  - apply mark_cases in HU. destruct HU as [-> | HU]; [lia |].
    cbn [js List.map list_ascii_of_string existsb] in HU.
    repeat match type of HU with
           | (N.eqb c ?k || _)%bool = true =>
               apply orb_true_iff in HU; destruct HU as [HU | HU];
               [apply N.eqb_eq in HU; subst c; reflexivity |]
           end.
    discriminate.
Qed.

Lemma unreserved_plain c : Uri.unreserved c = true -> surrogate c = false.
Proof.
  intros H. apply unreserved_ascii in H.
  unfold surrogate, Uri.isLead, Uri.isTrail.
  apply orb_false_iff. split; apply andb_false_iff; left; apply N.leb_gt; lia.
Qed.

Lemma lead_not_unreserved c :
  Uri.isLead c = true -> Uri.unreserved c = false.
Proof.
  intros H. destruct (Uri.unreserved c) eqn:E; auto.
  apply unreserved_plain in E. unfold surrogate in E. now rewrite H in E.
Qed.

Lemma codeUnits_app a b : codeUnits (a ++ b) = codeUnits a && codeUnits b.
Proof. apply forallb_app. Qed.

(** The code units [encode] writes, for 16-bit input. *)
Lemma encode_safe s e :
  Uri.encode unreservedNoApos s = Some e -> codeUnits s = true ->
  forallb urlSafe e = true.
Proof.
  revert s e.
  apply (@encode_ind unreservedNoApos
           (fun s e => codeUnits s = true -> forallb urlSafe e = true));
    auto.
  intros s out rest r F _ IH C.
  rewrite forallb_app.
  destruct F as [c s H | c s H1 H2 | c d s H1 H2 H3]; simpl in C;
    repeat (apply andb_true_iff in C; destruct C as [? C]).
  - rewrite IH by auto. simpl. now rewrite unreservedNoApos_safe.
  - rewrite IH by auto. rewrite escapes_safe; auto.
    match goal with H : N.ltb c _ = true |- _ => apply N.ltb_lt in H end.
    lia.
  - rewrite IH by auto. rewrite escapes_safe; auto.
    pose proof (codePoint_range _ _ H2 H3). lia.
Qed.

(** Whatever the input, [encode] writes no double quote and no
    apostrophe unless the unescaped set holds them. *)
Lemma encode_lacks U k s e :
  U k = false -> (k < 37)%N \/ (37 < k < 48)%N ->
  Uri.encode U s = Some e -> ~ In k e.
Proof.
  intros HU Hk. revert s e.
  apply (@encode_ind U (fun s e => ~ In k e)); [intros [] |].
  intros s out rest r F _ IH Hin. apply in_app_or in Hin.
  destruct Hin as [Hin | Hin]; [| contradiction].
  assert (X : forall os, ~ In k (flat_map Uri.percent os)).
  { induction os as [| o os IHo]; [intros [] |].
    cbn [flat_map Uri.percent app]. intros [E | [E | [E | E]]];
      try contradiction.
    - lia.
    - pose proof (hexDigit_ge (o / 16)). lia.
    - pose proof (hexDigit_ge (o mod 16)). lia. }
  destruct F as [c s H | c s H1 H2 | c d s H1 H2 H3].
  - destruct Hin as [-> | []]. congruence.
  - now apply X in Hin.
  - now apply X in Hin.
Qed.

Lemma flat_map_id (f : char -> str) : forall e,
  (forall c, In c e -> f c = [c]) -> flat_map f e = e.
Proof.
  induction e as [| c e IH]; intros H; auto.
  simpl. rewrite (H c (or_introl eq_refl)). simpl. f_equal.
  apply IH. intros x Hx. apply H. now right.
Qed.

(** Escaping the apostrophes of the encoded text is encoding with the
    apostrophe taken out of the unescaped set. *)
Lemma encode_apos : forall s,
  Uri.encode unreservedNoApos s
  = option_map (flat_map (fun c => if Cls.eq "'" c then js "%27" else [c]))
               (Uri.encodeURIComponent s).
Proof.
  set (g := fun c : char => if Cls.eq "'" c then js "%27" else [c]).
  assert (G : forall os r,
             flat_map g (flat_map Uri.percent os ++ r)
             = flat_map Uri.percent os ++ flat_map g r).
  { intros os r. rewrite flat_map_app. f_equal. apply flat_map_id.
    intros c Hc. unfold g, Cls.eq.
    destruct (N.eqb_spec c (ch "'")) as [-> | _]; auto. exfalso.
    apply in_flat_map in Hc. destruct Hc as (o & _ & [E | [E | [E | []]]]).
    - discriminate.
    - pose proof (hexDigit_ge (o / 16)). change (ch "'") with 39%N in E. lia.
    - pose proof (hexDigit_ge (o mod 16)). change (ch "'") with 39%N in E.
      lia. }
  assert (S1 : forall c rest,
             Uri.encode unreservedNoApos rest
             = option_map (flat_map g) (Uri.encodeURIComponent rest) ->
             Uri.isLead c = false ->
             Uri.encode unreservedNoApos (c :: rest)
             = option_map (flat_map g) (Uri.encodeURIComponent (c :: rest))).
  { intros c rest IH HL. unfold Uri.encodeURIComponent in *.
    cbn [Uri.encode]. unfold unreservedNoApos at 1.
    destruct (Uri.unreserved c) eqn:HU.
    - unfold Cls.eq at 1. destruct (N.eqb_spec c (ch "'")) as [-> | Hc].
      + cbn [andb negb]. change (Uri.isTrail (ch "'")) with false.
        change (Uri.isLead (ch "'")) with false. cbv iota.
        rewrite IH. destruct (Uri.encode Uri.unreserved rest); reflexivity.
      + cbn [andb negb]. rewrite IH.
        destruct (Uri.encode Uri.unreserved rest); [| reflexivity].
        simpl. unfold g at 2, Cls.eq.
        destruct (N.eqb_spec c (ch "'")); [contradiction | reflexivity].
    - cbn [andb]. destruct (Uri.isTrail c); [reflexivity |]. rewrite HL.
      rewrite IH. destruct (Uri.encode Uri.unreserved rest); [| reflexivity].
      simpl. now rewrite G. }
  apply pair_ind.
  - reflexivity.
  - intros c. destruct (Uri.isLead c) eqn:HL; [| now apply S1].
    unfold Uri.encodeURIComponent. cbn [Uri.encode].
    unfold unreservedNoApos.
    destruct (Uri.unreserved c) eqn:HU.
    + now rewrite (lead_not_unreserved _ HL) in HU.
    + cbn [andb]. rewrite HL. destruct (Uri.isTrail c); reflexivity.
  - intros c d s IH1 IH2.
    destruct (Uri.isLead c) eqn:HL; [| now apply S1].
    unfold Uri.encodeURIComponent in *. cbn [Uri.encode].
    fold (Uri.encode unreservedNoApos s). fold (Uri.encode Uri.unreserved s).
    unfold unreservedNoApos at 1.
    destruct (Uri.unreserved c) eqn:HU.
    + now rewrite (lead_not_unreserved _ HL) in HU.
    + cbn [andb]. rewrite HL. destruct (Uri.isTrail c); [reflexivity |].
      destruct (Uri.isTrail d); [| reflexivity].
      rewrite IH1. destruct (Uri.encode Uri.unreserved s); [| reflexivity].
      simpl. now rewrite G.
Qed.

(** [encode] fails exactly on the strings that are not well formed. *)
Lemma encode_wellFormed U :
  (forall c, U c = true -> surrogate c = false) ->
  forall s,
    match Uri.encode U s with Some _ => true | None => false end
    = wellFormed s.
Proof.
  intros HU.
  assert (L : forall c, Uri.isLead c = true -> Uri.isTrail c = false).
  { intros c H. unfold Uri.isLead, Uri.isTrail in *.
    apply andb_true_iff in H. destruct H as [_ H]. apply N.leb_le in H.
    apply andb_false_iff. left. apply N.leb_gt. lia. }
  assert (S1 : forall c rest,
             match Uri.encode U rest with Some _ => true | None => false end
             = wellFormed rest ->
             Uri.isLead c = false ->
             match Uri.encode U (c :: rest) with
             | Some _ => true | None => false end
             = wellFormed (c :: rest)).
  { intros c rest IH HL. cbn [Uri.encode wellFormed]. rewrite HL.
    destruct (U c) eqn:E.
    - apply HU in E. unfold surrogate in E. apply orb_false_iff in E.
      destruct E as [_ ->]. rewrite <- IH.
      destruct (Uri.encode U rest); reflexivity.
    - destruct (Uri.isTrail c); [reflexivity |]. rewrite <- IH.
      destruct (Uri.encode U rest); reflexivity. }
  assert (NU : forall c, Uri.isLead c = true -> U c = false).
  { intros c H. destruct (U c) eqn:E; auto. apply HU in E.
    unfold surrogate in E. now rewrite H in E. }
  apply pair_ind.
  - reflexivity.
  - intros c. destruct (Uri.isLead c) eqn:HL; [| now apply S1].
    cbn [Uri.encode wellFormed]. rewrite HL, (NU _ HL), (L _ HL). reflexivity.
  - intros c d s IH1 IH2.
    destruct (Uri.isLead c) eqn:HL; [| now apply S1].
    cbn [Uri.encode wellFormed]. fold (Uri.encode U s). fold (wellFormed s).
    rewrite HL, (NU _ HL), (L _ HL).
    destruct (Uri.isTrail d); [| reflexivity]. rewrite <- IH1.
    destruct (Uri.encode U s); reflexivity.
Qed.

Lemma percent_inj o o' r r' :
  (o < 256)%N -> (o' < 256)%N ->
  Uri.percent o ++ r = Uri.percent o' ++ r' -> o = o' /\ r = r'.
Proof.
  intros H H' E. injection E as E1 E2 E3.
  apply hexDigit_inj in E1; [| divlia | divlia].
  apply hexDigit_inj in E2; [| divlia | divlia].
  split; [divlia | assumption].
Qed.

(** The octets of a code point: their number is read off the first one,
    and the code point off the octets. *)
Lemma utf8_shape cp :
  (cp < 2097152)%N ->
  ((cp < 128)%N /\ Uri.utf8 cp = [cp]) \/
  (exists a b,
     Uri.utf8 cp = [a; b] /\ (192 <= a < 224)%N /\ (128 <= b < 192)%N /\
     (cp + 192 * 64 + 128 = a * 64 + b)%N) \/
  (exists a b c,
     Uri.utf8 cp = [a; b; c] /\ (224 <= a < 240)%N /\
     (128 <= b < 192)%N /\ (128 <= c < 192)%N /\
     (cp + 224 * 4096 + 128 * 64 + 128 = a * 4096 + b * 64 + c)%N) \/
  (exists a b c d,
     Uri.utf8 cp = [a; b; c; d] /\ (240 <= a < 248)%N /\
     (128 <= b < 192)%N /\ (128 <= c < 192)%N /\ (128 <= d < 192)%N /\
     (cp + 240 * 262144 + 128 * 4096 + 128 * 64 + 128
      = a * 262144 + b * 4096 + c * 64 + d)%N).
Proof.
  intros H. unfold Uri.utf8.
  destruct (N.ltb_spec cp 128); [now left | right].
  destruct (N.ltb_spec cp 2048); [left | right].
  { eexists _, _. split; [reflexivity |]. divlia. }
  destruct (N.ltb_spec cp 65536); [left | right].
  { eexists _, _, _. split; [reflexivity |]. divlia. }
  eexists _, _, _, _. split; [reflexivity |]. divlia.
Qed.

(** Two code points with the same escapes. *)
Lemma escapes_inj cp1 cp2 r1 r2 :
  (cp1 < 2097152)%N -> (cp2 < 2097152)%N ->
  flat_map Uri.percent (Uri.utf8 cp1) ++ r1
  = flat_map Uri.percent (Uri.utf8 cp2) ++ r2 ->
  cp1 = cp2 /\ r1 = r2.
Proof.
  intros H1 H2.
  destruct (utf8_shape H1)
    as [[? ->] | [(a1 & b1 & -> & ? & ? & ?) |
        [(a1 & b1 & c1 & -> & ? & ? & ? & ?) |
         (a1 & b1 & c1 & d1 & -> & ? & ? & ? & ? & ?)]]];
  destruct (utf8_shape H2)
    as [[? ->] | [(a2 & b2 & -> & ? & ? & ?) |
        [(a2 & b2 & c2 & -> & ? & ? & ? & ?) |
         (a2 & b2 & c2 & d2 & -> & ? & ? & ? & ? & ?)]]];
  cbn [flat_map]; rewrite <- ?app_assoc; cbn [app]; intros E;
  repeat match type of E with
         | Uri.percent _ ++ _ = Uri.percent _ ++ _ =>
             apply percent_inj in E; [| lia | lia];
             let E1 := fresh "E" in destruct E as [E1 E]
         end;
  try (exfalso; lia);
  try (split; [lia | assumption]).
Qed.

Lemma escapes_head cp : exists r,
  flat_map Uri.percent (Uri.utf8 cp) = 37%N :: r.
Proof.
  unfold Uri.utf8.
  destruct (N.ltb cp 128); [| destruct (N.ltb cp 2048);
    [| destruct (N.ltb cp 65536)]]; cbn [flat_map Uri.percent app]; eauto.
Qed.

Lemma codeUnits_cons c s :
  codeUnits (c :: s) = true <-> (c < 65536)%N /\ codeUnits s = true.
Proof.
  unfold codeUnits. cbn [forallb]. rewrite andb_true_iff, N.ltb_lt. tauto.
Qed.

(** [encode] loses nothing: two 16-bit strings with the same encoding
    are equal. *)
Lemma encode_inj U :
  U 37%N = false -> (forall c, U c = true -> surrogate c = false) ->
  forall s1 e, Uri.encode U s1 = Some e ->
  forall s2, Uri.encode U s2 = Some e ->
  codeUnits s1 = true -> codeUnits s2 = true -> s1 = s2.
Proof.
  intros H37 HU.
  apply (@encode_ind U
           (fun s1 e => forall s2, Uri.encode U s2 = Some e ->
              codeUnits s1 = true -> codeUnits s2 = true -> s1 = s2)).
  - intros [| c s2] E _ _; auto.
    destruct (encode_cons _ _ _ E) as (out & rest & r & F & _ & X).
    destruct F; try discriminate;
      match type of X with
      | _ = flat_map _ (Uri.utf8 ?cp) ++ _ =>
          destruct (escapes_head cp) as (z & Z); rewrite Z in X
      end; discriminate.
  - intros s1 out1 rest1 r1 F1 E1 IH s2 E2 C1 C2.
    destruct s2 as [| c2 s2].
    { injection E2 as E2.
      destruct F1; try discriminate;
        match type of E2 with
        | _ = flat_map _ (Uri.utf8 ?cp) ++ _ =>
            destruct (escapes_head cp) as (z & Z); rewrite Z in E2
        end; discriminate. }
    destruct (encode_cons _ _ _ E2) as (out2 & rest2 & r2 & F2 & E2' & X).
    assert (K : forall c d, Uri.isLead c = true -> Uri.isTrail d = true ->
                            (Uri.codePoint c d < 2097152)%N).
    { intros c d Hc Hd. pose proof (codePoint_range _ _ Hc Hd). lia. }
    assert (T : forall c cp r r', U c = true ->
                  c :: r = flat_map Uri.percent (Uri.utf8 cp) ++ r' -> False).
    { intros c cp r r' Hc E. destruct (escapes_head cp) as (z & Z).
      rewrite Z in E. injection E as -> _. congruence. }
    inversion F1 as [c1 t1 A1 | c1 t1 A1 B1 | c1 d1 t1 A1 B1 D1]; subst;
      inversion F2 as [c2' t2 A2 | c2' t2 A2 B2 | c2' d2 t2 A2 B2 D2]; subst;
      repeat match goal with
             | H : codeUnits (_ :: _) = true |- _ =>
                 apply codeUnits_cons in H; destruct H
             end.
    + injection X as -> X. subst. f_equal. now apply IH.
    + exfalso. simpl in X. eapply T; eauto.
    + exfalso. simpl in X. eapply T; eauto.
    + exfalso. simpl in X. symmetry in X. eapply T; eauto.
    + apply escapes_inj in X; [| lia | lia]. destruct X as [-> ->].
      f_equal. now apply IH.
    + apply escapes_inj in X; [| lia | now apply K]. destruct X as [X _].
      pose proof (codePoint_range _ _ B2 D2). lia.
    + exfalso. simpl in X. symmetry in X. eapply T; eauto.
    + apply escapes_inj in X; [| now apply K | lia]. destruct X as [X _].
      pose proof (codePoint_range _ _ B1 D1). lia.
    + apply escapes_inj in X; [| now apply K | now apply K].
      destruct X as [X ->].
      apply codePoint_inj in X; auto. destruct X as [-> ->].
      do 2 f_equal. now apply IH.
Qed.

(** ** toDataUrl *)

Lemma unreservedNoApos_plain c :
  unreservedNoApos c = true -> surrogate c = false.
Proof.
  unfold unreservedNoApos. intros H. apply andb_true_iff in H.
  now apply unreserved_plain.
Qed.

Lemma toDataUrl_encode (normalizeStr : str -> str) s :
  toDataUrl normalizeStr s
  = option_map (app (js "data:image/svg+xml,"))
               (Uri.encode unreservedNoApos (normalizeStr s)).
Proof.
  unfold toDataUrl. rewrite encode_apos.
  destruct (Uri.encodeURIComponent (normalizeStr s)) as [e |] eqn:E; auto.
  cbn [option_map]. do 2 f_equal. rewrite !replace_all_chr.
  apply flat_map_id. intros c Hc. unfold Cls.eq.
  destruct (N.eqb_spec c (ch dq)) as [-> | _]; auto. exfalso.
  pose proof (encode_apos (normalizeStr s)) as A. rewrite E in A.
  cbn [option_map] in A.
  apply (@encode_lacks unreservedNoApos 34%N (normalizeStr s) _ eq_refl
           (or_introl eq_refl) A Hc).
Qed.

(** In [toDataUrl] the replacement of the double quotes changes nothing:
    [encodeURIComponent] has escaped them already.  The function returns
    what it would return without that call. *)
Lemma toDataUrl_quote_idle (normalizeStr : str -> str) s :
  toDataUrl normalizeStr s
  = match Uri.encodeURIComponent (normalizeStr s) with
    | None => None
    | Some e =>
        Some (js "data:image/svg+xml,"
                ++ replace_all (Chr (Cls.eq "'")) (fun _ _ => js "%27") e)
    end.
Proof.
  rewrite toDataUrl_encode, encode_apos.
  destruct (Uri.encodeURIComponent (normalizeStr s)); auto.
  cbn [option_map]. now rewrite replace_all_chr.
Qed.

(** The data URL of a document whose normalized text is made of 16-bit
    code units is the media type followed by letters, digits, the
    characters [- _ . ! ~ * ( )] and percent signs only: no quote of
    either kind, no angle bracket, no white space, no number sign. *)
Lemma toDataUrl_safe (normalizeStr : str -> str) s u :
  codeUnits (normalizeStr s) = true ->
  toDataUrl normalizeStr s = Some u ->
  exists e, u = js "data:image/svg+xml," ++ e /\ forallb urlSafe e = true.
Proof.
  intros C. rewrite toDataUrl_encode.
  destruct (Uri.encode unreservedNoApos (normalizeStr s)) as [e |] eqn:E;
    [| discriminate].
  intros [= <-]. exists e. split; auto. eapply encode_safe; eauto.
Qed.

(** [toDataUrl] throws (the URIError of [encodeURIComponent]) exactly
    when the normalized text is not well formed, that is when it holds a
    surrogate that is not half of a pair. *)
Lemma toDataUrl_fails (normalizeStr : str -> str) s :
  toDataUrl normalizeStr s = None <-> wellFormed (normalizeStr s) = false.
Proof.
  rewrite toDataUrl_encode.
  rewrite <- (@encode_wellFormed unreservedNoApos unreservedNoApos_plain).
  destruct (Uri.encode unreservedNoApos (normalizeStr s)); cbn [option_map];
    split; intros H; discriminate || reflexivity.
Qed.

(** Two documents with the same data URL have the same normalized text
    (16-bit code units): the encoding loses nothing. *)
Lemma toDataUrl_inj (normalizeStr : str -> str) a b u :
  codeUnits (normalizeStr a) = true -> codeUnits (normalizeStr b) = true ->
  toDataUrl normalizeStr a = Some u -> toDataUrl normalizeStr b = Some u ->
  normalizeStr a = normalizeStr b.
Proof.
  intros Ca Cb. rewrite !toDataUrl_encode.
  destruct (Uri.encode unreservedNoApos (normalizeStr a)) as [ea |] eqn:Ea;
    [| discriminate].
  destruct (Uri.encode unreservedNoApos (normalizeStr b)) as [eb |] eqn:Eb;
    [| discriminate].
  intros [= <-] [= E]. subst eb.
  apply (@encode_inj unreservedNoApos eq_refl unreservedNoApos_plain
           _ _ Ea _ Eb Ca Cb).
Qed.


(** ** Well-formed UTF-16 through the transform *)

(** A global replace that keeps the placeholders and what [F] says of
    the document, when [F] cannot tell a match from its replacement. *)
Section Observe.

Variable X : Type.
Variable F : str -> X.

Lemma obs_step A tpl : forall ips,
  (forall m cs, In (IHit m cs) ips ->
                forall u w, F (u ++ m ++ w) = F (u ++ tpl m cs ++ w)) ->
  forall u,
    F (u ++ expand A (flat_map lift1 ips))
    = F (u ++ expand A (flat_map (rewrite1 tpl) ips)).
Proof.
  induction ips as [| x ips IH]; intros H u; auto.
  assert (H' : forall m cs, In (IHit m cs) ips ->
                 forall u w, F (u ++ m ++ w) = F (u ++ tpl m cs ++ w)).
  { intros m cs Hin. apply H. now right. }
  destruct x as [i | m cs].
  - change (flat_map lift1 (IKeep i :: ips)) with (i :: flat_map lift1 ips).
    change (flat_map (rewrite1 tpl) (IKeep i :: ips))
      with (i :: flat_map (rewrite1 tpl) ips).
    change (expand A (i :: flat_map lift1 ips))
      with (expand1 A i ++ expand A (flat_map lift1 ips)).
    change (expand A (i :: flat_map (rewrite1 tpl) ips))
      with (expand1 A i ++ expand A (flat_map (rewrite1 tpl) ips)).
    rewrite !app_assoc. now apply IH.
  - change (flat_map lift1 (IHit m cs :: ips))
      with (List.map Lit m ++ flat_map lift1 ips).
    change (flat_map (rewrite1 tpl) (IHit m cs :: ips))
      with (List.map Lit (tpl m cs) ++ flat_map (rewrite1 tpl) ips).
    rewrite !expand_app, !expand_lits.
    rewrite (H m cs (or_introl eq_refl)).
    rewrite !(app_assoc u (tpl m cs)). now apply IH.
Qed.

Lemma replace_all_obs r tpl its :
  nullable r = false -> inert r -> accepts r 95%N = false ->
  (forall m cs, LangC r m cs -> nous (tpl m cs) = true) ->
  (forall m cs, LangC r m cs ->
                forall u w, F (u ++ m ++ w) = F (u ++ tpl m cs ++ w)) ->
  lits_ok its ->
  exists its',
    replace_all r tpl (render its) = render its' /\
    keeps its its' /\
    forall A u, F (u ++ expand A its) = F (u ++ expand A its').
Proof.
  intros Hn Hin Ha Ht Hq Hok.
  destruct (@pieces_items r Hn Hin its 0 Hok) as (ips & E1 & E2);
    [lia | now apply pieces_hit_nous |].
  simpl in E2. exists (flat_map (rewrite1 tpl) ips).
  pose proof (pieces_hits r (render its) 0) as Fh. rewrite E1 in Fh.
  split; [now apply replace_all_items | split; [split |]].
  - apply (@lits_ok_rewrite r); auto. now rewrite E2.
  - intros i Hi. rewrite <- E2.
    now rewrite In_lift_keep, In_rewrite_keep.
  - intros A u. rewrite <- E2. apply obs_step; auto.
    intros m cs Hm. apply Hq. rewrite Forall_forall in Fh.
    apply (Fh _ (@In_lower_hit m cs ips Hm)).
Qed.

End Observe.

Lemma plain_head c x : plain (c :: x) = true -> Uri.isTrail c = false.
Proof.
  unfold plain, surrogate. cbn [forallb]. intros H.
  apply andb_true_iff in H. destruct H as [H _].
  apply negb_true_iff, orb_false_iff in H. tauto.
Qed.

Lemma plain_wf_app : forall x w,
  plain x = true -> wellFormed (x ++ w) = wellFormed w.
Proof.
  induction x as [| c x IH]; intros w H; auto.
  unfold plain in H. cbn [forallb] in H. apply andb_true_iff in H.
  destruct H as [Hc H]. apply negb_true_iff in Hc.
  unfold surrogate in Hc. apply orb_false_iff in Hc. destruct Hc as [HL HT].
  cbn [app wellFormed]. rewrite HL, HT. now apply IH.
Qed.

Lemma lead_not_trail c : Uri.isLead c = true -> Uri.isTrail c = false.
Proof.
  unfold Uri.isLead, Uri.isTrail. intros H.
  apply andb_true_iff in H. destruct H as [_ H]. apply N.leb_le in H.
  apply andb_false_iff. left. apply N.leb_gt. lia.
Qed.

(** A stretch without surrogates cuts the document in two. *)
Lemma wf_cut x w : plain x = true -> x <> [] -> forall u,
  wellFormed (u ++ x ++ w) = wellFormed u && wellFormed w.
Proof.
  intros Hp Hne.
  assert (S1 : forall c rest,
             wellFormed (rest ++ x ++ w) = wellFormed rest && wellFormed w ->
             Uri.isLead c = false ->
             wellFormed ((c :: rest) ++ x ++ w)
             = wellFormed (c :: rest) && wellFormed w).
  { intros c rest IH HL. cbn [app wellFormed]. rewrite HL, IH.
    now rewrite andb_assoc. }
  apply pair_ind.
  - simpl. now apply plain_wf_app.
  - intros c. destruct (Uri.isLead c) eqn:HL.
    + cbn [app wellFormed]. rewrite HL.
      destruct x as [| d x]; [contradiction |].
      cbn [app]. now rewrite (plain_head _ _ Hp).
    + apply S1; auto. simpl. now apply plain_wf_app.
  - intros c d s IH1 IH2. destruct (Uri.isLead c) eqn:HL; [| now apply S1].
    cbn [app wellFormed]. fold (wellFormed (s ++ x ++ w)).
    fold (wellFormed s). rewrite HL, IH1. now rewrite andb_assoc.
Qed.

Lemma small_plain c : (c < 55296)%N -> surrogate c = false.
Proof.
  intros H. unfold surrogate, Uri.isLead, Uri.isTrail.
  apply orb_false_iff. split; apply andb_false_iff; left; apply N.leb_gt; lia.
Qed.

Lemma toUpper_small c k :
  Cls.toUpper c = k -> (k < 55296)%N -> (c < 55296)%N.
Proof.
  unfold Cls.toUpper, Cls.lower, Cls.between. intros E Hk.
  destruct (N.leb (ch "a") c && N.leb c (ch "z")) eqn:L; [| lia].
  apply andb_true_iff in L. destruct L as [_ L]. apply N.leb_le in L.
  change (ch "z") with 122%N in L. lia.
Qed.

Lemma space_plain c : Cls.space c = true -> surrogate c = false.
Proof.
  unfold Cls.space. rewrite !orb_true_iff, !andb_true_iff, !N.eqb_eq,
    !N.leb_le. intros H.
  unfold surrogate, Uri.isLead, Uri.isTrail.
  apply orb_false_iff. split; apply andb_false_iff; rewrite !N.leb_gt; lia.
Qed.

Lemma between_plain lo hi c :
  Cls.between lo hi c = true -> surrogate c = false.
Proof.
  unfold Cls.between. intros H. apply andb_true_iff in H.
  destruct H as [_ H]. apply N.leb_le in H.
  pose proof (N_ascii_bounded hi). unfold ch in H.
  apply small_plain. lia.
Qed.

Lemma eq_plain a c : Cls.eq a c = true -> surrogate c = false.
Proof.
  unfold Cls.eq. intros H. apply N.eqb_eq in H. subst c.
  pose proof (N_ascii_bounded a). apply small_plain. unfold ch. lia.
Qed.

Lemma ci_plain a c : Cls.ci a c = true -> surrogate c = false.
Proof.
  unfold Cls.ci. intros H. apply N.eqb_eq in H.
  apply small_plain. apply (toUpper_small _ H).
  pose proof (N_ascii_bounded a). unfold Cls.toUpper, ch.
  destruct (Cls.lower (N_of_ascii a)); lia.
Qed.

Lemma alpha_plain c : Cls.alpha c = true -> surrogate c = false.
Proof.
  unfold Cls.alpha, Cls.lower, Cls.upper. intros H.
  apply orb_true_iff in H. destruct H as [H | H];
    now apply between_plain in H.
Qed.

Lemma nameChar_plain c : Cls.nameChar c = true -> surrogate c = false.
Proof.
  unfold Cls.nameChar. intros H.
  apply orb_true_iff in H. destruct H as [H | H];
    [apply orb_true_iff in H; destruct H as [H | H] |].
  - now apply alpha_plain.
  - now apply between_plain in H.
  - now apply eq_plain in H.
Qed.

Lemma quote_plain c : Cls.quote c = true -> surrogate c = false.
Proof.
  unfold Cls.quote. intros H. apply orb_true_iff in H.
  destruct H as [H | H]; now apply eq_plain in H.
Qed.

Lemma lit_ci_plain w c :
  accepts (lit Cls.ci w) c = true -> surrogate c = false.
Proof.
  induction w as [| a w IH]; cbn [accepts lit]; [discriminate |].
  intros H. apply orb_true_iff in H. destruct H as [H | H]; auto.
  now apply ci_plain in H.
Qed.

Lemma litsCi_plain M c :
  forallb Cls.digit M = true ->
  accepts (litsCi M) c = true -> surrogate c = false.
Proof.
  induction M as [| d M IH]; cbn [accepts litsCi forallb];
    [discriminate |].
  intros HM H. apply andb_true_iff in HM. destruct HM as [Hd HM].
  apply orb_true_iff in H. destruct H as [H | H]; auto.
  apply N.eqb_eq in H. apply toUpper_digit in H; auto. subst c.
  now apply between_plain in Hd.
Qed.

Lemma Lang_plain r m :
  (forall c, accepts r c = true -> surrogate c = false) ->
  Lang r m -> plain m = true.
Proof.
  intros H L. apply Lang_accepts in L. rewrite forallb_forall in L.
  apply forallb_forall. intros c Hc. apply negb_true_iff. auto.
Qed.

Lemma plain_app a b : plain (a ++ b) = plain a && plain b.
Proof. apply forallb_app. Qed.

Lemma group_plain r m cs i :
  LangC r m cs -> plain m = true -> plain (group i cs) = true.
Proof.
  intros L H. apply group_forallb. eapply LangC_captures; eauto.
Qed.

Ltac accepts_cases H :=
  repeat match type of H with
         | (_ || _)%bool = true =>
             apply orb_true_iff in H; destruct H as [H | H]
         end.

Lemma nsToXlink_plain M c :
  forallb Cls.digit M = true ->
  accepts (V120.nsToXlinkPattern M) c = true -> surrogate c = false.
Proof.
  intros HM H. unfold V120.nsToXlinkPattern in H.
  cbn [accepts cat Plus] in H. accepts_cases H;
    try discriminate;
    eauto using space_plain, lit_ci_plain, litsCi_plain, ci_plain,
                alpha_plain, nameChar_plain.
Qed.

Lemma xmlns_plain M c :
  forallb Cls.digit M = true ->
  accepts (V120.xmlnsPattern M) c = true -> surrogate c = false.
Proof.
  intros HM H. unfold V120.xmlnsPattern in H.
  cbn [accepts cat Plus] in H. accepts_cases H;
    try discriminate;
    eauto using space_plain, lit_ci_plain, litsCi_plain, ci_plain,
                quote_plain.
Qed.

Lemma same_wf_refl its : same_wf its its.
Proof. now intros A u. Qed.

Lemma same_wf_trans a b c : same_wf a b -> same_wf b c -> same_wf a c.
Proof. intros H1 H2 A u. now rewrite H1. Qed.

Lemma wf_swap x y :
  plain x = true -> x <> [] -> plain y = true -> y <> [] ->
  forall u w, wellFormed (u ++ x ++ w) = wellFormed (u ++ y ++ w).
Proof. intros Hx Nx Hy Ny u w. now rewrite !wf_cut. Qed.

Lemma rewriteAttrs_wf : forall ps its,
  Forall (fun M => forallb Cls.digit M = true) ps ->
  lits_ok its ->
  exists its', V120.rewriteAttrs ps (render its) = render its' /\
               keeps its its' /\ same_wf its its'.
Proof.
  unfold V120.rewriteAttrs.
  induction ps as [| M ps IH]; intros its Hps Hok; cbn [fold_left].
  - exists its. auto using keeps_refl, same_wf_refl.
  - inversion Hps as [| ? ? HM Hps']; subst.
    destruct (@replace_all_obs bool wellFormed (V120.nsToXlinkPattern M)
                (fun _ cs => js " xlink:" ++ group 1 cs ++ js "=") its)
      as (its1 & E1 & K1 & C1);
      auto using inert_nsToXlinkPattern, accepts_nsToXlinkPattern,
                 digits_nous.
    { intros m cs L. rewrite !nous_app.
      rewrite (@group_nous (V120.nsToXlinkPattern M) m cs 1);
        auto using accepts_nsToXlinkPattern, digits_nous. }
    { intros m cs L.
      assert (Pm : plain m = true).
      { apply (@Lang_plain (V120.nsToXlinkPattern M));
          eauto using LangC_Lang, nsToXlink_plain. }
      apply wf_swap; auto.
      - apply (@Lang_nonempty (V120.nsToXlinkPattern M) m eq_refl).
        eauto using LangC_Lang.
      - rewrite !plain_app, (group_plain 1 L Pm). reflexivity.
      - discriminate. }
    rewrite E1. destruct (IH its1 Hps' (proj1 K1)) as (its2 & E2 & K2 & C2).
    exists its2. split; [| split]; auto.
    + eapply keeps_trans; eauto.
    + eapply same_wf_trans; eauto.
Qed.

Lemma rewriteDecls_wf : forall ps its,
  Forall (fun M => forallb Cls.digit M = true) ps ->
  lits_ok its ->
  exists its', V120.rewriteDecls ps (render its) = render its' /\
               keeps its its' /\ same_wf its its'.
Proof.
  unfold V120.rewriteDecls.
  induction ps as [| M ps IH]; intros its Hps Hok; cbn [fold_left].
  - exists its. auto using keeps_refl, same_wf_refl.
  - inversion Hps as [| ? ? HM Hps']; subst.
    destruct (@replace_all_obs bool wellFormed (V120.xmlnsPattern M)
                (fun _ cs => js "xmlns:xlink" ++ group 1 cs) its)
      as (its1 & E1 & K1 & C1);
      auto using inert_xmlnsPattern, accepts_xmlnsPattern, digits_nous.
    { intros m cs L. rewrite !nous_app.
      rewrite (@group_nous (V120.xmlnsPattern M) m cs 1);
        auto using accepts_xmlnsPattern, digits_nous. }
    { intros m cs L.
      assert (Pm : plain m = true).
      { apply (@Lang_plain (V120.xmlnsPattern M));
          eauto using LangC_Lang, xmlns_plain. }
      apply wf_swap; auto.
      - apply (@Lang_nonempty (V120.xmlnsPattern M) m eq_refl).
        eauto using LangC_Lang.
      - rewrite !plain_app, (group_plain 1 L Pm). reflexivity.
      - discriminate. }
    rewrite E1. destruct (IH its1 Hps' (proj1 K1)) as (its2 & E2 & K2 & C2).
    exists its2. split; [| split]; auto.
    + eapply keeps_trans; eauto.
    + eapply same_wf_trans; eauto.
Qed.

Lemma svg_plain a : eq_ci a (js "svg") -> plain a = true.
Proof.
  intros H. change (js "svg") with [115; 118; 103]%N in H.
  repeat match goal with
         | H : eq_ci _ (_ :: _) |- _ =>
             apply eq_ci_cons in H; destruct H as (? & ? & -> & ? & H)
         | H : eq_ci _ [] |- _ => apply eq_ci_nil in H; subst
         end.
  unfold plain. cbn [forallb].
  repeat match goal with
         | H : Cls.toUpper ?c = Cls.toUpper ?k |- _ =>
             apply toUpper_small in H; [| vm_compute; reflexivity];
             apply small_plain in H; rewrite H; clear H
         end.
  reflexivity.
Qed.

Lemma ensureDecl_wf its :
  lits_ok its ->
  exists its', V120.ensureDecl (render its) = render its' /\
               keeps its its' /\ same_wf its its'.
Proof.
  intros Hok. unfold V120.ensureDecl.
  destruct (contains (js "xlink:href") (render its)
            && negb (contains (js "xmlns:xlink") (render its)));
    [| exists its; auto using keeps_refl, same_wf_refl].
  match goal with
  | |- context [replace_first ?r ?tpl ?s] =>
      destruct (replace_first_spec r tpl s)
        as [-> | (pre & m & cs & rest & E1 & L & ->)]
  end; [exists its; auto using keeps_refl, same_wf_refl |].
  apply svgOpen_match_full in L. destruct L as (a & g & -> & -> & Ea & _).
  pose proof (svg_nous Ea) as Na.
  simpl group. simpl app in E1.
  destruct (@align its pre 60%N _ eq_refl E1) as (its1 & its2 & -> & R1 & R2).
  apply lits_ok_app in Hok. destruct Hok as [Hok1 Hok2].
  inversion Hok2 as [| ? ? _ Hok2']; subst. clear Hok2.
  rewrite <- app_assoc in R2.
  destruct (@run_prefix a its2 _ Hok2' Na R2) as (its3 & -> & R3).
  apply lits_ok_app in Hok2'. destruct Hok2' as [_ Hok3].
  rewrite <- app_assoc in R3. simpl in R3.
  destruct (@align its3 g 62%N rest eq_refl R3) as (itsg & its4 & -> & R4 & R5).
  apply lits_ok_app in Hok3. destruct Hok3 as [Hokg Hok4].
  inversion Hok4 as [| ? ? _ Hok4']; subst. clear Hok4.
  exists (its1 ++ List.map Lit (js "<svg") ++ itsg
            ++ List.map Lit (jsq " xmlns:xlink=`" ++ js V120.xlinkUri
                               ++ jsq "`>") ++ its4).
  split; [| split; [split |]].
  - rewrite !render_app, !render_lits. now rewrite <- !app_assoc.
  - repeat (apply lits_ok_app; split); auto; now apply lits_ok_lits.
  - intros i Hi. rewrite !in_app_iff. simpl. rewrite !in_app_iff.
    pose proof (@In_Ph_lits i a Hi) as X1.
    pose proof (@In_Ph_lits i (js "<svg") Hi) as X2.
    pose proof (@In_Ph_lits i (jsq " xmlns:xlink=`" ++ js V120.xlinkUri
                                  ++ jsq "`>") Hi) as X3.
    destruct i as [c | q n]; [discriminate |].
    split; intros H; repeat destruct H as [H | H];
      try discriminate; try tauto.
    do 4 right. now right.
  - intros A u.
    change (Lit 60%N :: List.map Lit a ++ itsg ++ Lit 62%N :: its4)
      with (List.map Lit (60%N :: a) ++ itsg ++ [Lit 62%N] ++ its4).
    rewrite !expand_app, !expand_lits.
    change (expand A [Lit 62%N]) with [62%N].
    set (e1 := expand A its1). set (eg := expand A itsg).
    set (e4 := expand A its4).
    set (D := jsq " xmlns:xlink=`" ++ js V120.xlinkUri ++ jsq "`>").
    rewrite !(app_assoc u e1).
    rewrite (@wf_cut (60%N :: a)), (@wf_cut (js "<svg"));
      try discriminate; try reflexivity;
      [| pose proof (svg_plain Ea) as Pa; unfold plain in *;
         cbn [forallb]; now rewrite Pa].
    f_equal.
    transitivity (wellFormed eg && wellFormed e4).
    + now rewrite (@wf_cut [62%N]).
    + now rewrite (@wf_cut D).
Qed.

Lemma normalizeStr_wellFormed s :
  clean s = true -> wellFormed (V120.normalizeStr s) = wellFormed s.
Proof.
  intros C.
  destruct (@protect_Inv s C) as (its & A & E1 & E2 & I).
  unfold V120.normalizeStr.
  destruct (V120.protectBase64 s) as [r1 b64]. cbn [fst snd] in *.
  destruct (V120.protectIdRefs r1) as [r2 ids]. cbn [fst snd] in *.
  injection E1 as E1. injection E2 as -> E2. subst b64 ids.
  pose proof (exec_all_digits (render its)) as F.
  destruct (exec_all V120.xlinkNsPattern (render its)) as [| N0 ps] eqn:EA.
  - now rewrite (restoreAll_Inv I).
  - assert (F2 : Forall (fun M => forallb Cls.digit M = true) (N0 :: ps)).
    { eapply Forall_impl; [| exact F]. simpl. tauto. }
    destruct (@rewriteAttrs_wf (N0 :: ps) its F2 (inv_ok I))
      as (its1 & R1 & K1 & C1).
    destruct (@rewriteDecls_wf (N0 :: ps) its1 F2 (proj1 K1))
      as (its2 & R2 & K2 & C2).
    destruct (@ensureDecl_wf its2 (proj1 K2)) as (its3 & R3 & K3 & C3).
    rewrite R1, R2, R3.
    assert (K : keeps its its3) by eauto using keeps_trans.
    rewrite (restoreAll_Inv (Inv_keeps I K)).
    pose proof (same_wf_trans C1 (same_wf_trans C2 C3) A []) as X.
    simpl in X. rewrite <- X. now rewrite (inv_expand I).
Qed.

(** X9.  On a document that holds no underscore and whose recorded spans hold
    none, the output of [normalize] is well-formed UTF-16 exactly when
    the document is: no surrogate pair is cut and no lone surrogate is
    taken away. *)
Theorem normalize_keeps_wellFormed s :
  clean s = true ->
  exists out,
    V120.normalize (VString s) = VString out /\
    wellFormed out = wellFormed s.
Proof.
  intros C. exists (V120.normalizeStr s).
  split; [apply normalize_string | now apply normalizeStr_wellFormed].
Qed.

Lemma normalize_keeps_wellFormed_witness :
  exists out,
    V120.normalize
      (VString (jsq "<svg xmlns:ns1=`http://www.w3.org/1999/xlink`><text>"
                  ++ [55357; 56832]%N
                  ++ jsq "</text><image ns1:href=`a.png`/></svg>"))
    = VString out /\
    wellFormed out
    = wellFormed (jsq "<svg xmlns:ns1=`http://www.w3.org/1999/xlink`><text>"
                    ++ [55357; 56832]%N
                    ++ jsq "</text><image ns1:href=`a.png`/></svg>").
Proof.
  apply normalize_keeps_wellFormed. vm_compute. reflexivity.
Defined.

(** X10.  [toDataUrl] of version 1.2.0 returns a data URL, and does not throw,
    on every well-formed document that holds no underscore and whose
    recorded spans hold none. *)
Theorem toDataUrl_returns s :
  clean s = true -> wellFormed s = true ->
  exists u, V120x.toDataUrl s = Some u.
Proof.
  intros C W. unfold V120x.toDataUrl. rewrite toDataUrl_encode.
  pose proof (@encode_wellFormed unreservedNoApos unreservedNoApos_plain
                (V120.normalizeStr s)) as X.
  rewrite (normalizeStr_wellFormed s C), W in X.
  destruct (Uri.encode unreservedNoApos (V120.normalizeStr s)) as [e |];
    [| discriminate].
  cbn [option_map]. eauto.
Qed.

Lemma toDataUrl_returns_witness :
  exists u,
    V120x.toDataUrl
      (jsq "<svg xmlns:ns1=`http://www.w3.org/1999/xlink`><text>"
         ++ [55357; 56832]%N
         ++ jsq "</text><image ns1:href=`a.png`/></svg>") = Some u.
Proof.
  apply toDataUrl_returns; vm_compute; reflexivity.
Defined.

(** ** The code units of the output *)

Section Frame.

Variable P : char -> bool.

Lemma forallb_skipn n : forall s : str,
  forallb P s = true -> forallb P (skipn n s) = true.
Proof.
  induction n as [| n IH]; intros [| c s] H; auto.
  simpl in *. apply andb_true_iff in H. now apply IH.
Qed.

Lemma forallb_rev (s : str) : forallb P s = true -> forallb P (rev s) = true.
Proof.
  rewrite !forallb_forall. intros H c Hc. apply H. now apply in_rev.
Qed.

Lemma exec_in r s m cs :
  forallb P s = true -> exec r s = Some (m, cs) ->
  forallb P m = true /\ caps_in P cs.
Proof.
  intros H E. apply exec_sound in E. destruct E as (rest & -> & _ & L).
  rewrite forallb_app in H. apply andb_true_iff in H. destruct H as [H _].
  split; auto. now apply (@LangC_captures P _ _ _ L).
Qed.

Lemma pieces_in r : forall s k,
  forallb P s = true -> Forall (piece_in P) (pieces r s k).
Proof.
  induction s as [| c s IH]; intros k H; cbn [pieces].
  - destruct k; [| constructor].
    destruct (exec r []) as [[m cs] |] eqn:E; constructor; auto.
    simpl. eapply (@exec_in r); eauto.
  - pose proof H as H'. cbn [forallb] in H'. apply andb_true_iff in H'.
    destruct H' as [Hc Hs]. destruct k; auto.
    destruct (exec r (c :: s)) as [[m cs] |] eqn:E.
    + pose proof (@exec_in r _ _ _ H E) as X.
      destruct (length m); repeat constructor; auto; apply X.
    + constructor; simpl; auto.
Qed.

Lemma replace_all_in r tpl s :
  forallb P s = true ->
  (forall m cs, forallb P m = true -> caps_in P cs ->
                forallb P (tpl m cs) = true) ->
  forallb P (replace_all r tpl s) = true.
Proof.
  intros H Ht. unfold replace_all.
  pose proof (@pieces_in r _ 0 H) as F.
  induction F as [| [c | m cs] ps Hx _ IH]; simpl; auto.
  - simpl in Hx. now rewrite Hx.
  - rewrite forallb_app, IH, andb_true_r. destruct Hx. now apply Ht.
Qed.

Lemma exec_all_in r s :
  forallb P s = true ->
  Forall (fun g => forallb P g = true) (exec_all r s).
Proof.
  intros H. unfold exec_all.
  pose proof (@pieces_in r _ 0 H) as F.
  induction F as [| [c | m cs] ps Hx _ IH]; simpl; auto.
  constructor; auto. destruct Hx as [_ Hx]. now apply group_forallb.
Qed.

Lemma replace_first_in r tpl : forall s,
  forallb P s = true ->
  (forall m cs, forallb P m = true -> caps_in P cs ->
                forallb P (tpl m cs) = true) ->
  forallb P (replace_first r tpl s) = true.
Proof.
  intros s H Ht. induction s as [| c s IH]; cbn [replace_first].
  - destruct (exec r []) as [[m cs] |] eqn:E; auto.
    destruct (@exec_in r _ _ _ H E). rewrite forallb_app, Ht; auto.
    now rewrite forallb_skipn.
  - destruct (exec r (c :: s)) as [[m cs] |] eqn:E.
    + destruct (@exec_in r _ _ _ H E). rewrite forallb_app, Ht; auto.
      now rewrite forallb_skipn.
    + cbn [forallb] in *. apply andb_true_iff in H. destruct H as [-> H].
      now apply IH.
Qed.

Hypothesis P_emitted : forallb P emitted = true.

Lemma P_part (t : str) :
  (forall c, In c t -> In c emitted) -> forallb P t = true.
Proof.
  intros H. apply forallb_forall. intros c Hc.
  pose proof P_emitted as E. rewrite forallb_forall in E. auto.
Qed.

Lemma P_digits t : forallb Cls.digit t = true -> forallb P t = true.
Proof.
  intros H. apply forallb_forall. intros c Hc.
  rewrite forallb_forall in H. specialize (H c Hc).
  pose proof P_emitted as E. rewrite forallb_forall in E. apply E.
  unfold Cls.digit, Cls.between in H. apply andb_true_iff in H.
  destruct H as [H1 H2]. apply N.leb_le in H1, H2.
  change (ch "0") with 48%N in H1. change (ch "9") with 57%N in H2.
  assert (X : exists k, (k < 10)%nat /\ c = (48 + N.of_nat k)%N).
  { exists (N.to_nat (c - 48)). split; lia. }
  destruct X as (k & Hk & ->).
  do 10 (destruct k as [| k]; [vm_compute; tauto |]). lia.
Qed.

Lemma protector_in prefix suffix :
  forallb P prefix = true -> forallb P suffix = true ->
  forall ps arr,
    Forall (piece_in P) ps -> Forall (fun m => forallb P m = true) arr ->
    forallb P (fst (replace_fn (V120.protector prefix suffix) ps arr)) = true
    /\ Forall (fun m => forallb P m = true)
              (snd (replace_fn (V120.protector prefix suffix) ps arr)).
Proof.
  intros Hp Hs. induction ps as [| [c | m cs] ps IH]; intros arr F Ha;
    cbn [replace_fn].
  - auto.
  - inversion F as [| ? ? Hc F']; subst. simpl in Hc.
    destruct (IH arr F' Ha) as [I1 I2].
    destruct (replace_fn (V120.protector prefix suffix) ps arr).
    simpl in *. now rewrite Hc.
  - inversion F as [| ? ? Hx F']; subst. simpl in Hx. destruct Hx as [Hm _].
    change (V120.protector prefix suffix arr m cs)
      with (prefix ++ numToString (length arr) ++ suffix, arr ++ [m]).
    cbn iota beta.
    assert (Ha' : Forall (fun m => forallb P m = true) (arr ++ [m])).
    { apply Forall_app. auto. }
    match goal with
    | |- context [replace_fn ?f ps ?a] =>
        destruct (IH a F' Ha') as [I1 I2]; destruct (replace_fn f ps a)
    end.
    cbn [fst snd] in *. split; auto.
    rewrite !forallb_app, Hp, Hs, I1, P_digits;
      auto using numToString_digits.
Qed.

Lemma split_join_go_in sep rep : forall s k,
  forallb P s = true -> forallb P rep = true ->
  forallb P (split_join_go sep rep s k) = true.
Proof.
  induction s as [| c s IH]; intros k H Hr; auto.
  cbn [forallb] in H. apply andb_true_iff in H. destruct H as [Hc H].
  cbn [split_join_go]. destruct k; auto.
  destruct (prefixb sep (c :: s)).
  - rewrite forallb_app, Hr. simpl. auto.
  - cbn [forallb]. rewrite Hc. simpl. auto.
Qed.

Lemma intersperse_in rep : forall s,
  forallb P s = true -> forallb P rep = true ->
  forallb P (intersperse rep s) = true.
Proof.
  induction s as [| c s IH]; intros H Hr; auto.
  cbn [forallb] in H. apply andb_true_iff in H. destruct H as [Hc H].
  cbn [intersperse]. destruct s as [| d s]; [simpl; now rewrite Hc |].
  cbn [forallb]. rewrite Hc, forallb_app, Hr. simpl. auto.
Qed.

Lemma split_join_in sep rep s :
  forallb P s = true -> forallb P rep = true ->
  forallb P (split_join sep rep s) = true.
Proof.
  destruct sep; simpl; auto using intersperse_in, split_join_go_in.
Qed.

Lemma restore_in prefix suffix : forall arr n result,
  Forall (fun m => forallb P m = true) arr -> forallb P result = true ->
  forallb P (V120.restore prefix suffix n arr result) = true.
Proof.
  induction arr as [| m arr IH]; intros n result Ha H; auto.
  inversion Ha; subst. cbn [V120.restore]. apply IH; auto.
  now apply split_join_in.
Qed.

Lemma rewriteAttrs_in : forall ps s,
  Forall (fun g => forallb P g = true) ps -> forallb P s = true ->
  forallb P (V120.rewriteAttrs ps s) = true.
Proof.
  unfold V120.rewriteAttrs.
  induction ps as [| M ps IH]; intros s F H; auto.
  inversion F; subst. cbn [fold_left]. apply IH; auto.
  apply replace_all_in; auto. intros m cs Hm Hc.
  rewrite !forallb_app, (@group_forallb P 1 _ Hc).
  rewrite !P_part; auto; intros c Hx;
    repeat (destruct Hx as [<- | Hx]; [vm_compute; tauto |]); destruct Hx.
Qed.

Lemma rewriteDecls_in : forall ps s,
  Forall (fun g => forallb P g = true) ps -> forallb P s = true ->
  forallb P (V120.rewriteDecls ps s) = true.
Proof.
  unfold V120.rewriteDecls.
  induction ps as [| M ps IH]; intros s F H; auto.
  inversion F; subst. cbn [fold_left]. apply IH; auto.
  apply replace_all_in; auto. intros m cs Hm Hc.
  rewrite !forallb_app, (@group_forallb P 1 _ Hc).
  rewrite !P_part; auto; intros c Hx;
    repeat (destruct Hx as [<- | Hx]; [vm_compute; tauto |]); destruct Hx.
Qed.

Lemma ensureDecl_in s :
  forallb P s = true -> forallb P (V120.ensureDecl s) = true.
Proof.
  intros H. unfold V120.ensureDecl.
  destruct (contains _ s && negb (contains _ s)); auto.
  apply replace_first_in; auto. intros m cs Hm Hc.
  rewrite !forallb_app, (@group_forallb P 1 _ Hc).
  rewrite !P_part; auto; intros c Hx;
    repeat (destruct Hx as [<- | Hx]; [vm_compute; tauto |]); destruct Hx.
Qed.

Lemma protect_in r1 r2 prefix suffix s :
  forallb P prefix = true -> forallb P suffix = true ->
  forallb P s = true ->
  forallb P
    (fst (let (t, a1) := replace_fn (V120.protector prefix suffix)
                           (pieces r1 s 0) [] in
          replace_fn (V120.protector prefix suffix) (pieces r2 t 0) a1))
  = true /\
  Forall (fun m => forallb P m = true)
    (snd (let (t, a1) := replace_fn (V120.protector prefix suffix)
                           (pieces r1 s 0) [] in
          replace_fn (V120.protector prefix suffix) (pieces r2 t 0) a1)).
Proof.
  intros Hp Hs H.
  match goal with
  | |- context [let (_, _) := ?X in _] =>
      assert (AB : forallb P (fst X) = true /\
                   Forall (fun m => forallb P m = true) (snd X))
        by apply (@protector_in _ _ Hp Hs _ _ (@pieces_in r1 _ 0 H)
                    (Forall_nil _));
      destruct X as [t a1]
  end.
  cbn [fst snd] in AB. destruct AB as [A B].
  apply (@protector_in _ _ Hp Hs _ _ (@pieces_in r2 _ 0 A) B).
Qed.

Lemma normalizeStr_in s :
  forallb P s = true -> forallb P (V120.normalizeStr s) = true.
Proof.
  intros H. unfold V120.normalizeStr.
  assert (Hp : forallb P V120.placeholderPrefix = true).
  { apply P_part. intros c Hc.
    repeat (destruct Hc as [<- | Hc]; [vm_compute; tauto |]); destruct Hc. }
  assert (Hi : forallb P V120.idRefPlaceholderPrefix = true).
  { apply P_part. intros c Hc.
    repeat (destruct Hc as [<- | Hc]; [vm_compute; tauto |]); destruct Hc. }
  assert (Hs : forallb P V120.placeholderSuffix = true).
  { apply P_part. intros c Hc.
    repeat (destruct Hc as [<- | Hc]; [vm_compute; tauto |]); destruct Hc. }
  destruct (@protect_in V120.base64Dq V120.base64Sq _ _ s Hp Hs H)
    as [A1 B1].
  fold (V120.protectBase64 s) in A1, B1.
  destruct (V120.protectBase64 s) as [r1 b64]. cbn [fst snd] in A1, B1.
  destruct (@protect_in V120.urlRef V120.hrefRef _ _ r1 Hi Hs A1)
    as [A2 B2].
  change V120.placeholderSuffix with V120.idRefPlaceholderSuffix in A2, B2.
  fold (V120.protectIdRefs r1) in A2, B2.
  destruct (V120.protectIdRefs r1) as [r2 ids]. cbn [fst snd] in A2, B2.
  pose proof (@exec_all_in V120.xlinkNsPattern _ A2) as F.
  assert (R : forall t, forallb P t = true ->
                        forallb P (V120.restoreAll ids b64 t) = true).
  { intros t Ht. unfold V120.restoreAll. auto using restore_in. }
  destruct (exec_all V120.xlinkNsPattern r2) as [| N0 ps]; auto.
  apply R. apply ensureDecl_in. apply rewriteDecls_in; auto.
  apply rewriteAttrs_in; auto.
Qed.

End Frame.

Section Frame110.

Variable P : char -> bool.
Hypothesis P_emitted : forallb P emitted = true.

Lemma substitute_in : forall tpl matched before after,
  forallb P tpl = true -> forallb P matched = true ->
  forallb P before = true -> forallb P after = true ->
  forallb P (substitute tpl matched before after) = true.
Proof.
  assert (X : forall n tpl matched before after,
             length tpl <= n ->
             forallb P tpl = true -> forallb P matched = true ->
             forallb P before = true -> forallb P after = true ->
             forallb P (substitute tpl matched before after) = true).
  { induction n as [| n IH]; intros [| c t] m b a L Ht Hm Hb Ha; auto;
      try (simpl in L; lia).
    cbn [forallb] in Ht. apply andb_true_iff in Ht. destruct Ht as [Hc Ht].
    cbn [substitute]. destruct (N.eqb_spec c 36) as [-> | _].
    - destruct t as [| d t']; [simpl; now rewrite Hc |].
      pose proof Ht as Ht'. cbn [forallb] in Ht'.
      apply andb_true_iff in Ht'. destruct Ht' as [Hd Ht'].
      assert (I1 : forallb P (substitute t' m b a) = true).
      { apply IH; auto. simpl in L. lia. }
      assert (I2 : forallb P (substitute (d :: t') m b a) = true).
      { apply IH; auto. simpl in *. lia. }
      destruct (N.eqb d 36); [| destruct (N.eqb d 38);
        [| destruct (N.eqb d 96); [| destruct (N.eqb d 39)]]];
        rewrite ?forallb_app; cbn [forallb];
        rewrite ?Hm, ?Hb, ?Ha, ?Hc, ?I1, ?I2; auto.
    - cbn [forallb]. rewrite Hc. simpl. apply IH; auto. simpl in L. lia. }
  intros tpl. intros. now apply (X (length tpl)).
Qed.

Lemma replace_str_go_in pat tpl : forall s before_rev,
  forallb P pat = true -> forallb P tpl = true ->
  forallb P s = true -> forallb P before_rev = true ->
  forallb P (replace_str_go pat tpl before_rev s) = true.
Proof.
  induction s as [| c s IH]; intros b Hp Ht Hs Hb; cbn [replace_str_go].
  - destruct (prefixb pat []); auto.
    rewrite forallb_app. apply andb_true_iff. split.
    + apply substitute_in; auto using forallb_skipn, forallb_rev.
    + now apply forallb_skipn.
  - destruct (prefixb pat (c :: s)).
    + rewrite forallb_app. apply andb_true_iff. split.
      * apply substitute_in; auto using forallb_skipn, forallb_rev.
      * now apply forallb_skipn.
    + pose proof Hs as Hs'. cbn [forallb] in Hs'.
      apply andb_true_iff in Hs'. destruct Hs' as [Hc Hs'].
      cbn [forallb]. rewrite Hc. simpl. apply IH; auto.
      cbn [forallb]. now rewrite Hc.
Qed.

Lemma restore110_in : forall arr n result,
  Forall (fun m => forallb P m = true) arr -> forallb P result = true ->
  forallb P (V110.restore n arr result) = true.
Proof.
  induction arr as [| m arr IH]; intros n result Ha H; auto.
  inversion Ha; subst. cbn [V110.restore]. apply IH; auto.
  unfold replace_str. apply replace_str_go_in; auto.
  rewrite !forallb_app, (@P_digits P P_emitted _ (numToString_digits n)).
  rewrite !(@P_part P P_emitted); auto; intros c Hx;
    repeat (destruct Hx as [<- | Hx]; [vm_compute; tauto |]); destruct Hx.
Qed.

Lemma ensureSvgNs_in s :
  forallb P s = true -> forallb P (V110.ensureSvgNs s) = true.
Proof.
  intros H. unfold V110.ensureSvgNs.
  destruct (negb (contains _ s) && negb (contains _ s)); auto.
  apply replace_first_in; auto. intros m cs Hm Hc.
  rewrite !forallb_app, (@group_forallb P 1 _ Hc).
  rewrite !(@P_part P P_emitted); auto; intros c Hx;
    repeat (destruct Hx as [<- | Hx]; [vm_compute; tauto |]); destruct Hx.
Qed.

Lemma tidySpaces_in s :
  forallb P s = true -> forallb P (V110.tidySpaces s) = true.
Proof.
  intros H. unfold V110.tidySpaces.
  assert (S1 : forallb P (js " ") = true /\ forallb P (js ">") = true /\
               forallb P (js "<") = true).
  { repeat split; apply (@P_part P P_emitted); intros c Hx;
      repeat (destruct Hx as [<- | Hx]; [vm_compute; tauto |]); destruct Hx. }
  destruct S1 as (S1 & S2 & S3).
  repeat apply replace_all_in; auto.
  intros m cs Hm _. apply replace_all_in; auto.
Qed.

Lemma normalizeStr110_in s :
  forallb P s = true -> forallb P (V110.normalizeStr s) = true.
Proof.
  intros H. unfold V110.normalizeStr.
  assert (Hp : forallb P V120.placeholderPrefix = true).
  { apply (@P_part P P_emitted). intros c Hc.
    repeat (destruct Hc as [<- | Hc]; [vm_compute; tauto |]); destruct Hc. }
  assert (Hs : forallb P V120.placeholderSuffix = true).
  { apply (@P_part P P_emitted). intros c Hc.
    repeat (destruct Hc as [<- | Hc]; [vm_compute; tauto |]); destruct Hc. }
  destruct (@protect_in P P_emitted V110.base64Dq V110.base64Sq _ _ s
              Hp Hs H) as [A1 B1].
  fold (V110.protectBase64 s) in A1, B1.
  destruct (V110.protectBase64 s) as [r0 b64]. cbn [fst snd] in A1, B1.
  pose proof (@exec_all_in P V120.xlinkNsPattern _ A1) as F.
  apply restore110_in; auto. apply tidySpaces_in. apply ensureSvgNs_in.
  apply ensureDecl_in; auto.
  apply replace_all_in.
  - apply rewriteAttrs_in; auto.
    apply replace_all_in.
    + apply replace_all_in; auto.
    + intros m cs Hm Hc. rewrite forallb_app, (@group_forallb P 1 _ Hc).
      rewrite (@P_part P P_emitted); auto; intros c Hx;
        repeat (destruct Hx as [<- | Hx]; [vm_compute; tauto |]); destruct Hx.
  - intros m cs Hm Hc. rewrite !forallb_app, (@group_forallb P 1 _ Hc).
    rewrite !(@P_part P P_emitted); auto; intros c Hx;
      repeat (destruct Hx as [<- | Hx]; [vm_compute; tauto |]); destruct Hx.
Qed.

End Frame110.

(** X11.  Every code unit of the output of [normalize], in either version, is
    a code unit of the input document or of one of the literal texts the
    function writes. *)
Theorem normalize_writes_input_or_literals s out c :
  V120.normalize (VString s) = VString out \/
  V110.normalize (VString s) = VString out ->
  In c out -> In c s \/ In c emitted.
Proof.
  set (P := fun x : char => existsb (N.eqb x) (s ++ emitted)).
  assert (PI : forall t, (forall x, In x t -> In x (s ++ emitted)) ->
                         forallb P t = true).
  { intros t Ht. apply forallb_forall. intros x Hx. apply existsb_exists.
    exists x. split; auto. apply N.eqb_refl. }
  assert (Pe : forallb P emitted = true).
  { apply PI. intros x Hx. apply in_or_app. now right. }
  assert (Ps : forallb P s = true).
  { apply PI. intros x Hx. apply in_or_app. now left. }
  assert (X : forall t, forallb P t = true -> In c t ->
                        In c s \/ In c emitted).
  { intros t Ht Hc. rewrite forallb_forall in Ht. specialize (Ht c Hc).
    apply existsb_exists in Ht. destruct Ht as (y & Hy & E).
    apply N.eqb_eq in E. subst y. now apply in_app_or. }
  intros [E | E] Hc.
  - rewrite normalize_string in E. injection E as <-.
    apply (X _ (@normalizeStr_in P Pe s Ps) Hc).
  - assert (E' : V110.normalize (VString s) = VString (V110.normalizeStr s))
      by (destruct s; reflexivity).
    rewrite E' in E. injection E as <-.
    apply (X _ (@normalizeStr110_in P Pe s Ps) Hc).
Qed.

Lemma normalize_writes_input_or_literals_witness :
  In 120%N (jsq "<svg xmlns:ns1=`http://www.w3.org/1999/xlink`><a ns1:href=`b`/></svg>")
  \/ In 120%N emitted.
Proof.
  apply (@normalize_writes_input_or_literals
           (jsq "<svg xmlns:ns1=`http://www.w3.org/1999/xlink`><a ns1:href=`b`/></svg>")
           (jsq "<svg xmlns:xlink=`http://www.w3.org/1999/xlink`><a xlink:href=`b`/></svg>")
           120%N).
  - left. vm_compute. reflexivity.
  - vm_compute. tauto.
Defined.

(** ** The code units the rewriting steps leave alone *)

Lemma count1_app c : forall a b,
  count [c] (a ++ b) = count [c] a + count [c] b.
Proof.
  induction a as [| y a IH]; intros b.
  - simpl. destruct b; reflexivity.
  - cbn [app count prefixb]. rewrite IH. lia.
Qed.

Lemma count1_zero c t : ~ In c t -> count [c] t = 0.
Proof. apply (@count_lacks c [c]). now left. Qed.

Lemma count1_swap c x y :
  ~ In c x -> ~ In c y ->
  forall u w, count [c] (u ++ x ++ w) = count [c] (u ++ y ++ w).
Proof.
  intros Hx Hy u w. rewrite !count1_app.
  now rewrite (@count1_zero c x Hx), (@count1_zero c y Hy).
Qed.

Lemma stable_parts c :
  stable c = true ->
  Cls.space c = false /\ Cls.nameChar c = false /\
  ~ In c (jsq ":=`'./").
Proof.
  unfold stable. intros H.
  apply andb_true_iff in H. destruct H as [H H3].
  apply andb_true_iff in H. destruct H as [H1 H2].
  apply negb_true_iff in H1, H2, H3. repeat split; auto.
  intros Hin. assert (X : existsb (N.eqb c) (jsq ":=`'./") = true).
  { apply existsb_exists. exists c. split; auto. apply N.eqb_refl. }
  congruence.
Qed.

Lemma ci_stable a c : Cls.ci a c = true -> stable c = true -> c = ch a.
Proof.
  intros H S. apply stable_parts in S. destruct S as (_ & S & _).
  unfold Cls.nameChar, Cls.alpha in S.
  apply orb_false_iff in S. destruct S as [S _].
  apply orb_false_iff in S. destruct S as [S _].
  apply orb_false_iff in S. destruct S as [SL SU].
  unfold Cls.ci in H. apply N.eqb_eq in H.
  unfold Cls.toUpper in H. rewrite SL in H.
  destruct (Cls.lower (ch a)) eqn:L; auto.
  exfalso. unfold Cls.lower, Cls.upper, Cls.between in *.
  apply andb_true_iff in L. destruct L as [L1 L2].
  apply N.leb_le in L1, L2.
  change (ch "a") with 97%N in *. change (ch "z") with 122%N in *.
  change (ch "A") with 65%N in *. change (ch "Z") with 90%N in *.
  apply andb_false_iff in SU.
  destruct SU as [SU | SU]; apply N.leb_gt in SU; lia.
Qed.

Lemma lit_ci_stable w c :
  forallb (fun a => negb (stable a)) (js w) = true ->
  stable c = true -> accepts (lit Cls.ci w) c = false.
Proof.
  intros H S. induction w as [| a w IH]; cbn [accepts lit]; auto.
  change (js (String a w)) with (ch a :: js w) in H.
  cbn [forallb] in H. apply andb_true_iff in H. destruct H as [Ha H].
  rewrite (IH H), orb_false_r.
  destruct (Cls.ci a c) eqn:E; auto.
  apply ci_stable in E; auto. subst c. rewrite S in Ha. discriminate.
Qed.

Lemma litsCi_stable M c :
  forallb Cls.digit M = true -> stable c = true ->
  accepts (litsCi M) c = false.
Proof.
  intros HM S. induction M as [| d M IH]; cbn [accepts litsCi]; auto.
  cbn [forallb] in HM. apply andb_true_iff in HM. destruct HM as [Hd HM].
  rewrite (IH HM), orb_false_r.
  apply N.eqb_neq. intros E. apply toUpper_digit in E; auto. subst c.
  apply stable_parts in S. destruct S as (_ & S & _).
  unfold Cls.nameChar in S. rewrite Hd in S.
  now rewrite orb_true_r in S.
Qed.

Lemma chr_ci_stable a c :
  stable (ch a) = false -> stable c = true -> Cls.ci a c = false.
Proof.
  intros Ha S. destruct (Cls.ci a c) eqn:E; auto.
  apply ci_stable in E; auto. subst c. congruence.
Qed.

Lemma quote_stable c : stable c = true -> Cls.quote c = false.
Proof.
  intros S. apply stable_parts in S. destruct S as (_ & _ & S).
  unfold Cls.quote, Cls.eq.
  apply orb_false_iff. split; apply N.eqb_neq; intros ->; apply S;
    vm_compute; tauto.
Qed.

Lemma alpha_stable c : stable c = true -> Cls.alpha c = false.
Proof.
  intros S. apply stable_parts in S. destruct S as (_ & S & _).
  unfold Cls.nameChar in S.
  apply orb_false_iff in S. destruct S as [S _].
  apply orb_false_iff in S. tauto.
Qed.

Lemma nsToXlink_stable M c :
  forallb Cls.digit M = true -> stable c = true ->
  accepts (V120.nsToXlinkPattern M) c = false.
Proof.
  intros HM S. unfold V120.nsToXlinkPattern. cbn [accepts cat Plus].
  destruct (@stable_parts c S) as (S1 & S2 & _).
  rewrite S1, S2, (@alpha_stable c S), (@litsCi_stable M c HM S).
  rewrite (@lit_ci_stable "ns" c eq_refl S).
  rewrite (@chr_ci_stable ":" c eq_refl S), (@chr_ci_stable "=" c eq_refl S).
  reflexivity.
Qed.

Lemma xmlns_stable M c :
  forallb Cls.digit M = true -> stable c = true ->
  accepts (V120.xmlnsPattern M) c = false.
Proof.
  intros HM S. unfold V120.xmlnsPattern. cbn [accepts cat Plus].
  destruct (@stable_parts c S) as (S1 & S2 & _).
  rewrite S1, (@quote_stable c S), (@litsCi_stable M c HM S).
  rewrite (@lit_ci_stable "xmlns:ns" c eq_refl S).
  rewrite (@lit_ci_stable V120.xlinkUri c eq_refl S).
  rewrite (@chr_ci_stable "=" c eq_refl S). reflexivity.
Qed.

Lemma accepts_lacks r m c : accepts r c = false -> Lang r m -> ~ In c m.
Proof.
  intros H L Hin. apply Lang_accepts in L. rewrite forallb_forall in L.
  specialize (L c Hin). congruence.
Qed.

Lemma group_lacks r m cs i c :
  LangC r m cs -> ~ In c m -> ~ In c (group i cs).
Proof.
  intros L H Hin.
  assert (X : forallb (fun x => negb (N.eqb x c)) m = true).
  { apply forallb_forall. intros x Hx. apply negb_true_iff, N.eqb_neq.
    intros ->. contradiction. }
  pose proof (@group_forallb _ i _ (@LangC_captures _ _ _ _ L X)) as G.
  rewrite forallb_forall in G. specialize (G c Hin).
  now rewrite N.eqb_refl in G.
Qed.

Lemma stable_lacks c t :
  stable c = true -> forallb (fun a => negb (stable a)) t = true ->
  ~ In c t.
Proof.
  intros S H Hin. rewrite forallb_forall in H. specialize (H c Hin).
  now rewrite S in H.
Qed.

Lemma rewriteAttrs_stable c : stable c = true -> forall ps its,
  Forall (fun M => forallb Cls.digit M = true) ps ->
  lits_ok its ->
  exists its', V120.rewriteAttrs ps (render its) = render its' /\
               keeps its its' /\ same_count [c] its its'.
Proof.
  intros S. unfold V120.rewriteAttrs.
  induction ps as [| M ps IH]; intros its Hps Hok; cbn [fold_left].
  - exists its. auto using keeps_refl, same_count_refl.
  - inversion Hps as [| ? ? HM Hps']; subst.
    destruct (@replace_all_obs nat (count [c]) (V120.nsToXlinkPattern M)
                (fun _ cs => js " xlink:" ++ group 1 cs ++ js "=") its)
      as (its1 & E1 & K1 & C1);
      auto using inert_nsToXlinkPattern, accepts_nsToXlinkPattern,
                 digits_nous.
    { intros m cs L. rewrite !nous_app.
      rewrite (@group_nous (V120.nsToXlinkPattern M) m cs 1);
        auto using accepts_nsToXlinkPattern, digits_nous. }
    { intros m cs L.
      assert (Hm : ~ In c m).
      { apply (@accepts_lacks (V120.nsToXlinkPattern M));
          eauto using LangC_Lang, nsToXlink_stable. }
      apply count1_swap; auto.
      rewrite !in_app_iff. intros [H | [H | H]].
      - revert H. now apply stable_lacks.
      - revert H. now apply (@group_lacks _ _ _ 1 c L).
      - revert H. now apply stable_lacks. }
    rewrite E1. destruct (IH its1 Hps' (proj1 K1)) as (its2 & E2 & K2 & C2).
    exists its2. split; [| split]; auto.
    + eapply keeps_trans; eauto.
    + eapply same_count_trans; eauto.
Qed.

Lemma rewriteDecls_stable c : stable c = true -> forall ps its,
  Forall (fun M => forallb Cls.digit M = true) ps ->
  lits_ok its ->
  exists its', V120.rewriteDecls ps (render its) = render its' /\
               keeps its its' /\ same_count [c] its its'.
Proof.
  intros S. unfold V120.rewriteDecls.
  induction ps as [| M ps IH]; intros its Hps Hok; cbn [fold_left].
  - exists its. auto using keeps_refl, same_count_refl.
  - inversion Hps as [| ? ? HM Hps']; subst.
    destruct (@replace_all_obs nat (count [c]) (V120.xmlnsPattern M)
                (fun _ cs => js "xmlns:xlink" ++ group 1 cs) its)
      as (its1 & E1 & K1 & C1);
      auto using inert_xmlnsPattern, accepts_xmlnsPattern, digits_nous.
    { intros m cs L. rewrite !nous_app.
      rewrite (@group_nous (V120.xmlnsPattern M) m cs 1);
        auto using accepts_xmlnsPattern, digits_nous. }
    { intros m cs L.
      assert (Hm : ~ In c m).
      { apply (@accepts_lacks (V120.xmlnsPattern M));
          eauto using LangC_Lang, xmlns_stable. }
      apply count1_swap; auto.
      rewrite !in_app_iff. intros [H | H].
      - revert H. now apply stable_lacks.
      - revert H. now apply (@group_lacks _ _ _ 1 c L). }
    rewrite E1. destruct (IH its1 Hps' (proj1 K1)) as (its2 & E2 & K2 & C2).
    exists its2. split; [| split]; auto.
    + eapply keeps_trans; eauto.
    + eapply same_count_trans; eauto.
Qed.

Lemma toUpper_unstable x k :
  Cls.toUpper x = Cls.toUpper k -> Cls.alpha k = true -> stable x = false.
Proof.
  intros E Hk. destruct (stable x) eqn:S; auto. exfalso.
  apply alpha_stable in S. revert E Hk S.
  unfold Cls.alpha, Cls.toUpper, Cls.lower, Cls.upper, Cls.between.
  change (ch "a") with 97%N. change (ch "z") with 122%N.
  change (ch "A") with 65%N. change (ch "Z") with 90%N.
  intros E Hk S. apply orb_false_iff in S. destruct S as [S1 S2].
  rewrite S1 in E.
  destruct (N.leb 97 k && N.leb k 122) eqn:L.
  - apply andb_true_iff in L. destruct L as [L1 L2].
    apply N.leb_le in L1, L2.
    apply andb_false_iff in S2.
    destruct S2 as [S2 | S2]; apply N.leb_gt in S2; lia.
  - simpl in Hk. subst x. congruence.
Qed.

Lemma svg_unstable a :
  eq_ci a (js "svg") -> forallb (fun x => negb (stable x)) a = true.
Proof.
  intros H. change (js "svg") with [115; 118; 103]%N in H.
  repeat match goal with
         | H : eq_ci _ (_ :: _) |- _ =>
             apply eq_ci_cons in H; destruct H as (? & ? & -> & ? & H)
         | H : eq_ci _ [] |- _ => apply eq_ci_nil in H; subst
         end.
  cbn [forallb].
  repeat match goal with
         | H : Cls.toUpper ?x = Cls.toUpper ?k |- _ =>
             rewrite (@toUpper_unstable x k H eq_refl); clear H
         end.
  reflexivity.
Qed.

Lemma ensureDecl_stable c its :
  stable c = true -> lits_ok its ->
  exists its', V120.ensureDecl (render its) = render its' /\
               keeps its its' /\ same_count [c] its its'.
Proof.
  intros S Hok. unfold V120.ensureDecl.
  destruct (contains (js "xlink:href") (render its)
            && negb (contains (js "xmlns:xlink") (render its)));
    [| exists its; auto using keeps_refl, same_count_refl].
  match goal with
  | |- context [replace_first ?r ?tpl ?s] =>
      destruct (replace_first_spec r tpl s)
        as [-> | (pre & m & cs & rest & E1 & L & ->)]
  end; [exists its; auto using keeps_refl, same_count_refl |].
  apply svgOpen_match_full in L. destruct L as (a & g & -> & -> & Ea & _).
  pose proof (svg_nous Ea) as Na.
  simpl group. simpl app in E1.
  destruct (@align its pre 60%N _ eq_refl E1) as (its1 & its2 & -> & R1 & R2).
  apply lits_ok_app in Hok. destruct Hok as [Hok1 Hok2].
  inversion Hok2 as [| ? ? _ Hok2']; subst. clear Hok2.
  rewrite <- app_assoc in R2.
  destruct (@run_prefix a its2 _ Hok2' Na R2) as (its3 & -> & R3).
  apply lits_ok_app in Hok2'. destruct Hok2' as [_ Hok3].
  rewrite <- app_assoc in R3. simpl in R3.
  destruct (@align its3 g 62%N rest eq_refl R3) as (itsg & its4 & -> & R4 & R5).
  apply lits_ok_app in Hok3. destruct Hok3 as [Hokg Hok4].
  inversion Hok4 as [| ? ? _ Hok4']; subst. clear Hok4.
  exists (its1 ++ List.map Lit (js "<svg") ++ itsg
            ++ List.map Lit (jsq " xmlns:xlink=`" ++ js V120.xlinkUri
                               ++ jsq "`>") ++ its4).
  split; [| split; [split |]].
  - rewrite !render_app, !render_lits. now rewrite <- !app_assoc.
  - repeat (apply lits_ok_app; split); auto; now apply lits_ok_lits.
  - intros i Hi. rewrite !in_app_iff. simpl. rewrite !in_app_iff.
    pose proof (@In_Ph_lits i a Hi) as X1.
    pose proof (@In_Ph_lits i (js "<svg") Hi) as X2.
    pose proof (@In_Ph_lits i (jsq " xmlns:xlink=`" ++ js V120.xlinkUri
                                  ++ jsq "`>") Hi) as X3.
    destruct i as [x | q n]; [discriminate |].
    split; intros H; repeat destruct H as [H | H];
      try discriminate; try tauto.
    do 4 right. now right.
  - intros A u.
    change (Lit 60%N :: List.map Lit a ++ itsg ++ Lit 62%N :: its4)
      with (List.map Lit [60%N] ++ List.map Lit a ++ itsg
              ++ List.map Lit [62%N] ++ its4).
    change (js "<svg") with ([60%N] ++ js "svg").
    change (jsq " xmlns:xlink=`" ++ js V120.xlinkUri ++ jsq "`>")
      with ((jsq " xmlns:xlink=`" ++ js V120.xlinkUri ++ jsq "`")
              ++ [62%N]).
    set (D := jsq " xmlns:xlink=`" ++ js V120.xlinkUri ++ jsq "`").
    set (G := js "svg").
    rewrite !map_app, !expand_app, !expand_lits, !count1_app.
    rewrite (@count1_zero c a)
      by (apply stable_lacks; auto using svg_unstable).
    rewrite (@count1_zero c G) by now apply stable_lacks.
    rewrite (@count1_zero c D) by now apply stable_lacks.
    lia.
Qed.

Lemma normalizeStr_stable s c :
  clean s = true -> stable c = true ->
  count [c] (V120.normalizeStr s) = count [c] s.
Proof.
  intros C S.
  destruct (@protect_Inv s C) as (its & A & E1 & E2 & I).
  unfold V120.normalizeStr.
  destruct (V120.protectBase64 s) as [r1 b64]. cbn [fst snd] in *.
  destruct (V120.protectIdRefs r1) as [r2 ids]. cbn [fst snd] in *.
  injection E1 as E1. injection E2 as -> E2. subst b64 ids.
  pose proof (exec_all_digits (render its)) as F.
  destruct (exec_all V120.xlinkNsPattern (render its)) as [| N0 ps] eqn:EA.
  - now rewrite (restoreAll_Inv I).
  - assert (F2 : Forall (fun M => forallb Cls.digit M = true) (N0 :: ps)).
    { eapply Forall_impl; [| exact F]. simpl. tauto. }
    destruct (@rewriteAttrs_stable c S (N0 :: ps) its F2 (inv_ok I))
      as (its1 & R1 & K1 & C1).
    destruct (@rewriteDecls_stable c S (N0 :: ps) its1 F2 (proj1 K1))
      as (its2 & R2 & K2 & C2).
    destruct (@ensureDecl_stable c its2 S (proj1 K2))
      as (its3 & R3 & K3 & C3).
    rewrite R1, R2, R3.
    assert (K : keeps its its3) by eauto using keeps_trans.
    rewrite (restoreAll_Inv (Inv_keeps I K)).
    pose proof (same_count_trans C1 (same_count_trans C2 C3) A []) as X.
    simpl in X. rewrite <- X. now rewrite (inv_expand I).
Qed.

(** X12.  On a document that holds no underscore and whose recorded spans hold
    none, [normalize] keeps the number of occurrences of every code unit
    other than white space, ASCII letters and digits, the hyphen, the
    characters [: = . /] and the two quotes; so it adds or removes no
    angle bracket, ampersand or number sign, and no character outside
    ASCII other than white space (step 4 replaces the white space in
    front of a rewritten attribute name, U+00A0 included, by one space
    and drops the white space in front of its equals sign). *)
Theorem other_characters_counted s c :
  clean s = true -> stable c = true ->
  exists out,
    V120.normalize (VString s) = VString out /\
    count [c] out = count [c] s.
Proof.
  intros C S. exists (V120.normalizeStr s).
  split; [apply normalize_string | now apply normalizeStr_stable].
Qed.

Lemma other_characters_counted_witness :
  exists out,
    V120.normalize
      (VString (jsq "<svg xmlns:ns1=`http://www.w3.org/1999/xlink`><a ns1:href=`b`>&lt;</a></svg>"))
    = VString out /\
    count [60%N] out
    = count [60%N]
        (jsq "<svg xmlns:ns1=`http://www.w3.org/1999/xlink`><a ns1:href=`b`>&lt;</a></svg>").
Proof.
  apply other_characters_counted; vm_compute; reflexivity.
Defined.

(** ** A part of a text that a scan cannot touch *)

Lemma flat_map_keep (f : str -> caps -> str) u :
  flat_map (fun p => match p with Keep c => [c] | Hit m cs => f m cs end)
           (List.map Keep u) = u.
Proof. induction u as [| c u IH]; simpl; congruence. Qed.

Lemma pieces_frame r u :
  no_start r u -> no_entry r u ->
  forall b a k, k <= length a ->
  exists P, pieces r (a ++ u ++ b) k = P ++ List.map Keep u ++ pieces r b 0.
Proof.
  intros HS HE b. induction a as [| c a IH]; intros k Hk.
  - simpl in Hk. assert (k = 0) by lia. subst k. exists []. simpl.
    apply pieces_keep. intros x c v E. exact (HS b x c v E).
  - destruct k as [| n].
    + simpl app. simpl pieces.
      destruct (exec r (c :: a ++ u ++ b)) as [[m cs] |] eqn:E.
      * destruct (length m) as [| n] eqn:L.
        -- destruct (IH 0 (Nat.le_0_l _)) as (P & ->).
           exists (Hit m cs :: Keep c :: P). reflexivity.
        -- apply HE in E. rewrite L in E.
           destruct (IH n ltac:(lia)) as (P & ->).
           exists (Hit m cs :: P). reflexivity.
      * destruct (IH 0 (Nat.le_0_l _)) as (P & ->).
        exists (Keep c :: P). reflexivity.
    + simpl in Hk. simpl. apply IH. lia.
Qed.

Lemma replace_all_frame r tpl u :
  no_start r u -> no_entry r u ->
  forall a b, exists a' b', replace_all r tpl (a ++ u ++ b) = a' ++ u ++ b'.
Proof.
  intros HS HE a b.
  destruct (@pieces_frame r u HS HE b a 0 (Nat.le_0_l _)) as (P & E).
  unfold replace_all. rewrite E, !flat_map_app, flat_map_keep. eauto.
Qed.

Lemma no_start_nil r : no_start r [].
Proof. intros t x c v E. destruct x; discriminate. Qed.

Lemma no_start_cons r c w :
  (forall t, exec r (c :: w ++ t) = None) -> no_start r w ->
  no_start r (c :: w).
Proof.
  intros H0 H t x d v E. destruct x as [| y x]; simpl in E.
  - injection E as <- <-. apply H0.
  - injection E as _ E. now apply (H t x d v).
Qed.

Lemma no_start_first r a w :
  nullable r = false -> forallb (fun c => negb (first r c)) a = true ->
  no_start r w -> no_start r (a ++ w).
Proof.
  intros Hn. induction a as [| c a IH]; simpl; intros Ha Hw; auto.
  apply andb_true_iff in Ha. destruct Ha as [Hc Ha].
  apply no_start_cons; auto. intros t. apply exec_first; auto.
  now apply negb_true_iff.
Qed.

Lemma contains_true p : forall s,
  contains p s = true <-> exists a b, s = a ++ p ++ b.
Proof.
  induction s as [| c s IH].
  - simpl. rewrite orb_false_r, prefixb_true. split.
    + intros (z & E). exists [], z. exact E.
    + intros (a & b & E). destruct a; [| discriminate]. eauto.
  - cbn [contains]. rewrite orb_true_iff, prefixb_true, IH. split.
    + intros [(z & E) | (a & b & E)].
      * exists [], z. exact E.
      * exists (c :: a), b. simpl. now rewrite E.
    + intros (a & b & E). destruct a as [| y a]; simpl in E.
      * left. eauto.
      * right. injection E as _ E. eauto.
Qed.

Lemma app_longer (p q m rest : str) :
  p ++ q = m ++ rest -> length p < length m ->
  exists m2, m2 <> [] /\ m = p ++ m2 /\ q = m2 ++ rest.
Proof.
  revert m. induction p as [| c p IH]; intros m E L.
  - simpl in *. exists m. repeat split; auto. destruct m; [simpl in L; lia | discriminate].
  - destruct m as [| d m]; [simpl in L; lia |].
    simpl in E. injection E as <- E. simpl in L.
    destruct (IH m E ltac:(lia)) as (m2 & H1 & -> & ->).
    exists m2. auto.
Qed.

(** ** The attribute pattern and a declaration *)

Lemma space_run_align : forall sp1 sp2 e1 e2 (r1 r2 : str),
  forallb Cls.space sp1 = true -> forallb Cls.space sp2 = true ->
  Cls.space e1 = false -> Cls.space e2 = false ->
  sp1 ++ e1 :: r1 = sp2 ++ e2 :: r2 -> e1 = e2.
Proof.
  induction sp1 as [| c sp1 IH]; intros [| d sp2] e1 e2 r1 r2 H1 H2 N1 N2 E;
    simpl in *.
  - now injection E.
  - injection E as -> _. apply andb_true_iff in H2. destruct H2. congruence.
  - injection E as -> _. apply andb_true_iff in H1. destruct H1. congruence.
  - injection E as _ E. apply andb_true_iff in H1. apply andb_true_iff in H2.
    eapply IH; try eassumption; tauto.
Qed.

Lemma ci_n_nospace c : Cls.ci "n" c = true -> Cls.space c = false.
Proof.
  intros H.
  assert (c = 110%N \/ c = 78%N) as [-> | ->] by cls; reflexivity.
Qed.

Lemma attr_none_spaces M sp e w :
  forallb Cls.digit M = true ->
  forallb Cls.space sp = true -> Cls.space e = false ->
  Cls.ci "n" e = false ->
  exec (V120.nsToXlinkPattern M) (sp ++ e :: w) = None.
Proof.
  intros HM Hsp He Hn.
  destruct (exec _ _) as [[m cs] |] eqn:E; auto. exfalso.
  apply exec_sound in E. destruct E as (rest & E & _ & L).
  destruct (nsToXlink_match HM L)
    as (w0 & ws1 & n & s & c0 & name & ws2 & -> & _ & H0 & H1 & Hcn & _).
  assert (X : sp ++ e :: w
              = (w0 :: ws1) ++ n :: (s :: M ++ 58%N :: c0 :: name ++ ws2) ++ [61%N] ++ rest).
  { rewrite E. norm_app. reflexivity. }
  apply space_run_align in X; auto.
  - subst e. congruence.
  - simpl. now rewrite H0.
  - now apply ci_n_nospace.
Qed.

Lemma no_start_spaces M ws e w :
  forallb Cls.digit M = true ->
  forallb Cls.space ws = true -> Cls.space e = false ->
  Cls.ci "n" e = false ->
  no_start (V120.nsToXlinkPattern M) (e :: w) ->
  no_start (V120.nsToXlinkPattern M) (ws ++ e :: w).
Proof.
  intros HM Hws He Hn Hw. induction ws as [| c ws IH]; simpl; auto.
  simpl in Hws. apply andb_true_iff in Hws. destruct Hws as [Hc Hws].
  apply no_start_cons; auto. intros t.
  change (c :: (ws ++ e :: w) ++ t) with ((c :: ws ++ e :: w) ++ t).
  replace ((c :: ws ++ e :: w) ++ t) with ((c :: ws) ++ e :: (w ++ t))
    by (simpl; now rewrite <- app_assoc).
  apply attr_none_spaces; auto. simpl. now rewrite Hc.
Qed.

Lemma toUpper_space c k :
  Cls.space c = true -> Cls.toUpper c = Cls.toUpper k -> Cls.space k = true.
Proof.
  intros S E.
  assert (L : Cls.lower c = false).
  { destruct (Cls.lower c) eqn:L; auto. exfalso.
    unfold Cls.lower, Cls.between in L. apply andb_true_iff in L.
    destruct L as [L1 L2]. apply N.leb_le in L1. apply N.leb_le in L2.
    change (ch "a") with 97%N in L1. change (ch "z") with 122%N in L2.
    unfold Cls.space in S.
    repeat (apply orb_true_iff in S; destruct S as [S | S]);
      repeat (apply andb_true_iff in S; destruct S as [? ?]);
      repeat match goal with
             | H : N.leb _ _ = true |- _ => apply N.leb_le in H
             | H : N.eqb _ _ = true |- _ => apply N.eqb_eq in H
             end; lia. }
  unfold Cls.toUpper in E. rewrite L in E.
  destruct (Cls.lower k) eqn:K; [| now subst].
  exfalso. unfold Cls.lower, Cls.between in K. apply andb_true_iff in K.
  destruct K as [K1 K2]. apply N.leb_le in K1. apply N.leb_le in K2.
  change (ch "a") with 97%N in K1. change (ch "z") with 122%N in K2.
  unfold Cls.space in S.
  repeat (apply orb_true_iff in S; destruct S as [S | S]);
    repeat (apply andb_true_iff in S; destruct S as [? ?]);
    repeat match goal with
           | H : N.leb _ _ = true |- _ => apply N.leb_le in H
           | H : N.eqb _ _ = true |- _ => apply N.eqb_eq in H
           end; lia.
Qed.

Lemma eq_ci_nospace : forall u w,
  eq_ci u w -> forallb (fun c => negb (Cls.space c)) w = true ->
  forallb (fun c => negb (Cls.space c)) u = true.
Proof.
  induction u as [| c u IH]; intros [| k w] E H; try discriminate; auto.
  apply eq_ci_cons in E. destruct E as (c' & u' & E & Hc & E').
  injection E as <- <-. simpl in *.
  apply andb_true_iff in H. destruct H as [Hk H].
  rewrite (IH w E' H), andb_true_r.
  destruct (Cls.space c) eqn:S; auto.
  rewrite (@toUpper_space c k S Hc) in Hk. discriminate.
Qed.

Lemma first_attr M c : first (V120.nsToXlinkPattern M) c = Cls.space c.
Proof.
  unfold V120.nsToXlinkPattern, Plus. cbn [cat first nullable].
  cbn [andb]. now rewrite !orb_false_r.
Qed.

Lemma quote_nospace q : Cls.quote q = true -> Cls.space q = false.
Proof. intros H. assert (q = 34%N \/ q = 39%N) as [-> | ->] by cls; reflexivity. Qed.

Lemma quote_not_n q : Cls.quote q = true -> Cls.ci "n" q = false.
Proof. intros H. assert (q = 34%N \/ q = 39%N) as [-> | ->] by cls; reflexivity. Qed.

(** No match of an attribute pattern starts inside a declaration. *)
Lemma attr_no_start M X N ws1 ws2 q1 U q2 :
  forallb Cls.digit M = true ->
  eq_ci X (js "xmlns:ns") -> forallb Cls.digit N = true ->
  forallb Cls.space ws1 = true -> forallb Cls.space ws2 = true ->
  Cls.quote q1 = true -> eq_ci U (js V120.xlinkUri) -> Cls.quote q2 = true ->
  no_start (V120.nsToXlinkPattern M)
           (X ++ N ++ ws1 ++ 61%N :: ws2 ++ q1 :: U ++ [q2]).
Proof.
  intros HM HX HN H1 H2 Q1 HU Q2.
  assert (NS : forall a, forallb (fun c => negb (Cls.space c)) a = true ->
               forallb (fun c => negb (first (V120.nsToXlinkPattern M) c)) a
               = true).
  { intros a. apply forallb_impl. intros c. now rewrite first_attr. }
  assert (F1 : forall c t, Cls.space c = false ->
               exec (V120.nsToXlinkPattern M) (c :: t) = None).
  { intros c t Hc. apply exec_first; [reflexivity |]. now rewrite first_attr. }
  apply no_start_first; [reflexivity | |].
  { apply NS. eapply eq_ci_nospace; eauto. }
  apply no_start_first; [reflexivity | |].
  { apply NS. revert HN. apply forallb_impl. intros c Hc.
    destruct (Cls.space c) eqn:S; auto. apply space_facts in S.
    destruct S. congruence. }
  apply no_start_spaces; auto.
  apply no_start_cons; [intros t; now apply F1 |].
  apply no_start_spaces; auto using quote_nospace, quote_not_n.
  apply no_start_cons; [intros t; apply F1; now apply quote_nospace |].
  apply no_start_first; [reflexivity | |].
  { apply NS. eapply eq_ci_nospace; eauto. }
  apply no_start_cons; [intros t; apply F1; now apply quote_nospace |].
  apply no_start_nil.
Qed.

Lemma colon_unique : forall a b a' b' : str,
  ~ In 58%N a -> ~ In 58%N b -> a ++ 58%N :: b = a' ++ 58%N :: b' -> a = a'.
Proof.
  induction a as [| c a IH]; intros b [| d a'] b' Ha Hb E; simpl in E.
  - reflexivity.
  - injection E as <- E. exfalso. apply Hb. rewrite E.
    apply in_or_app. right. now left.
  - injection E as -> _. exfalso. apply Ha. now left.
  - injection E as <- E. f_equal. apply (IH b a' b'); auto.
    intros X. apply Ha. now right.
Qed.

Lemma xmlns_head X :
  eq_ci X (js "xmlns:ns") ->
  exists x0 x1 x2 x3 x4 x5 x6 x7,
    X = [x0; x1; x2; x3; x4; x5; x6; x7] /\
    Cls.toUpper x0 = 88%N /\ Cls.toUpper x1 = 77%N /\
    Cls.toUpper x2 = 76%N /\ Cls.toUpper x3 = 78%N /\
    Cls.toUpper x4 = 83%N /\ x5 = 58%N /\
    Cls.toUpper x6 = 78%N /\ Cls.toUpper x7 = 83%N.
Proof.
  intros H. change (js "xmlns:ns") with [120; 109; 108; 110; 115; 58; 110; 115]%N in H.
  repeat match goal with
         | H : eq_ci _ (_ :: _) |- _ =>
             apply eq_ci_cons in H; destruct H as (? & ? & -> & ? & H)
         end.
  apply eq_ci_nil in H. subst.
  repeat match goal with
         | H : Cls.toUpper _ = Cls.toUpper ?k |- _ =>
             let v := eval vm_compute in (Cls.toUpper k) in
             change (Cls.toUpper k) with v in H
         end.
  do 8 eexists. split; [reflexivity |].
  repeat split; auto. now apply toUpper_colon.
Qed.

(** In a match of an attribute pattern the colon follows a digit. *)
Lemma attr_colon M m cs :
  forallb Cls.digit M = true -> M <> [] ->
  LangC (V120.nsToXlinkPattern M) m cs ->
  (exists m', m = m' ++ [61%N]) /\
  forall p y z, m = p ++ y :: 58%N :: z -> Cls.digit y = true.
Proof.
  intros HM HN L.
  destruct (nsToXlink_match HM L)
    as (w0 & ws1 & n & s & c0 & name & ws2 & -> & _ & H0 & H1 & Hn & Hs
        & Hc & Hname & H2).
  split.
  { exists (w0 :: ws1 ++ n :: s :: M ++ 58%N :: c0 :: name ++ ws2).
    reflexivity. }
  intros p y z E.
  destruct (exists_last HN) as (M' & d & ->).
  assert (Hd : Cls.digit d = true).
  { rewrite forallb_app in HM. apply andb_true_iff in HM.
    destruct HM as [_ HM]. simpl in HM. now rewrite andb_true_r in HM. }
  assert (NC : forall l : str, forallb (fun c : char => negb (N.eqb c 58)) l = true ->
               ~ In 58%N l).
  { intros l F I. rewrite forallb_forall in F. specialize (F _ I).
    discriminate. }
  assert (S58 : forall l : str, forallb Cls.space l = true ->
                forallb (fun c : char => negb (N.eqb c 58)) l = true).
  { intros l. apply forallb_impl. intros c S. apply space_facts in S.
    apply negb_true_iff, N.eqb_neq. tauto. }
  assert (D58 : forall l : str, forallb Cls.digit l = true ->
                forallb (fun c : char => negb (N.eqb c 58)) l = true).
  { intros l. apply forallb_impl. intros c S.
    apply negb_true_iff, N.eqb_neq. intros ->. discriminate. }
  assert (N58 : forall l : str, forallb Cls.nameChar l = true ->
                forallb (fun c : char => negb (N.eqb c 58)) l = true).
  { intros l. apply forallb_impl. intros c S.
    apply negb_true_iff, N.eqb_neq. intros ->. discriminate. }
  assert (X : (w0 :: ws1 ++ n :: s :: M') ++ [d] = p ++ [y]).
  { apply (@colon_unique _ (c0 :: name ++ ws2 ++ [61%N]) _ z).
    - apply NC. change (w0 :: ws1 ++ n :: s :: M')
        with ([w0] ++ ws1 ++ [n; s] ++ M').
      rewrite forallb_app in HM. apply andb_true_iff in HM.
      destruct HM as [HM HM'].
      rewrite !forallb_app. repeat (apply andb_true_iff; split);
        try (now apply S58); try (now apply D58); try reflexivity;
        apply negb_true_iff, N.eqb_neq; intros ->; discriminate.
    - apply NC. change (c0 :: name ++ ws2 ++ [61%N])
        with ([c0] ++ name ++ ws2 ++ [61%N]).
      rewrite !forallb_app. repeat (apply andb_true_iff; split);
        try (now apply S58); try (now apply N58); try reflexivity;
        apply negb_true_iff, N.eqb_neq; intros ->; discriminate.
    - transitivity (p ++ y :: 58%N :: z);
        [rewrite <- E; norm_app; reflexivity | now rewrite <- app_assoc]. }
  apply app_inj_tail in X. destruct X as [_ <-]. exact Hd.
Qed.

(** A match of an attribute pattern that starts before a declaration ends
    before it. *)
Lemma attr_no_entry M X u :
  forallb Cls.digit M = true -> M <> [] ->
  eq_ci X (js "xmlns:ns") ->
  no_entry (V120.nsToXlinkPattern M) (X ++ u).
Proof.
  intros HM HN HX c a b m cs E.
  destruct (Nat.le_gt_cases (length m) (S (length a))) as [| G]; auto.
  exfalso. apply exec_sound in E. destruct E as (rest & E & _ & L).
  destruct (attr_colon HM HN L) as [(m' & Em) Hcol].
  change (c :: a ++ (X ++ u) ++ b) with ((c :: a) ++ (X ++ u) ++ b) in E.
  apply app_longer in E; [| simpl; lia].
  destruct E as (m2 & Hm2 & E1 & E2).
  destruct (xmlns_head HX)
    as (x0 & x1 & x2 & x3 & x4 & x5 & x6 & x7 & -> & U0 & U1 & U2 & U3 & U4
        & -> & _).
  simpl in E2.
  assert (LAST : forall k y, m2 = k ++ [y] -> y = 61%N).
  { intros k y Ek. rewrite Ek, Em in E1. rewrite app_assoc in E1.
    apply app_inj_tail in E1. now destruct E1. }
  destruct m2 as [| y0 m2]; [contradiction |]. injection E2 as <- E2.
  destruct m2 as [| y1 m2].
  { specialize (LAST [] x0 eq_refl). subst x0. discriminate. }
  injection E2 as <- E2. destruct m2 as [| y2 m2].
  { specialize (LAST [x0] x1 eq_refl). subst x1. discriminate. }
  injection E2 as <- E2. destruct m2 as [| y3 m2].
  { specialize (LAST [x0; x1] x2 eq_refl). subst x2. discriminate. }
  injection E2 as <- E2. destruct m2 as [| y4 m2].
  { specialize (LAST [x0; x1; x2] x3 eq_refl). subst x3. discriminate. }
  injection E2 as <- E2. destruct m2 as [| y5 m2].
  { specialize (LAST [x0; x1; x2; x3] x4 eq_refl). subst x4. discriminate. }
  injection E2 as <- E2.
  assert (D : Cls.digit x4 = true).
  { apply (Hcol (c :: a ++ [x0; x1; x2; x3]) x4 m2). rewrite E1.
    norm_app. reflexivity. }
  clear - D U4. revert D U4. cls.
Qed.

(** ** The declaration pattern and the text xmlns:xlink *)

Lemma decl_prefix M w m cs :
  exec (V120.xmlnsPattern M) w = Some (m, cs) ->
  exists X rest, w = X ++ rest /\ eq_ci X (js "xmlns:ns").
Proof.
  intros E. apply exec_sound in E. destruct E as (rest & -> & L & _).
  unfold V120.xmlnsPattern in L. apply Lang_cat_cons in L.
  destruct L as (u1 & u2 & -> & L1 & _). apply Lang_lit_ci in L1.
  exists u1, (u2 ++ rest). split; [now rewrite app_assoc | exact L1].
Qed.

Lemma decl_no_start M : no_start (V120.xmlnsPattern M) (js "xmlns:xlink").
Proof.
  intros t x c v E.
  change (js "xmlns:xlink")
    with [120; 109; 108; 110; 115; 58; 120; 108; 105; 110; 107]%N in E.
  symmetry in E. cuts E;
    try (apply exec_first; reflexivity);
    (destruct (exec _ _) as [[m cs] |] eqn:X; [exfalso | reflexivity]);
    apply decl_prefix in X; destruct X as (X8 & rest & X & HX);
    apply xmlns_head in HX;
    destruct HX as (x0 & x1 & x2 & x3 & x4 & x5 & x6 & x7 & -> & U0 & U1
                    & U2 & U3 & U4 & U5 & U6 & U7);
    simpl in X; injection X as <- <- <- <- <-; intros; subst; discriminate.
Qed.

Lemma xfollow_app_nox : forall a b,
  forallb (fun c => negb (N.eqb (Cls.toUpper c) 88)) a = true ->
  xfollow (a ++ b) = xfollow b.
Proof.
  induction a as [| c a IH]; intros b H; simpl in *; auto.
  apply andb_true_iff in H. destruct H as [Hc H].
  apply negb_true_iff in Hc. rewrite Hc. simpl. now apply IH.
Qed.

Lemma xfollow_split : forall a c w,
  xfollow (a ++ c :: w) = true -> Cls.toUpper c = 88%N ->
  exists d w', w = d :: w' /\ Cls.toUpper d = 76%N.
Proof.
  induction a as [| y a IH]; intros c w H Hc; simpl in H.
  - rewrite Hc in H. simpl in H. destruct w as [| d w]; [discriminate |].
    apply andb_true_iff in H. destruct H as [H _].
    apply N.eqb_eq in H. eauto.
  - apply andb_true_iff in H. destruct H as [_ H]. now apply (IH c w).
Qed.

Lemma xfollow_map : forall s s',
  List.map Cls.toUpper s = List.map Cls.toUpper s' -> xfollow s = xfollow s'.
Proof.
  induction s as [| c s IH]; intros [| c' s'] E; try discriminate; auto.
  simpl in E. injection E as E1 E2. simpl. rewrite E1, (IH s' E2).
  destruct s as [| d s]; destruct s' as [| d' s']; try discriminate; auto.
  simpl in E2. injection E2 as E2 _. now rewrite E2.
Qed.

Lemma nox_of (P : char -> bool) (l : str) :
  (forall c, P c = true -> Cls.toUpper c <> 88%N) ->
  forallb P l = true ->
  forallb (fun c => negb (N.eqb (Cls.toUpper c) 88)) l = true.
Proof.
  intros H. apply forallb_impl. intros c Hc.
  apply negb_true_iff, N.eqb_neq. auto.
Qed.

Lemma up88 c : Cls.toUpper c = 88%N -> c = 88%N \/ c = 120%N.
Proof. cls. Qed.

(** The tail of a match of a declaration pattern: every x is followed by
    an l. *)
Lemma decl_tail_xfollow x1 x2 x3 x4 x6 x7 M ws1 ws2 q1 U q2 :
  Cls.toUpper x1 = 77%N -> Cls.toUpper x2 = 76%N -> Cls.toUpper x3 = 78%N ->
  Cls.toUpper x4 = 83%N -> Cls.toUpper x6 = 78%N -> Cls.toUpper x7 = 83%N ->
  forallb Cls.digit M = true ->
  forallb Cls.space ws1 = true -> forallb Cls.space ws2 = true ->
  Cls.quote q1 = true -> eq_ci U (js V120.xlinkUri) -> Cls.quote q2 = true ->
  xfollow ([x1; x2; x3; x4; 58%N; x6; x7] ++ M ++ ws1 ++ [61%N] ++ ws2
             ++ [q1] ++ U ++ [q2]) = true.
Proof.
  intros U1 U2 U3 U4 U6 U7 HM H1 H2 Q1 HU Q2.
  assert (SP : forall c, Cls.space c = true -> Cls.toUpper c <> 88%N).
  { intros c S E. apply up88 in E. destruct E as [-> | ->]; discriminate. }
  assert (DG : forall c, Cls.digit c = true -> Cls.toUpper c <> 88%N).
  { intros c S E. apply up88 in E. destruct E as [-> | ->]; discriminate. }
  assert (QT : forall c, Cls.quote c = true -> Cls.toUpper c <> 88%N).
  { intros c S E. apply up88 in E. destruct E as [-> | ->]; discriminate. }
  rewrite xfollow_app_nox
    by (simpl; rewrite U1, U2, U3, U4, U6, U7; reflexivity).
  rewrite xfollow_app_nox by (now apply (nox_of Cls.digit)).
  rewrite xfollow_app_nox by (now apply (nox_of Cls.space)).
  rewrite xfollow_app_nox by reflexivity.
  rewrite xfollow_app_nox by (now apply (nox_of Cls.space)).
  rewrite xfollow_app_nox
    by (apply (nox_of Cls.quote); auto; simpl; now rewrite Q1).
  rewrite (@xfollow_map (U ++ [q2]) (js V120.xlinkUri ++ [q2])).
  - assert (q2 = 34%N \/ q2 = 39%N) as [-> | ->]
      by (clear - Q2; revert Q2; cls); vm_compute; reflexivity.
  - rewrite !map_app. f_equal. exact HU.
Qed.

(** A match of a declaration pattern that starts before the text
    xmlns:xlink ends before it. *)
Lemma decl_no_entry M :
  forallb Cls.digit M = true ->
  no_entry (V120.xmlnsPattern M) (js "xmlns:xlink").
Proof.
  intros HM c a b m cs E.
  destruct (Nat.le_gt_cases (length m) (S (length a))) as [| G]; auto.
  exfalso. apply exec_sound in E. destruct E as (rest & E & _ & L).
  change (c :: a ++ js "xmlns:xlink" ++ b)
    with ((c :: a) ++ js "xmlns:xlink" ++ b) in E.
  apply app_longer in E; [| simpl; lia].
  destruct E as (m2 & Hm2 & E1 & E2).
  destruct (xmlns_match HM L)
    as (X & ws1 & ws2 & q1 & U & q2 & Em & _ & HX & H1 & H2 & Q1 & HU & Q2).
  destruct (xmlns_head HX)
    as (x0 & x1 & x2 & x3 & x4 & x5 & x6 & x7 & -> & U0 & U1 & U2 & U3 & U4
        & -> & U6 & U7).
  pose proof (@decl_tail_xfollow _ _ _ _ _ _ _ _ _ _ _ _ U1 U2 U3 U4 U6 U7 HM H1 H2 Q1 HU Q2) as F.
  assert (T : a ++ m2
              = [x1; x2; x3; x4; 58%N; x6; x7] ++ M ++ ws1 ++ [61%N] ++ ws2
                  ++ [q1] ++ U ++ [q2]).
  { rewrite Em in E1. simpl in E1. injection E1 as _ E1.
    rewrite <- E1. norm_app. reflexivity. }
  assert (F' : xfollow (a ++ m2) = true) by (rewrite T; exact F).
  clear F. rename F' into F.
  change (js "xmlns:xlink")
    with [120; 109; 108; 110; 115; 58; 120; 108; 105; 110; 107]%N in E2.
  destruct m2 as [| y m2]; [contradiction |].
  simpl in E2. injection E2 as <- E2.
  apply xfollow_split in F; [| reflexivity].
  destruct F as (d & w' & -> & Hd). simpl in E2. injection E2 as <- _.
  discriminate.
Qed.

(** ** Step 5 writes xmlns:xlink *)

Lemma exec_all_first r : forall s N ps,
  exec_all r s = N :: ps ->
  exists pre m cs rest,
    s = pre ++ m ++ rest /\ LangC r m cs /\ group 1 cs = N.
Proof.
  unfold exec_all. induction s as [| c s IH]; intros N ps; simpl.
  - destruct (exec r []) as [[m cs] |] eqn:E; [| discriminate].
    simpl. intros H. injection H as H _.
    apply exec_sound in E. destruct E as (rest & E & _ & L).
    exists [], m, cs, rest. auto.
  - destruct (exec r (c :: s)) as [[m cs] |] eqn:E.
    + intros H.
      assert (G : group 1 cs = N).
      { destruct (length m); simpl in H; now injection H. }
      apply exec_sound in E. destruct E as (rest & E & _ & L).
      exists [], m, cs, rest. auto.
    + simpl. intros H. destruct (IH N ps H) as (pre & m & cs & rest & -> & L & G).
      exists (c :: pre), m, cs, rest. auto.
Qed.

Lemma xlinkNs_match m cs :
  LangC V120.xlinkNsPattern m cs ->
  exists X ds ws1 ws2 q1 U q2,
    m = X ++ ds ++ ws1 ++ 61%N :: ws2 ++ q1 :: U ++ [q2] /\
    group 1 cs = ds /\
    eq_ci X (js "xmlns:ns") /\
    forallb Cls.digit ds = true /\ ds <> [] /\
    forallb Cls.space ws1 = true /\ forallb Cls.space ws2 = true /\
    Cls.quote q1 = true /\ eq_ci U (js V120.xlinkUri) /\
    Cls.quote q2 = true.
Proof.
  unfold V120.xlinkNsPattern, Plus. cbn [cat]. intros L.
  repeat match goal with
         | H : LangC (Cat _ _) _ _ |- _ =>
             apply LangC_Cat_inv in H;
             destruct H as (? & ? & ? & ? & ? & ? & ? & ?); subst
         | H : LangC (Grp _ _) _ _ |- _ =>
             apply LangC_Grp_inv in H; destruct H as (? & ? & ?); subst
         | H : LangC (Chr _) _ _ |- _ => inversion H; subst; clear H
         | H : LangC (Star _) _ _ |- _ => inversion H; subst; clear H
         | H : LangC Eps _ _ |- _ => inversion H; subst; clear H
         | H : LangC (lit Cls.ci _) _ _ |- _ =>
             apply LangC_lit_ci in H; destruct H as [? ?]; subst
         end.
  repeat match goal with
         | H : Cls.ci "=" _ = true |- _ => apply ci_eq_sign in H; subst
         end.
  match goal with
  | HX : eq_ci ?X (js "xmlns:ns"), HU : eq_ci ?U (js V120.xlinkUri),
    HD : Cls.digit ?d = true, HDS : forallb Cls.digit ?ds = true,
    Q1 : Cls.quote ?q1 = true, Q2 : Cls.quote ?q2 = true
    |- exists _ _ _ _ _ _ _,
        _ ++ _ ++ ?ws1 ++ _ ++ ?ws2 ++ [?q1] ++ _ ++ [?q2] ++ _ = _ /\ _ =>
      exists X, (d :: ds), ws1, ws2, q1, U, q2
  end.
  split; [norm_app; reflexivity |].
  split; [reflexivity |]. split; [assumption |].
  split; [simpl; apply andb_true_iff; split; assumption |].
  split; [discriminate |]. repeat split; assumption.
Qed.

Lemma Lang_litsCi_refl : forall M, Lang (litsCi M) M.
Proof.
  induction M as [| c M IH]; simpl; [constructor |].
  change (c :: M) with ([c] ++ M). constructor; auto.
  constructor. apply N.eqb_refl.
Qed.

Lemma decl_Lang X ds ws1 ws2 q1 U q2 :
  eq_ci X (js "xmlns:ns") ->
  forallb Cls.space ws1 = true -> forallb Cls.space ws2 = true ->
  Cls.quote q1 = true -> eq_ci U (js V120.xlinkUri) -> Cls.quote q2 = true ->
  Lang (V120.xmlnsPattern ds)
       (X ++ ds ++ ws1 ++ 61%N :: ws2 ++ q1 :: U ++ [q2]).
Proof.
  intros HX H1 H2 Q1 HU Q2. unfold V120.xmlnsPattern.
  apply Lang_cat_cons. exists X, (ds ++ ws1 ++ 61%N :: ws2 ++ q1 :: U ++ [q2]).
  split; [reflexivity |]. split; [now apply Lang_lit_ci |].
  apply Lang_cat_cons. exists ds, (ws1 ++ 61%N :: ws2 ++ q1 :: U ++ [q2]).
  split; [reflexivity |]. split; [apply Lang_litsCi_refl |].
  apply Lang_cat_cons. exists (ws1 ++ 61%N :: ws2 ++ q1 :: U ++ [q2]), [].
  split; [now rewrite app_nil_r |]. split; [| now apply Lang_cat_nil].
  apply Lang_Grp.
  apply Lang_cat_cons. exists ws1, (61%N :: ws2 ++ q1 :: U ++ [q2]).
  split; [reflexivity |]. split; [now apply Lang_Star |].
  apply Lang_cat_cons. exists [61%N], (ws2 ++ q1 :: U ++ [q2]).
  split; [reflexivity |]. split; [apply Lang_Chr; eauto |].
  apply Lang_cat_cons. exists ws2, (q1 :: U ++ [q2]).
  split; [reflexivity |]. split; [now apply Lang_Star |].
  apply Lang_cat_cons. exists [q1], (U ++ [q2]).
  split; [reflexivity |]. split; [apply Lang_Chr; eauto |].
  apply Lang_cat_cons. exists U, [q2].
  split; [reflexivity |]. split; [now apply Lang_lit_ci |].
  apply Lang_cat_cons. exists [q2], [].
  split; [reflexivity |]. split; [apply Lang_Chr; eauto | now apply Lang_cat_nil].
Qed.

Lemma replace_all_cons_none r tpl c s :
  exec r (c :: s) = None ->
  replace_all r tpl (c :: s) = c :: replace_all r tpl s.
Proof. intros E. unfold replace_all. simpl. now rewrite E. Qed.

(** The replacement of the first match is a part of the result. *)
Lemma replace_all_first_hit r tpl : forall s,
  test r s = true ->
  exists pre m cs post,
    LangC r m cs /\ replace_all r tpl s = pre ++ tpl m cs ++ post.
Proof.
  induction s as [| c s IH]; simpl.
  - destruct (exec r []) as [[m cs] |] eqn:E; [| discriminate]. intros _.
    exists [], m, cs, []. unfold replace_all. simpl. rewrite E. simpl.
    apply exec_sound in E. destruct E as (rest & _ & _ & L). auto.
  - destruct (exec r (c :: s)) as [[m cs] |] eqn:E.
    + intros _. pose proof E as E'.
      apply exec_sound in E'. destruct E' as (rest & _ & _ & L).
      unfold replace_all. simpl. rewrite E.
      destruct (length m).
      * exists [], m, cs,
          (flat_map (fun p => match p with
                              | Keep c => [c] | Hit m cs => tpl m cs end)
                    (Keep c :: pieces r s 0)).
        auto.
      * eexists [], m, cs, _. split; [exact L | reflexivity].
    + intros T. destruct (IH T) as (pre & m & cs & post & L & R).
      exists (c :: pre), m, cs, post. split; auto.
      rewrite replace_all_cons_none by assumption. now rewrite R.
Qed.

Lemma rewriteAttrs_keeps_decl X N ws1 ws2 q1 U q2 :
  eq_ci X (js "xmlns:ns") -> forallb Cls.digit N = true ->
  forallb Cls.space ws1 = true -> forallb Cls.space ws2 = true ->
  Cls.quote q1 = true -> eq_ci U (js V120.xlinkUri) -> Cls.quote q2 = true ->
  forall ps,
    Forall (fun M => forallb Cls.digit M = true /\ M <> []) ps ->
    forall a b, exists a' b',
      V120.rewriteAttrs ps
        (a ++ (X ++ N ++ ws1 ++ 61%N :: ws2 ++ q1 :: U ++ [q2]) ++ b)
      = a' ++ (X ++ N ++ ws1 ++ 61%N :: ws2 ++ q1 :: U ++ [q2]) ++ b'.
Proof.
  intros HX HN H1 H2 Q1 HU Q2. unfold V120.rewriteAttrs.
  induction ps as [| M ps IH]; intros F a b; simpl.
  - eauto.
  - inversion F as [| ? ? [HM HM'] F']; subst.
    match goal with
    | |- context [replace_all ?r ?tpl (a ++ ?u ++ b)] =>
        destruct (@replace_all_frame r tpl u) with (a := a) (b := b)
          as (a1 & b1 & ->)
    end.
    + now apply attr_no_start.
    + now apply attr_no_entry.
    + now apply IH.
Qed.

Lemma rewriteDecls_keeps_xlink : forall ps,
  Forall (fun M => forallb Cls.digit M = true /\ M <> []) ps ->
  forall t, contains (js "xmlns:xlink") t = true ->
            contains (js "xmlns:xlink") (V120.rewriteDecls ps t) = true.
Proof.
  unfold V120.rewriteDecls.
  induction ps as [| M ps IH]; intros F t H; simpl; auto.
  inversion F as [| ? ? [HM HM'] F']; subst.
  apply IH; auto. apply contains_true in H. destruct H as (a & b & ->).
  match goal with
  | |- context [replace_all ?r ?tpl _] =>
      destruct (@replace_all_frame r tpl (js "xmlns:xlink"))
        with (a := a) (b := b) as (a1 & b1 & ->)
  end.
  - apply decl_no_start.
  - now apply decl_no_entry.
  - apply contains_app.
Qed.

(** Whenever step 3 collected a prefix, the text holds xmlns:xlink after
    step 5. *)
Lemma step5_writes_xlink r2 N ps :
  exec_all V120.xlinkNsPattern r2 = N :: ps ->
  contains (js "xmlns:xlink")
    (V120.rewriteDecls (N :: ps) (V120.rewriteAttrs (N :: ps) r2)) = true.
Proof.
  intros E.
  pose proof (exec_all_digits r2) as F. rewrite E in F.
  destruct (exec_all_first _ _ E) as (pre & m & cs & rest & -> & L & G).
  destruct (xlinkNs_match L)
    as (X & ds & ws1 & ws2 & q1 & U & q2 & -> & G' & HX & HD & HN & H1 & H2
        & Q1 & HU & Q2).
  rewrite G in G'. subst ds.
  destruct (@rewriteAttrs_keeps_decl X N ws1 ws2 q1 U q2 HX HD H1 H2 Q1 HU Q2
              (N :: ps) F pre rest) as (a & b & R).
  match goal with
  | |- context [V120.rewriteAttrs ?ps0 ?t0] =>
      assert (R' : V120.rewriteAttrs ps0 t0
                   = a ++ (X ++ N ++ ws1 ++ 61%N :: ws2 ++ q1 :: U ++ [q2])
                       ++ b) by exact R;
      rewrite R'; clear R R'
  end.
  unfold V120.rewriteDecls. simpl fold_left.
  inversion F as [| ? ? _ F']; subst.
  apply (@rewriteDecls_keeps_xlink ps F').
  match goal with
  | |- context [replace_all ?r ?tpl ?s] =>
      destruct (@replace_all_first_hit r tpl s)
        as (p1 & m1 & cs1 & p2 & L1 & ->)
  end.
  - apply test_true. do 3 eexists. split; [reflexivity |].
    now apply decl_Lang.
  - apply contains_true. exists p1, (group 1 cs1 ++ p2).
    f_equal.
Qed.

(** ** Step 6 of version 1.2.0 *)

Lemma ensureDecl_idle t :
  contains (js "xmlns:xlink") t = true -> V120.ensureDecl t = t.
Proof.
  intros H. unfold V120.ensureDecl. rewrite H. now rewrite andb_false_r.
Qed.




(** ** Steps 4 to 6 on any text *)

Lemma pieces_concat r : forall s k,
  flat_map (fun p => match p with Keep c => [c] | Hit m _ => m end)
           (pieces r s k) = skipn k s.
Proof.
  induction s as [| c s IH]; intros k; simpl.
  - destruct k; simpl; auto.
    destruct (exec r []) as [[m cs] |] eqn:E; simpl; auto.
    apply exec_sound in E. destruct E as (rest & E & _).
    symmetry in E. apply app_eq_nil in E. destruct E as [-> _]. reflexivity.
  - destruct k as [| k]; [| apply IH].
    destruct (exec r (c :: s)) as [[m cs] |] eqn:E.
    + apply exec_sound in E. destruct E as (rest & E & _).
      destruct m as [| d m]; simpl.
      * now rewrite IH.
      * rewrite IH. simpl in E. injection E as <- ->.
        now rewrite skipn_app, Nat.sub_diag, skipn_all.
    + simpl. now rewrite IH.
Qed.

Lemma count_pieces t r tpl :
  (forall m cs, LangC r m cs -> forall u w,
      count t (u ++ m ++ w) = count t (u ++ tpl m cs ++ w)) ->
  forall ps, Forall (hit_ok r) ps -> forall u,
    count t (u ++ flat_map (fun p => match p with
                                     | Keep c => [c]
                                     | Hit m cs => tpl m cs
                                     end) ps)
    = count t (u ++ flat_map (fun p => match p with
                                       | Keep c => [c]
                                       | Hit m _ => m
                                       end) ps).
Proof.
  intros Hq.
  set (f := fun p : piece =>
              match p with Keep c => [c] | Hit m cs => tpl m cs end).
  set (g := fun p : piece =>
              match p with Keep c => [c] | Hit m _ => m end).
  induction ps as [| [c | m cs] ps IH]; intros F u; auto;
    inversion F as [| ? ? Hx F']; subst.
  - change (flat_map f (Keep c :: ps)) with ([c] ++ flat_map f ps).
    change (flat_map g (Keep c :: ps)) with ([c] ++ flat_map g ps).
    rewrite !app_assoc. now apply IH.
  - change (flat_map f (Hit m cs :: ps)) with (tpl m cs ++ flat_map f ps).
    change (flat_map g (Hit m cs :: ps)) with (m ++ flat_map g ps).
    simpl in Hx. rewrite <- (Hq m cs Hx). rewrite !app_assoc. now apply IH.
Qed.

(** A global replace whose matches and replacements hold equally many
    [t], wherever they stand, keeps the number of [t]. *)
Lemma replace_all_count t r tpl :
  (forall m cs, LangC r m cs -> forall u w,
      count t (u ++ m ++ w) = count t (u ++ tpl m cs ++ w)) ->
  forall s, count t (replace_all r tpl s) = count t s.
Proof.
  intros Hq s. unfold replace_all.
  pose proof (@count_pieces t r tpl Hq _ (pieces_hits r s 0) []) as X.
  cbn [app] in X. rewrite X, pieces_concat. reflexivity.
Qed.

Lemma quiet_swap t x y : t <> [] -> quiet t x -> quiet t y ->
  forall u w, count t (u ++ x ++ w) = count t (u ++ y ++ w).
Proof.
  intros Ht Qx Qy u w.
  now rewrite (count_quiet Ht Qx), (count_quiet Ht Qy).
Qed.

Lemma rewriteAttrs_count t : forall ps x,
  (forall M m cs, In M ps -> LangC (V120.nsToXlinkPattern M) m cs ->
     forall u w,
       count t (u ++ m ++ w)
       = count t (u ++ (js " xlink:" ++ group 1 cs ++ js "=") ++ w)) ->
  count t (V120.rewriteAttrs ps x) = count t x.
Proof.
  unfold V120.rewriteAttrs.
  induction ps as [| M ps IH]; intros x H; cbn [fold_left]; auto.
  rewrite IH.
  - apply replace_all_count. intros m cs L. apply (H M); auto. now left.
  - intros M' m cs HM'. apply H. now right.
Qed.

Lemma rewriteDecls_count t : forall ps x,
  (forall M m cs, In M ps -> LangC (V120.xmlnsPattern M) m cs ->
     forall u w,
       count t (u ++ m ++ w)
       = count t (u ++ (js "xmlns:xlink" ++ group 1 cs) ++ w)) ->
  count t (V120.rewriteDecls ps x) = count t x.
Proof.
  unfold V120.rewriteDecls.
  induction ps as [| M ps IH]; intros x H; cbn [fold_left]; auto.
  rewrite IH.
  - apply replace_all_count. intros m cs L. apply (H M); auto. now left.
  - intros M' m cs HM'. apply H. now right.
Qed.


(** Steps 4 to 6 keep the number of [t] when the matches of the two
    rewriting patterns and their replacements hold equally many. *)
Lemma rewriteStage_count t s :
  (forall M m cs, In M (collectedPrefixes s) ->
     LangC (V120.nsToXlinkPattern M) m cs ->
     forall u w,
       count t (u ++ m ++ w)
       = count t (u ++ (js " xlink:" ++ group 1 cs ++ js "=") ++ w)) ->
  (forall M m cs, In M (collectedPrefixes s) ->
     LangC (V120.xmlnsPattern M) m cs ->
     forall u w,
       count t (u ++ m ++ w)
       = count t (u ++ (js "xmlns:xlink" ++ group 1 cs) ++ w)) ->
  count t (rewriteStage s) = count t (protectedText s).
Proof.
  intros HA HD. unfold rewriteStage, rewrittenText.
  destruct (collectedPrefixes s) as [| N0 ps] eqn:E; auto.
  rewrite ensureDecl_idle.
  - now rewrite rewriteDecls_count, rewriteAttrs_count.
  - apply step5_writes_xlink. exact E.
Qed.

Lemma collected_digits s M :
  In M (collectedPrefixes s) -> forallb Cls.digit M = true /\ M <> [].
Proof.
  intros H. pose proof (exec_all_digits (protectedText s)) as F.
  rewrite Forall_forall in F. now apply F.
Qed.


(** ** Steps 4 to 6 and the placeholders *)

Lemma phChar_not_in q n c : phChar c = false -> ~ In c (placeholder q n).
Proof.
  intros H I. pose proof (placeholder_chars q n) as F.
  rewrite forallb_forall in F. rewrite (F c I) in H. discriminate.
Qed.

Lemma nous_not_in x : nous x = true -> ~ In 95%N x.
Proof.
  intros H I. unfold nous in H. rewrite forallb_forall in H.
  specialize (H _ I). discriminate.
Qed.

Lemma quiet_placeholder q n c1 x c2 :
  phChar c1 = false -> phChar c2 = false -> nous x = true ->
  quiet (placeholder q n) (c1 :: x ++ [c2]).
Proof.
  intros H1 H2 Hx. exists c1, x, c2. split; [reflexivity |].
  split; [now apply phChar_not_in |]. split; [now apply phChar_not_in |].
  apply (@count_lacks 95%N); [| now apply nous_not_in].
  destruct (placeholder_head q n) as (a & b & -> & _). now left.
Qed.

Lemma space_not_phChar c : Cls.space c = true -> phChar c = false.
Proof.
  intros S. destruct (phChar c) eqn:P; auto. exfalso.
  phChar_cases P; discriminate.
Qed.

Lemma quote_not_phChar c : Cls.quote c = true -> phChar c = false.
Proof.
  intros Q. assert (c = 34%N \/ c = 39%N) as [-> | ->] by cls; reflexivity.
Qed.

Lemma placeholder_nonempty q n : placeholder q n <> [].
Proof. destruct (placeholder_head q n) as (a & b & -> & _). discriminate. Qed.

Lemma swap_attr q n M m cs :
  forallb Cls.digit M = true ->
  LangC (V120.nsToXlinkPattern M) m cs ->
  forall u w,
    count (placeholder q n) (u ++ m ++ w)
    = count (placeholder q n)
        (u ++ (js " xlink:" ++ group 1 cs ++ js "=") ++ w).
Proof.
  intros HM L.
  assert (A : accepts (V120.nsToXlinkPattern M) 95%N = false)
    by (apply accepts_nsToXlinkPattern; now apply digits_nous).
  assert (Nm : nous m = true) by (eapply accepts_nous; eauto using LangC_Lang).
  assert (Ng : nous (group 1 cs) = true) by (eapply group_nous; eauto).
  destruct (nsToXlink_match HM L)
    as (w0 & ws1 & n0 & s & c0 & name & ws2 & -> & _ & H0 & _).
  apply quiet_swap; [apply placeholder_nonempty | |].
  - apply quiet_placeholder; auto using space_not_phChar.
    apply nous_cons in Nm. destruct Nm as [_ Nm].
    rewrite nous_app in Nm. apply andb_true_iff in Nm. tauto.
  - change (js " xlink:" ++ group 1 cs ++ js "=")
      with (32%N :: (js "xlink:" ++ group 1 cs) ++ [61%N]).
    apply quiet_placeholder;
      [reflexivity | reflexivity | rewrite nous_app, Ng; reflexivity].
Qed.

Lemma swap_decl q n M m cs :
  forallb Cls.digit M = true ->
  LangC (V120.xmlnsPattern M) m cs ->
  forall u w,
    count (placeholder q n) (u ++ m ++ w)
    = count (placeholder q n) (u ++ (js "xmlns:xlink" ++ group 1 cs) ++ w).
Proof.
  intros HM L.
  assert (A : accepts (V120.xmlnsPattern M) 95%N = false)
    by (apply accepts_xmlnsPattern; now apply digits_nous).
  assert (Nm : nous m = true) by (eapply accepts_nous; eauto using LangC_Lang).
  assert (Ng : nous (group 1 cs) = true) by (eapply group_nous; eauto).
  pose proof Nm as N0.
  destruct (xmlns_match HM L)
    as (X & ws1 & ws2 & q1 & U & q2 & -> & -> & HX & _ & _ & _ & _ & Q2).
  destruct (xmlns_head HX)
    as (x0 & x1 & x2 & x3 & x4 & x5 & x6 & x7 & -> & U0 & _).
  assert (P0 : phChar x0 = false).
  { apply up88 in U0. destruct U0 as [-> | ->]; reflexivity. }
  cbn [group Nat.eqb] in Ng. rewrite nous_app in Ng.
  apply andb_true_iff in Ng. destruct Ng as [Ng _].
  apply quiet_swap; [apply placeholder_nonempty | |].
  - replace ([x0; x1; x2; x3; x4; x5; x6; x7] ++ M
               ++ (ws1 ++ 61%N :: ws2 ++ q1 :: U) ++ [q2])
      with (x0 :: ([x1; x2; x3; x4; x5; x6; x7] ++ M
                     ++ ws1 ++ 61%N :: ws2 ++ q1 :: U) ++ [q2])
      by (norm_app; reflexivity).
    apply quiet_placeholder; auto using quote_not_phChar.
    replace ([x0; x1; x2; x3; x4; x5; x6; x7] ++ M
               ++ (ws1 ++ 61%N :: ws2 ++ q1 :: U) ++ [q2])
      with (x0 :: ([x1; x2; x3; x4; x5; x6; x7] ++ M
                     ++ ws1 ++ 61%N :: ws2 ++ q1 :: U) ++ [q2]) in N0
      by (norm_app; reflexivity).
    apply nous_cons in N0. destruct N0 as [_ N0].
    rewrite nous_app in N0. apply andb_true_iff in N0. tauto.
  - cbn [group Nat.eqb].
    change (js "xmlns:xlink" ++ (ws1 ++ 61%N :: ws2 ++ q1 :: U) ++ [q2])
      with (120%N :: (js "mlns:xlink" ++ ws1 ++ 61%N :: ws2 ++ q1 :: U)
              ++ [q2]).
    apply quiet_placeholder;
      [reflexivity | now apply quote_not_phChar
      | rewrite nous_app, Ng; reflexivity].
Qed.

(** X17.  Whatever the document, steps 4 to 6 change no placeholder: the
    text the restoring loops receive holds each placeholder as often as
    the protected text. *)
Theorem placeholders_kept_by_rewriting s q n :
  count (placeholder q n) (rewriteStage s)
  = count (placeholder q n) (protectedText s).
Proof.
  apply rewriteStage_count; intros M m cs HM L;
    destruct (collected_digits _ _ HM) as [HD _].
  - exact (@swap_attr q n M m cs HD L).
  - exact (@swap_decl q n M m cs HD L).
Qed.

(** ** Steps 4 to 6 and the prefixes that were not collected *)





(** ** toDataUrl of the two modules *)

Lemma codeUnits_emitted : codeUnits emitted = true.
Proof. vm_compute. reflexivity. Qed.

Lemma normalizeStr_codeUnits s :
  codeUnits s = true ->
  codeUnits (V120.normalizeStr s) = true /\
  codeUnits (V110.normalizeStr s) = true.
Proof.
  intros H. split.
  - apply (@normalizeStr_in _ codeUnits_emitted s H).
  - apply (@normalizeStr110_in _ codeUnits_emitted s H).
Qed.

(** X5.  In [toDataUrl], the replacement of the double quotes changes
    nothing, in either module: [encodeURIComponent] has escaped them
    already.  The function returns what it would return with the
    apostrophes replaced only. *)
Theorem toDataUrl_quote_replace_idle s :
  V120x.toDataUrl s
  = match Uri.encodeURIComponent (V120.normalizeStr s) with
    | None => None
    | Some e =>
        Some (js "data:image/svg+xml,"
                ++ replace_all (Chr (Cls.eq "'")) (fun _ _ => js "%27") e)
    end /\
  V110x.toDataUrl s
  = match Uri.encodeURIComponent (V110.normalizeStr s) with
    | None => None
    | Some e =>
        Some (js "data:image/svg+xml,"
                ++ replace_all (Chr (Cls.eq "'")) (fun _ _ => js "%27") e)
    end.
Proof. split; apply toDataUrl_quote_idle. Qed.

(** X6.  For a document of 16-bit code units, the result of [toDataUrl], in
    either module, is the media type followed by ASCII letters, digits,
    the characters [- _ . ! ~ * ( )] and percent signs only: no quote of
    either kind, no angle bracket, no white space, no number sign. *)
Theorem toDataUrl_alphabet s u :
  codeUnits s = true ->
  V120x.toDataUrl s = Some u \/ V110x.toDataUrl s = Some u ->
  exists e, u = js "data:image/svg+xml," ++ e /\ forallb urlSafe e = true.
Proof.
  intros C. destruct (normalizeStr_codeUnits s C) as [C1 C2].
  intros [E | E].
  - apply (@toDataUrl_safe V120.normalizeStr s u C1 E).
  - apply (@toDataUrl_safe V110.normalizeStr s u C2 E).
Qed.

Lemma toDataUrl_alphabet_witness :
  exists e,
    js "data:image/svg+xml,%3Csvg%20xmlns%3Axlink%3D%22http%3A%2F%2Fwww.w3.org%2F1999%2Fxlink%22%3E%3Ca%20xlink%3Ahref%3D%27x%27%2F%3E%3C%2Fsvg%3E"
    = js "data:image/svg+xml," ++ e /\ forallb urlSafe e = true.
Proof.
  apply (@toDataUrl_alphabet
           (jsq "<svg xmlns:ns1=`http://www.w3.org/1999/xlink`><a ns1:href='x'/></svg>")).
  - vm_compute. reflexivity.
  - left. vm_compute. reflexivity.
Defined.

(** X7.  [toDataUrl] throws (the URIError of [encodeURIComponent]) exactly
    when the normalized text is not well-formed UTF-16, that is when it
    holds a surrogate that is not half of a pair; in either module. *)
Theorem toDataUrl_throws_iff s :
  (V120x.toDataUrl s = None <-> wellFormed (V120.normalizeStr s) = false) /\
  (V110x.toDataUrl s = None <-> wellFormed (V110.normalizeStr s) = false).
Proof. split; apply toDataUrl_fails. Qed.

(** X8.  [toDataUrl] loses nothing of the normalized text: when two documents
    of 16-bit code units get the same data URL from one of the modules,
    that module normalizes them to the same text. *)
Theorem toDataUrl_injective a b u :
  codeUnits a = true -> codeUnits b = true ->
  (V120x.toDataUrl a = Some u -> V120x.toDataUrl b = Some u ->
   V120.normalize (VString a) = V120.normalize (VString b)) /\
  (V110x.toDataUrl a = Some u -> V110x.toDataUrl b = Some u ->
   V110.normalize (VString a) = V110.normalize (VString b)).
Proof.
  intros Ca Cb.
  destruct (normalizeStr_codeUnits a Ca) as [A1 A2].
  destruct (normalizeStr_codeUnits b Cb) as [B1 B2].
  split; intros Ea Eb.
  - rewrite !normalize_string. f_equal.
    apply (@toDataUrl_inj V120.normalizeStr a b u A1 B1 Ea Eb).
  - assert (N : forall s, V110.normalize (VString s)
                          = VString (V110.normalizeStr s))
      by (intros [| c s]; reflexivity).
    rewrite !N. f_equal.
    apply (@toDataUrl_inj V110.normalizeStr a b u A2 B2 Ea Eb).
Qed.

Lemma toDataUrl_injective_witness :
  V120.normalize
    (VString (jsq "<svg xmlns:ns1=`http://www.w3.org/1999/xlink`><a ns1:href='x'/></svg>"))
  = V120.normalize
      (VString (jsq "<svg xmlns:ns7=`http://www.w3.org/1999/xlink`><a  ns7:href='x'/></svg>")).
Proof.
  apply (@toDataUrl_injective
    (jsq "<svg xmlns:ns1=`http://www.w3.org/1999/xlink`><a ns1:href='x'/></svg>")
    (jsq "<svg xmlns:ns7=`http://www.w3.org/1999/xlink`><a  ns7:href='x'/></svg>")
    (js "data:image/svg+xml,%3Csvg%20xmlns%3Axlink%3D%22http%3A%2F%2Fwww.w3.org%2F1999%2Fxlink%22%3E%3Ca%20xlink%3Ahref%3D%27x%27%2F%3E%3C%2Fsvg%3E"));
    vm_compute; reflexivity.
Defined.
